(** * til::spsc -- a bounded single-producer / single-consumer channel

    A shallow embedding of [src/inc/til/spsc.h] and the properties of its
    position protocol.

    Conventions of the embedding:
    - [size_type] ([uint32_t]) values are integers of [Z]; every arithmetic
      operation that can leave the 32-bit range is wrapped with [wrap32].
      Bit operations are [Z.land], [Z.lor], [Z.lxor], [Z.shiftl], [Z.shiftr].
    - an atomic word is the integer it holds.  A thread reads the word of its
      peer through a list of the values that its successive [load]s return
      (the peer stores to the word concurrently); memory orderings are not
      represented, every access is sequentially consistent.
    - the raw storage [_data] is a finite map from slot index to the object
      constructed in the slot; a slot without an object is absent from the
      map.
    - functions that can throw, or park on the peer's word for ever, return
      an [outcome]. *)

From Stdlib Require Import ZArith Lia List Bool.
From stdpp Require Import base option list gmap.

Local Open Scope Z_scope.

(** ** Machine integers *)

Definition size_type_digits : Z := 32.
Definition size_type_max : Z := 2 ^ size_type_digits - 1.

(** Unsigned 32-bit wrap-around. *)
Definition wrap32 (z : Z) : Z := z mod 2 ^ size_type_digits.

(** [size_t] arithmetic ([count -= got]); 64 bits on the supported targets. *)
Definition size_t_digits : Z := 64.
Definition wrap_size_t (z : Z) : Z := z mod 2 ^ size_t_digits.

Definition is_size_type (w : Z) : Prop := 0 <= w <= size_type_max.

(** ** Results of calls that may throw or block *)

Inductive exception : Type :=
| overflow_error
| invalid_argument.

Inductive outcome (A : Type) : Type :=
| Returned (a : A)
| Threw (e : exception)
| Parked        (* still waiting on the peer's word when the observations end *)
| Undefined.    (* no defined result: the call read a slot that holds no
                   object, touched a deleted state, or ended without the
                   return its type requires *)

Arguments Returned {A} a.
Arguments Threw {A} e.
Arguments Parked {A}.
Arguments Undefined {A}.

(** ** namespace details *)

Module details.

Definition position_mask : Z := Z.shiftr size_type_max 2.
Definition revolution_flag : Z := Z.shiftl 1 (size_type_digits - 2).
Definition drop_flag : Z := Z.shiftl 1 (size_type_digits - 1).

(** [validate_size]: [None] when the call returns, [Some e] when it throws. *)
Definition validate_size (v : Z) : option exception :=
  if v >? position_mask then Some overflow_error else None.

Record acquisition : Type := Acquisition {
  begin : Z;
  end_ : Z;
  next : Z
}.

(** The value-initialised [acquisition{}]. *)
Definition empty_acquisition : acquisition :=
  {| begin := 0; end_ := 0; next := 0 |}.

(** [explicit operator bool]. *)
Definition to_bool (a : acquisition) : bool := negb (end_ a =? 0).

(** The wait loop of [acquire]: [theirs] lists the values that the
    successive [theirs.load] calls return.  The result is the value on
    which the loop exits together with the loads not yet consumed, or
    [None] when every listed load leaves the caller waiting. *)
Fixpoint acquire_wait (myPos waitMask : Z) (theirs : list Z)
  : option (Z * list Z) :=
  match theirs with
  | [] => None
  | theirPos :: rest =>
      if negb (Z.lxor myPos theirPos =? waitMask)
      then Some (theirPos, rest)
      else acquire_wait myPos waitMask rest
  end.

(** The test that makes [acquire] return the empty acquisition. *)
Definition peer_dropped (myPos theirPos waitMask : Z) : bool :=
  negb (Z.land theirPos drop_flag =? 0)
  && (negb (waitMask =? 0) || (Z.lxor myPos theirPos =? drop_flag)).

(** The body of [acquire] after the wait loop. *)
Definition acquire_range (capacity myPos theirPos waitMask slots : Z)
  : acquisition :=
  if peer_dropped myPos theirPos waitMask then empty_acquisition
  else
    let begin0 := Z.land myPos position_mask in
    let end0 := Z.land theirPos position_mask in
    let end1 := if end0 >? begin0 then end0 else capacity in
    let end2 := Z.min end1 (wrap32 (begin0 + slots)) in
    let revolution := Z.land myPos revolution_flag in
    let next0 :=
      if negb (end2 =? capacity) then Z.lor end2 revolution
      else Z.lxor revolution revolution_flag in
    {| begin := begin0; end_ := end2; next := next0 |}.

(** [arc::acquire(mine, theirs, waitMask, slots)]; [mine] is the value of
    the caller's own word. *)
Definition acquire (capacity mine : Z) (theirs : list Z) (waitMask slots : Z)
  : option (acquisition * list Z) :=
  let myPos := mine in
  match acquire_wait myPos waitMask theirs with
  | None => None
  | Some (theirPos, rest) =>
      Some (acquire_range capacity myPos theirPos waitMask slots, rest)
  end.

(** ** The shared state [arc<T>] *)

Set Implicit Arguments.

Section arc.
Variable T : Type.

Record arc : Type := Arc {
  _data : gmap Z T;
  _capacity : Z;
  _eitherSideDropped : bool;
  _producer : Z;
  _consumer : Z
}.

(** [arc(size_type capacity)]: raw storage, both positions zero. *)
Definition new_arc (capacity : Z) : arc :=
  {| _data := ∅; _capacity := capacity; _eitherSideDropped := false;
     _producer := 0; _consumer := 0 |}.

Definition with_data (a : arc) (d : gmap Z T) : arc :=
  {| _data := d; _capacity := _capacity a;
     _eitherSideDropped := _eitherSideDropped a;
     _producer := _producer a; _consumer := _consumer a |}.

Definition with_producer (a : arc) (w : Z) : arc :=
  {| _data := _data a; _capacity := _capacity a;
     _eitherSideDropped := _eitherSideDropped a;
     _producer := w; _consumer := _consumer a |}.

Definition with_consumer (a : arc) (w : Z) : arc :=
  {| _data := _data a; _capacity := _capacity a;
     _eitherSideDropped := _eitherSideDropped a;
     _producer := _producer a; _consumer := w |}.

Definition with_eitherSideDropped (a : arc) (b : bool) : arc :=
  {| _data := _data a; _capacity := _capacity a;
     _eitherSideDropped := b;
     _producer := _producer a; _consumer := _consumer a |}.

(** [std::destroy(_data + first, _data + first + n)]. *)
Fixpoint destroy_n (d : gmap Z T) (first : Z) (n : nat) : gmap Z T :=
  match n with
  | O => d
  | S n' => destroy_n (delete first d) (first + 1) n'
  end.

(** [std::destroy(_data + first, _data + last)]. *)
Definition destroy (d : gmap Z T) (first last : Z) : gmap Z T :=
  destroy_n d first (Z.to_nat (last - first)).

(** [std::uninitialized_move_n(in, n, _data + dest)]: the advanced input
    iterator and the storage. *)
Fixpoint uninitialized_move_n (in_ : list T) (n : nat) (dest : Z)
  (d : gmap Z T) : list T * gmap Z T :=
  match n, in_ with
  | S n', x :: in' => uninitialized_move_n in' n' (dest + 1) (<[dest := x]> d)
  | _, _ => (in_, d)
  end.

(** [std::move(_data + first, _data + first + n, out)]: the objects read, in
    order; [None] when one of the slots holds no object. *)
Fixpoint move_out (d : gmap Z T) (first : Z) (n : nat) : option (list T) :=
  match n with
  | O => Some []
  | S n' =>
      match d !! first, move_out d (first + 1) n' with
      | Some x, Some xs => Some (x :: xs)
      | _, _ => None
      end
  end.

(** [~arc()]: the storage after the [std::destroy] calls, and the ranges
    these calls were given. *)
Definition arc_destructor (a : arc) : gmap Z T * list (Z * Z) :=
  let beg := _consumer a in
  let end0 := _producer a in
  let differentRevolution :=
    negb (Z.land (Z.lxor beg end0) revolution_flag =? 0) in
  let beg := Z.land beg position_mask in
  let end0 := Z.land end0 position_mask in
  if end0 >? beg then (destroy (_data a) beg end0, [(beg, end0)])
  else if differentRevolution
  then (destroy (destroy (_data a) 0 end0) beg (_capacity a),
        [(0, end0); (beg, _capacity a)])
  else (_data a, []).

Definition producer_acquire (a : arc) (theirs : list Z) (slots : Z)
  : option (acquisition * list Z) :=
  acquire (_capacity a) (_producer a) theirs revolution_flag slots.

(** [release(mine, acquisition)] for [mine = _producer]. *)
Definition producer_release (a : arc) (acq : acquisition) : arc :=
  with_producer a (next acq).

Definition consumer_acquire (a : arc) (theirs : list Z) (slots : Z)
  : option (acquisition * list Z) :=
  acquire (_capacity a) (_consumer a) theirs 0 slots.

Definition consumer_release (a : arc) (acq : acquisition) : arc :=
  with_consumer a (next acq).

(** *** [drop(mine)], one atomic access at a time *)

Inductive side : Type := Producer | Consumer.

Definition load (s : side) (a : arc) : Z :=
  match s with Producer => _producer a | Consumer => _consumer a end.

Definition store (s : side) (a : arc) (w : Z) : arc :=
  match s with
  | Producer => with_producer a w
  | Consumer => with_consumer a w
  end.

(** [mine.store(myPos | drop_flag)]. *)
Definition drop_store (s : side) (myPos : Z) (a : arc) : arc :=
  store s a (Z.lor myPos drop_flag).

(** [_eitherSideDropped.exchange(true)]: the state and the old value. *)
Definition drop_exchange (a : arc) : arc * bool :=
  (with_eitherSideDropped a true, _eitherSideDropped a).

(** What a call of [drop] leaves behind: the state when it survives, or the
    ranges destroyed by [delete this]. *)
Inductive dropped_arc : Type :=
| Alive (a : arc)
| Deleted (destroyed : list (Z * Z)) (storage : gmap Z T).

(** [drop(mine)] run without interruption. *)
Definition drop (s : side) (a : arc) : dropped_arc :=
  let myPos := load s a in
  let a1 := drop_store s myPos a in
  let '(a2, second) := drop_exchange a1 in
  if second
  then let '(d, ranges) := arc_destructor a2 in Deleted ranges d
  else Alive a2.

Definition drop_producer (a : arc) : dropped_arc := drop Producer a.
Definition drop_consumer (a : arc) : dropped_arc := drop Consumer a.

End arc.

Unset Implicit Arguments.

End details.

Import details.

(** [drop] on lists stays the list function; the method of [arc] is written
    [details.drop]. *)
Abbreviation drop := skipn (only parsing).

(** ** Handles

    A handle holds a pointer to the shared state or [nullptr].  The shared
    states live in a heap; [new] takes a location that is not yet in use and
    [delete this] removes the location.  The transfer operations of a handle
    are given on the state its pointer designates. *)

Definition loc : Type := positive.

Set Implicit Arguments.

Module sender.
Section sender.
Variable T : Type.

Record t : Type := Sender { _arc : option loc }.

(** [drop()]: nothing for a handle that holds [nullptr]. *)
Definition drop (h : gmap loc (arc T)) (self : t) : gmap loc (arc T) :=
  match _arc self with
  | None => h
  | Some l =>
      match h !! l with
      | None => h
      | Some a =>
          match drop_producer a with
          | Alive a' => <[l := a']> h
          | Deleted _ _ => delete l h
          end
      end
  end.

(** [sender(sender&& other)]; [_arc] starts as [nullptr]. *)
Definition move_construct (h : gmap loc (arc T)) (other : t)
  : gmap loc (arc T) * t * t :=
  let self := {| _arc := None |} in
  let h := drop h self in
  (h, {| _arc := _arc other |}, {| _arc := None |}).

(** [operator=(sender&& other)]: the heap, the two handles, and the value
    the call hands back.  The body ends without a [return] statement. *)
Definition move_assign (h : gmap loc (arc T)) (self other : t)
  : gmap loc (arc T) * t * t * outcome t :=
  let h := drop h self in
  let self := {| _arc := _arc other |} in
  let other := {| _arc := None |} in
  (h, self, other, Undefined).

(** [emplace(args...)] on the state [a]; [v] is the object constructed. *)
Definition emplace (a : arc T) (theirs : list Z) (v : T)
  : arc T * outcome bool :=
  match producer_acquire a theirs 1 with
  | None => (a, Parked)
  | Some (acquisition, _) =>
      if negb (to_bool acquisition) then (a, Returned false)
      else
        let a := with_data a (<[begin acquisition := v]> (_data a)) in
        (producer_release a acquisition, Returned true)
  end.

(** The [while (count != 0)] loop of [move_n].  Every round that does not
    return consumes a load of [theirs], so [length theirs] rounds of [fuel]
    are always enough.  The acquisitions made are recorded in [log]. *)
Fixpoint move_n_loop (fuel : nat) (a : arc T) (theirs : list Z)
  (in_ : list T) (count : Z) (log : list acquisition)
  : arc T * list acquisition * outcome (list T * bool) :=
  if count =? 0 then (a, log, Returned (in_, true))
  else
    match fuel with
    | O => (a, log, Parked)
    | S fuel' =>
        match producer_acquire a theirs (wrap32 count) with
        | None => (a, log, Parked)
        | Some (acquisition, theirs') =>
            if negb (to_bool acquisition)
            then (a, log, Returned (in_, false))
            else
              let begin0 := begin acquisition in
              let got := wrap32 (end_ acquisition - begin acquisition) in
              let '(in', d) :=
                uninitialized_move_n in_ (Z.to_nat got) begin0 (_data a) in
              let count' := wrap_size_t (count - got) in
              let a := producer_release (with_data a d) acquisition in
              move_n_loop fuel' a theirs' in' count' (log ++ [acquisition])
        end
    end.

(** [move_n(in, count)] on the state [a], with the acquisitions it made. *)
Definition move_n_log (a : arc T) (theirs : list Z) (in_ : list T) (count : Z)
  : arc T * list acquisition * outcome (list T * bool) :=
  match validate_size count with
  | Some e => (a, [], Threw e)
  | None => move_n_loop (length theirs) a theirs in_ count []
  end.

Definition move_n (a : arc T) (theirs : list Z) (in_ : list T) (count : Z)
  : arc T * outcome (list T * bool) :=
  let '(a', _, r) := move_n_log a theirs in_ count in (a', r).

End sender.
End sender.

Module receiver.
Section receiver.
Variable T : Type.

Record t : Type := Receiver { _arc : option loc }.

Definition drop (h : gmap loc (arc T)) (self : t) : gmap loc (arc T) :=
  match _arc self with
  | None => h
  | Some l =>
      match h !! l with
      | None => h
      | Some a =>
          match drop_consumer a with
          | Alive a' => <[l := a']> h
          | Deleted _ _ => delete l h
          end
      end
  end.

Definition move_construct (h : gmap loc (arc T)) (other : t)
  : gmap loc (arc T) * t * t :=
  let self := {| _arc := None |} in
  let h := drop h self in
  (h, {| _arc := _arc other |}, {| _arc := None |}).

(** [operator=(receiver&& other)]; as for the sender, no [return]. *)
Definition move_assign (h : gmap loc (arc T)) (self other : t)
  : gmap loc (arc T) * t * t * outcome t :=
  let h := drop h self in
  let self := {| _arc := _arc other |} in
  let other := {| _arc := None |} in
  (h, self, other, Undefined).

(** [pop()] on the state [a]. *)
Definition pop (a : arc T) (theirs : list Z) : arc T * outcome (option T) :=
  match consumer_acquire a theirs 1 with
  | None => (a, Parked)
  | Some (acquisition, _) =>
      if negb (to_bool acquisition) then (a, Returned None)
      else
        match _data a !! begin acquisition with
        | None => (a, Undefined)
        | Some record =>
            let a := with_data a (delete (begin acquisition) (_data a)) in
            (consumer_release a acquisition, Returned (Some record))
        end
  end.

(** The loop of [pop_n]; [out] is what has been written to the output. *)
Fixpoint pop_n_loop (fuel : nat) (a : arc T) (theirs : list Z)
  (out : list T) (count : Z) (log : list acquisition)
  : arc T * list acquisition * outcome (list T * bool) :=
  if count =? 0 then (a, log, Returned (out, true))
  else
    match fuel with
    | O => (a, log, Parked)
    | S fuel' =>
        match consumer_acquire a theirs (wrap32 count) with
        | None => (a, log, Parked)
        | Some (acquisition, theirs') =>
            if negb (to_bool acquisition)
            then (a, log, Returned (out, false))
            else
              let beg := begin acquisition in
              let end0 := end_ acquisition in
              let got := wrap32 (end_ acquisition - begin acquisition) in
              match move_out (_data a) beg (Z.to_nat got) with
              | None => (a, log, Undefined)
              | Some xs =>
                  let out' := out ++ xs in
                  let d := destroy (_data a) beg end0 in
                  let count' := wrap_size_t (count - got) in
                  let a := consumer_release (with_data a d) acquisition in
                  pop_n_loop fuel' a theirs' out' count' (log ++ [acquisition])
              end
        end
    end.

Definition pop_n_log (a : arc T) (theirs : list Z) (out : list T) (count : Z)
  : arc T * list acquisition * outcome (list T * bool) :=
  match validate_size count with
  | Some e => (a, [], Threw e)
  | None => pop_n_loop (length theirs) a theirs out count []
  end.

Definition pop_n (a : arc T) (theirs : list Z) (out : list T) (count : Z)
  : arc T * outcome (list T * bool) :=
  let '(a', _, r) := pop_n_log a theirs out count in (a', r).

End receiver.
End receiver.

(** ** [channel<T>(capacity)] *)

Section channel.
Variable T : Type.

Definition channel (h : gmap loc (arc T)) (capacity : Z)
  : gmap loc (arc T) * outcome (sender.t * receiver.t) :=
  if capacity =? 0 then (h, Threw invalid_argument)
  else
    let arc := fresh (dom h) in
    (<[arc := new_arc T capacity]> h,
     Returned ({| sender._arc := Some arc |}, {| receiver._arc := Some arc |})).

End channel.

Unset Implicit Arguments.

(** ** The two threads of a channel

    The producing thread and the consuming thread take turns at the
    granularity of the atomic accesses of [acquire] and [release]: a thread
    acquires a range (one load of the peer's word that does not leave it
    waiting), later fills or empties the range and releases it.  [sent] and
    [received] record what the threads have passed to and taken from the
    channel.  A load that leaves the caller waiting, and an acquisition that
    converts to [false], change nothing and are no steps.

    A thread that is not inside a call may run [drop]: it stores its own
    word with the drop flag (the load of that word comes with the store, as
    no other thread writes it), and in a later step exchanges
    [_eitherSideDropped] and, if the flag was set, deletes the state.
    [producer_gone] and [consumer_gone] tell whether the side has made its
    exchange. *)

Set Implicit Arguments.

Section system.
Variable T : Type.

Record system : Type := System {
  shared : dropped_arc T;
  producer_holds : option acquisition;
  consumer_holds : option acquisition;
  sent : list T;
  received : list T;
  producer_gone : bool;
  consumer_gone : bool
}.

(** The state right after [channel(capacity)] returned. *)
Definition init (capacity : Z) : system :=
  {| shared := Alive (new_arc T capacity);
     producer_holds := None; consumer_holds := None;
     sent := []; received := [];
     producer_gone := false; consumer_gone := false |}.

Inductive step : system -> system -> Prop :=
| step_producer_acquire s a slots acq :
    shared s = Alive a ->
    producer_holds s = None ->
    Z.land (_producer a) drop_flag = 0 ->
    1 <= slots <= position_mask ->
    producer_acquire a [_consumer a] slots = Some (acq, []) ->
    to_bool acq = true ->
    step s {| shared := shared s;
              producer_holds := Some acq; consumer_holds := consumer_holds s;
              sent := sent s; received := received s;
              producer_gone := producer_gone s;
              consumer_gone := consumer_gone s |}
| step_producer_release s a acq vs :
    shared s = Alive a ->
    producer_holds s = Some acq ->
    length vs = Z.to_nat (wrap32 (end_ acq - begin acq)) ->
    step s {| shared :=
                Alive (producer_release
                         (with_data a
                            (snd (uninitialized_move_n vs (length vs)
                                    (begin acq) (_data a)))) acq);
              producer_holds := None; consumer_holds := consumer_holds s;
              sent := sent s ++ vs; received := received s;
              producer_gone := producer_gone s;
              consumer_gone := consumer_gone s |}
| step_consumer_acquire s a slots acq :
    shared s = Alive a ->
    consumer_holds s = None ->
    Z.land (_consumer a) drop_flag = 0 ->
    1 <= slots <= position_mask ->
    consumer_acquire a [_producer a] slots = Some (acq, []) ->
    to_bool acq = true ->
    step s {| shared := shared s;
              producer_holds := producer_holds s; consumer_holds := Some acq;
              sent := sent s; received := received s;
              producer_gone := producer_gone s;
              consumer_gone := consumer_gone s |}
| step_consumer_release s a acq vs :
    shared s = Alive a ->
    consumer_holds s = Some acq ->
    move_out (_data a) (begin acq)
      (Z.to_nat (wrap32 (end_ acq - begin acq))) = Some vs ->
    step s {| shared :=
                Alive (consumer_release
                         (with_data a
                            (destroy (_data a) (begin acq) (end_ acq))) acq);
              producer_holds := producer_holds s; consumer_holds := None;
              sent := sent s; received := received s ++ vs;
              producer_gone := producer_gone s;
              consumer_gone := consumer_gone s |}
| step_producer_drop_store s a :
    shared s = Alive a ->
    producer_holds s = None ->
    Z.land (_producer a) drop_flag = 0 ->
    step s {| shared := Alive (drop_store Producer (load Producer a) a);
              producer_holds := None; consumer_holds := consumer_holds s;
              sent := sent s; received := received s;
              producer_gone := producer_gone s;
              consumer_gone := consumer_gone s |}
| step_producer_drop_exchange s a :
    shared s = Alive a ->
    Z.land (_producer a) drop_flag <> 0 ->
    producer_gone s = false ->
    step s {| shared :=
                (let '(a2, second) := drop_exchange a in
                 if second
                 then let '(d, ranges) := arc_destructor a2 in
                      Deleted ranges d
                 else Alive a2);
              producer_holds := producer_holds s;
              consumer_holds := consumer_holds s;
              sent := sent s; received := received s;
              producer_gone := true;
              consumer_gone := consumer_gone s |}
| step_consumer_drop_store s a :
    shared s = Alive a ->
    consumer_holds s = None ->
    Z.land (_consumer a) drop_flag = 0 ->
    step s {| shared := Alive (drop_store Consumer (load Consumer a) a);
              producer_holds := producer_holds s; consumer_holds := None;
              sent := sent s; received := received s;
              producer_gone := producer_gone s;
              consumer_gone := consumer_gone s |}
| step_consumer_drop_exchange s a :
    shared s = Alive a ->
    Z.land (_consumer a) drop_flag <> 0 ->
    consumer_gone s = false ->
    step s {| shared :=
                (let '(a2, second) := drop_exchange a in
                 if second
                 then let '(d, ranges) := arc_destructor a2 in
                      Deleted ranges d
                 else Alive a2);
              producer_holds := producer_holds s;
              consumer_holds := consumer_holds s;
              sent := sent s; received := received s;
              producer_gone := producer_gone s;
              consumer_gone := true |}.

Inductive reachable (capacity : Z) : system -> Prop :=
| reachable_init : reachable capacity (init capacity)
| reachable_step s s' :
    reachable capacity s -> step s s' -> reachable capacity s'.

(** *** The two calls of [drop], access by access *)

Inductive drop_pc : Type :=
| DropLoad                      (* before [mine.load] *)
| DropStore (myPos : Z)         (* before [mine.store] *)
| DropExchange                  (* before [_eitherSideDropped.exchange] *)
| DropDone (deleted : bool).    (* returned; [deleted]: it ran [delete this] *)

Record drop_system : Type := DropSystem {
  drop_state : dropped_arc T;
  producer_pc : drop_pc;
  consumer_pc : drop_pc
}.

Definition drop_init (a : arc T) : drop_system :=
  {| drop_state := Alive a; producer_pc := DropLoad; consumer_pc := DropLoad |}.

Definition pc_of (s : side) (st : drop_system) : drop_pc :=
  match s with Producer => producer_pc st | Consumer => consumer_pc st end.

Definition set_pc (s : side) (st : dropped_arc T) (pc : drop_pc)
  (old : drop_system) : drop_system :=
  match s with
  | Producer => {| drop_state := st; producer_pc := pc;
                   consumer_pc := consumer_pc old |}
  | Consumer => {| drop_state := st; producer_pc := producer_pc old;
                   consumer_pc := pc |}
  end.

(** One atomic access of the call of side [s]; [None] when the call has
    already returned or would touch a deleted state. *)
Definition drop_step (s : side) (st : drop_system) : option drop_system :=
  match drop_state st with
  | Deleted _ _ => None
  | Alive a =>
      match pc_of s st with
      | DropLoad => Some (set_pc s (Alive a) (DropStore (load s a)) st)
      | DropStore myPos =>
          Some (set_pc s (Alive (drop_store s myPos a)) DropExchange st)
      | DropExchange =>
          let '(a2, second) := drop_exchange a in
          if second
          then let '(d, ranges) := arc_destructor a2 in
               Some (set_pc s (Deleted ranges d) (DropDone true) st)
          else Some (set_pc s (Alive a2) (DropDone false) st)
      | DropDone _ => None
      end
  end.

Fixpoint run_drops (schedule : list side) (st : drop_system)
  : option drop_system :=
  match schedule with
  | [] => Some st
  | s :: rest =>
      match drop_step s st with
      | None => None
      | Some st' => run_drops rest st'
      end
  end.

Definition side_eqb (x y : side) : bool :=
  match x, y with
  | Producer, Producer | Consumer, Consumer => true
  | _, _ => false
  end.

(** The number of accesses of side [s] in a schedule. *)
Fixpoint accesses (s : side) (schedule : list side) : nat :=
  match schedule with
  | [] => O
  | x :: rest => ((if side_eqb x s then 1 else 0) + accesses s rest)%nat
  end.

(** A schedule of one call per side: three accesses each, in any order. *)
Definition interleaving (schedule : list side) : Prop :=
  accesses Producer schedule = 3%nat /\ accesses Consumer schedule = 3%nat.

End system.

Unset Implicit Arguments.

(** ** The fields of a position word, arithmetically *)

Definition value (w : Z) : Z := w mod 2 ^ 30.
Definition revolution (w : Z) : bool := Z.testbit w 30.
Definition dropped (w : Z) : bool := Z.testbit w 31.

Definition pack (v : Z) (r d : bool) : Z :=
  v + (if r then 2 ^ 30 else 0) + (if d then 2 ^ 31 else 0).

(** The offset of a position counted over two revolutions of the ring. *)
Definition lap_index (capacity w : Z) : Z :=
  value w + (if revolution w then capacity else 0).

(** The logical distance from the consumer position [c] to the producer
    position [p]. *)
Definition distance (capacity c p : Z) : Z :=
  (lap_index capacity p - lap_index capacity c) mod (2 * capacity).

(** The slot that lies [i] places after slot [first] on the ring. *)
Definition ring_slot (capacity first i : Z) : Z :=
  if first + i <? capacity then first + i else first + i - capacity.

(** The end of the range granted to a caller at [myPos] whose peer is at
    [theirPos]: the peer's offset, or the end of the buffer when the peer is
    not ahead, and never more than [slots] past the begin. *)
Definition range_end (capacity myPos theirPos slots : Z) : Z :=
  Z.min (if value theirPos <=? value myPos then capacity else value theirPos)
        (value myPos + slots).

(** The position committed on release of a range that ends at [e]. *)
Definition next_position (capacity myPos e : Z) : Z :=
  if e =? capacity
  then pack 0 (negb (revolution myPos)) false
  else pack e (revolution myPos) false.

(** The other side. *)
Definition peer (s : side) : side :=
  match s with Producer => Consumer | Consumer => Producer end.

(** The ranges of slots that hold an object when the consumer is at [c] and
    the producer at [p]. *)
Definition live_ranges (capacity c p : Z) : list (Z * Z) :=
  if value c <? value p then [(value c, value p)]
  else if xorb (revolution c) (revolution p)
       then [(0, value p); (value c, capacity)]
       else [].

(** The role of a caller of [acquire], as its [waitMask] encodes it. *)
Definition waitMask_of (s : side) : Z :=
  match s with Producer => revolution_flag | Consumer => 0 end.

(** ** The invariant of the two threads *)

Section invariant.
Variable T : Type.
Variable capacity : Z.

(** Both offsets lie in the buffer and the producer is ahead of the consumer
    by at most one revolution. *)
Definition positions_ok (c p : Z) : Prop :=
  is_size_type c /\ is_size_type p /\
  0 <= value c < capacity /\ 0 <= value p < capacity /\
  (if Bool.eqb (revolution c) (revolution p)
   then value c <= value p else value p <= value c).

(** The slots from [first] on hold the elements of [pending] in order, and
    no other slot holds an object. *)
Definition holds_pending (data : gmap Z T) (first : Z) (pending : list T)
  : Prop :=
  (forall i, 0 <= i < capacity ->
             data !! ring_slot capacity first i = pending !! Z.to_nat i) /\
  (forall k, ~ 0 <= k < capacity -> data !! k = None).

(** An acquisition held by the side whose word is [mine], with [room] slots
    available to that side. *)
Definition hold_ok (mine room : Z) (h : option acquisition) : Prop :=
  match h with
  | None => True
  | Some acq =>
      dropped mine = false /\
      begin acq = value mine /\ begin acq < end_ acq <= capacity /\
      end_ acq - begin acq <= room /\
      next acq = next_position capacity mine (end_ acq)
  end.

Definition system_ok (s : system T) : Prop :=
  exists pending,
    sent s = received s ++ pending /\
    match shared s with
    | Deleted _ _ => producer_gone s = true /\ consumer_gone s = true
    | Alive a =>
        let c := _consumer a in
        let p := _producer a in
        _capacity a = capacity /\
        positions_ok c p /\
        Z.of_nat (length pending) = distance capacity c p /\
        holds_pending (_data a) (value c) pending /\
        size (_data a) = length pending /\
        hold_ok p (capacity - distance capacity c p) (producer_holds s) /\
        hold_ok c (distance capacity c p) (consumer_holds s) /\
        _eitherSideDropped a = (producer_gone s || consumer_gone s) /\
        (producer_gone s = true -> dropped p = true) /\
        (consumer_gone s = true -> dropped c = true) /\
        producer_gone s && consumer_gone s = false
    end.

End invariant.

Arguments holds_pending {T} capacity data first pending.
Arguments system_ok {T} capacity s.

(** ** Batch transfers, round by round *)

(** The number of slots of the acquisitions in a log. *)
Definition transferred (log : list acquisition) : Z :=
  fold_right (fun acq n => end_ acq - begin acq + n) 0 log.

(** The position a side is at after releasing the acquisitions of a log. *)
Definition released (log : list acquisition) (mine : Z) : Z :=
  fold_left (fun _ acq => next acq) log mine.

Section rounds.
Variable T : Type.

(** The storage after the rounds of a log have each been filled with the
    next elements of [src]. *)
Fixpoint rounds_written (log : list acquisition) (src : list T)
  (d : gmap Z T) : gmap Z T :=
  match log with
  | [] => d
  | acq :: log' =>
      let n := Z.to_nat (end_ acq - begin acq) in
      rounds_written log' (drop n src)
        (snd (uninitialized_move_n src n (begin acq) d))
  end.

End rounds.

Arguments rounds_written {T} log src d.

(** ** The calls of the two handles against a concurrent peer

    A call of [emplace], [move_n], [pop] or [pop_n], access by access, on
    the state the two threads share.  Before each access of the caller the
    peer may take any number of steps of its own.  [loads] lists what the
    caller's loads of the peer's word returned, in order; the result is
    [Parked] when the caller is still waiting at the end of the
    observation, and [Undefined] when it touched a deleted state or read a
    slot that holds no object.

    [sender.emplace], [sender.move_n], [receiver.pop] and [receiver.pop_n]
    above are the same calls on a state that only the caller changes: they
    see the peer through the loads alone, so a call of the consumer does
    not see what the producer writes to the storage while it runs. *)

Section calls.
Context {T : Type}.

(** The range a side holds, what it has passed through the channel, and
    whether it has made the exchange of its [drop]. *)
Definition holds (sd : side) (s : system T) : option acquisition :=
  match sd with
  | Producer => producer_holds s
  | Consumer => consumer_holds s
  end.

Definition passed (sd : side) (s : system T) : list T :=
  match sd with Producer => sent s | Consumer => received s end.

Definition gone (sd : side) (s : system T) : bool :=
  match sd with Producer => producer_gone s | Consumer => consumer_gone s end.

(** A step of the peer of [sd]: a step that leaves alone what only [sd]
    writes. *)
Definition peer_step (sd : side) (s s' : system T) : Prop :=
  step s s' /\
  holds sd s' = holds sd s /\ passed sd s' = passed sd s /\
  gone sd s' = gone sd s /\
  (forall a a', shared s = Alive a -> shared s' = Alive a' ->
                load sd a' = load sd a).

Definition interference (sd : side) : system T -> system T -> Prop :=
  rtc (peer_step sd).

Definition acquire_of (sd : side) (a : arc T) (theirs : list Z) (slots : Z)
  : option (acquisition * list Z) :=
  match sd with
  | Producer => producer_acquire a theirs slots
  | Consumer => consumer_acquire a theirs slots
  end.

(** The state once [sd] holds the range [acq]. *)
Definition acquired (sd : side) (acq : acquisition) (s : system T)
  : system T :=
  match sd with
  | Producer =>
      {| shared := shared s;
         producer_holds := Some acq; consumer_holds := consumer_holds s;
         sent := sent s; received := received s;
         producer_gone := producer_gone s;
         consumer_gone := consumer_gone s |}
  | Consumer =>
      {| shared := shared s;
         producer_holds := producer_holds s; consumer_holds := Some acq;
         sent := sent s; received := received s;
         producer_gone := producer_gone s;
         consumer_gone := consumer_gone s |}
  end.

(** [acquire(mine, theirs, waitMask, slots)] called by side [sd]: every load
    reads the peer's word in the state of that moment. *)
Inductive acquire_run (sd : side) (slots : Z)
  : system T -> list Z -> system T -> outcome acquisition -> Prop :=
| acquire_run_parked s :
    acquire_run sd slots s [] s Parked
| acquire_run_freed s s1 ranges storage :
    interference sd s s1 ->
    shared s1 = Deleted ranges storage ->
    acquire_run sd slots s [] s1 Undefined
| acquire_run_wait s s1 a loads s2 r :
    interference sd s s1 ->
    shared s1 = Alive a ->
    acquire_of sd a [load (peer sd) a] slots = None ->
    acquire_run sd slots s1 loads s2 r ->
    acquire_run sd slots s (load (peer sd) a :: loads) s2 r
| acquire_run_exit s s1 a acq :
    interference sd s s1 ->
    shared s1 = Alive a ->
    acquire_of sd a [load (peer sd) a] slots = Some (acq, []) ->
    acquire_run sd slots s [load (peer sd) a]
      (if to_bool acq then acquired sd acq s1 else s1) (Returned acq).

(** The state after the producer has filled its range with [vs], leaving
    the storage [d], and released it. *)
Definition producer_released (s : system T) (a : arc T) (acq : acquisition)
  (d : gmap Z T) (vs : list T) : system T :=
  {| shared := Alive (producer_release (with_data a d) acq);
     producer_holds := None; consumer_holds := consumer_holds s;
     sent := sent s ++ vs; received := received s;
     producer_gone := producer_gone s;
     consumer_gone := consumer_gone s |}.

(** The state after the consumer has moved [vs] out of its range, leaving
    the storage [d], and released it. *)
Definition consumer_released (s : system T) (a : arc T) (acq : acquisition)
  (d : gmap Z T) (vs : list T) : system T :=
  {| shared := Alive (consumer_release (with_data a d) acq);
     producer_holds := producer_holds s; consumer_holds := None;
     sent := sent s; received := received s ++ vs;
     producer_gone := producer_gone s;
     consumer_gone := consumer_gone s |}.


(** The loop of [sender::move_n]. *)
Inductive move_n_loop_run
  : system T -> list T -> Z -> list Z -> system T
    -> outcome (list T * bool) -> Prop :=
| move_n_run_done s in_ :
    move_n_loop_run s in_ 0 [] s (Returned (in_, true))
| move_n_run_parked s in_ count loads s1 :
    count <> 0 ->
    acquire_run Producer (wrap32 count) s loads s1 Parked ->
    move_n_loop_run s in_ count loads s1 Parked
| move_n_run_freed s in_ count loads s1 :
    count <> 0 ->
    acquire_run Producer (wrap32 count) s loads s1 Undefined ->
    move_n_loop_run s in_ count loads s1 Undefined
| move_n_run_closed s in_ count loads s1 acq :
    count <> 0 ->
    acquire_run Producer (wrap32 count) s loads s1 (Returned acq) ->
    to_bool acq = false ->
    move_n_loop_run s in_ count loads s1 (Returned (in_, false))
| move_n_run_round s in_ count loads s1 acq s2 a loads' s3 r :
    count <> 0 ->
    acquire_run Producer (wrap32 count) s loads s1 (Returned acq) ->
    to_bool acq = true ->
    interference Producer s1 s2 ->
    shared s2 = Alive a ->
    let got := wrap32 (end_ acq - begin acq) in
    let moved :=
      uninitialized_move_n in_ (Z.to_nat got) (begin acq) (_data a) in
    move_n_loop_run
      (producer_released s2 a acq (snd moved) (take (Z.to_nat got) in_))
      (fst moved) (wrap_size_t (count - got)) loads' s3 r ->
    move_n_loop_run s in_ count (loads ++ loads') s3 r
| move_n_run_round_freed s in_ count loads s1 acq s2 ranges storage :
    count <> 0 ->
    acquire_run Producer (wrap32 count) s loads s1 (Returned acq) ->
    to_bool acq = true ->
    interference Producer s1 s2 ->
    shared s2 = Deleted ranges storage ->
    move_n_loop_run s in_ count loads s2 Undefined.

(** [sender::move_n(in, count)]. *)
Definition move_n_run (s : system T) (in_ : list T) (count : Z)
  (loads : list Z) (s' : system T) (r : outcome (list T * bool)) : Prop :=
  match validate_size count with
  | Some e => loads = [] /\ s' = s /\ r = Threw e
  | None => move_n_loop_run s in_ count loads s' r
  end.


(** The loop of [receiver::pop_n]; [out] is what has been written to the
    output. *)
Inductive pop_n_loop_run
  : system T -> list T -> Z -> list Z -> system T
    -> outcome (list T * bool) -> Prop :=
| pop_n_run_done s out :
    pop_n_loop_run s out 0 [] s (Returned (out, true))
| pop_n_run_parked s out count loads s1 :
    count <> 0 ->
    acquire_run Consumer (wrap32 count) s loads s1 Parked ->
    pop_n_loop_run s out count loads s1 Parked
| pop_n_run_freed s out count loads s1 :
    count <> 0 ->
    acquire_run Consumer (wrap32 count) s loads s1 Undefined ->
    pop_n_loop_run s out count loads s1 Undefined
| pop_n_run_closed s out count loads s1 acq :
    count <> 0 ->
    acquire_run Consumer (wrap32 count) s loads s1 (Returned acq) ->
    to_bool acq = false ->
    pop_n_loop_run s out count loads s1 (Returned (out, false))
| pop_n_run_round s out count loads s1 acq s2 a xs loads' s3 r :
    count <> 0 ->
    acquire_run Consumer (wrap32 count) s loads s1 (Returned acq) ->
    to_bool acq = true ->
    interference Consumer s1 s2 ->
    shared s2 = Alive a ->
    let got := wrap32 (end_ acq - begin acq) in
    move_out (_data a) (begin acq) (Z.to_nat got) = Some xs ->
    pop_n_loop_run
      (consumer_released s2 a acq
         (destroy (_data a) (begin acq) (end_ acq)) xs)
      (out ++ xs) (wrap_size_t (count - got)) loads' s3 r ->
    pop_n_loop_run s out count (loads ++ loads') s3 r
| pop_n_run_raw s out count loads s1 acq s2 a :
    count <> 0 ->
    acquire_run Consumer (wrap32 count) s loads s1 (Returned acq) ->
    to_bool acq = true ->
    interference Consumer s1 s2 ->
    shared s2 = Alive a ->
    move_out (_data a) (begin acq)
      (Z.to_nat (wrap32 (end_ acq - begin acq))) = None ->
    pop_n_loop_run s out count loads s2 Undefined
| pop_n_run_round_freed s out count loads s1 acq s2 ranges storage :
    count <> 0 ->
    acquire_run Consumer (wrap32 count) s loads s1 (Returned acq) ->
    to_bool acq = true ->
    interference Consumer s1 s2 ->
    shared s2 = Deleted ranges storage ->
    pop_n_loop_run s out count loads s2 Undefined.

(** [receiver::pop_n(out, count)]. *)
Definition pop_n_run (s : system T) (out : list T) (count : Z)
  (loads : list Z) (s' : system T) (r : outcome (list T * bool)) : Prop :=
  match validate_size count with
  | Some e => loads = [] /\ s' = s /\ r = Threw e
  | None => pop_n_loop_run s out count loads s' r
  end.

End calls.

(** ** An example state

    A channel of capacity 2 after 7 and 8 were sent, which took the producer
    around the end of the buffer, and 7 was received. *)

Definition example_arc : arc nat :=
  {| _data := <[1 := 8%nat]> ∅; _capacity := 2; _eitherSideDropped := false;
     _producer := revolution_flag; _consumer := 1 |}.

Definition example_system : system nat :=
  {| shared := Alive example_arc; producer_holds := None; consumer_holds := None;
     sent := [7; 8]%nat; received := [7%nat];
     producer_gone := false; consumer_gone := false |}.

(** The same state with a range held on each side: the producer holds the
    free slot and the consumer the slot of the pending element. *)
Definition example_busy : system nat :=
  {| shared := Alive example_arc;
     producer_holds :=
       Some {| begin := 0; end_ := 1; next := Z.lor 1 revolution_flag |};
     consumer_holds :=
       Some {| begin := 1; end_ := 2; next := revolution_flag |};
     sent := [7; 8]%nat; received := [7%nat];
     producer_gone := false; consumer_gone := false |}.

(** The state after the producer of a fresh channel of capacity 2 has
    dropped. *)
Definition example_closed_arc : arc nat :=
  {| _data := ∅; _capacity := 2; _eitherSideDropped := true;
     _producer := drop_flag; _consumer := 0 |}.

Definition example_closed : system nat :=
  {| shared := Alive example_closed_arc; producer_holds := None;
     consumer_holds := None; sent := []; received := [];
     producer_gone := true; consumer_gone := false |}.

(** * Properties *)

(** ** Bit operations on position words *)

Lemma position_mask_eq : position_mask = 2 ^ 30 - 1.
Proof. reflexivity. Qed.

Lemma revolution_flag_eq : revolution_flag = 2 ^ 30.
Proof. reflexivity. Qed.

Lemma drop_flag_eq : drop_flag = 2 ^ 31.
Proof. reflexivity. Qed.

Lemma size_type_max_eq : size_type_max = 2 ^ 32 - 1.
Proof. reflexivity. Qed.

Lemma wrap32_small z : 0 <= z < 2 ^ 32 -> wrap32 z = z.
Proof.
  intros Hz. unfold wrap32. apply Z.mod_small.
  change (2 ^ size_type_digits) with (2 ^ 32). lia.
Qed.

Lemma wrap_size_t_small z : 0 <= z < 2 ^ 64 -> wrap_size_t z = z.
Proof.
  intros Hz. unfold wrap_size_t. apply Z.mod_small.
  change (2 ^ size_t_digits) with (2 ^ 64). lia.
Qed.

Lemma land_pow2 w k :
  0 <= k -> Z.land w (2 ^ k) = if Z.testbit w k then 2 ^ k else 0.
Proof.
  intros Hk. apply Z.bits_inj'. intros n Hn.
  rewrite Z.land_spec, Z.pow2_bits_eqb by assumption.
  destruct (Z.eqb_spec k n) as [->|Hne].
  - destruct (Z.testbit w n) eqn:E; simpl.
    + now rewrite Z.pow2_bits_true.
    + now rewrite Z.bits_0.
  - rewrite andb_false_r.
    destruct (Z.testbit w k).
    + now rewrite Z.pow2_bits_false.
    + now rewrite Z.bits_0.
Qed.

Lemma lxor_pow2 w k :
  0 <= k ->
  Z.lxor w (2 ^ k) = if Z.testbit w k then w - 2 ^ k else w + 2 ^ k.
Proof.
  intros Hk. destruct (Z.testbit w k) eqn:E.
  - assert (Hbit : Z.testbit (Z.lxor w (2 ^ k)) k = false).
    { rewrite Z.lxor_spec, E, Z.pow2_bits_true by assumption. reflexivity. }
    pose proof (land_pow2 (Z.lxor w (2 ^ k)) k Hk) as Hl.
    rewrite Hbit in Hl.
    apply Z.add_nocarry_lxor in Hl.
    rewrite Z.lxor_assoc, Z.lxor_nilpotent, Z.lxor_0_r in Hl. lia.
  - pose proof (land_pow2 w k Hk) as Hl. rewrite E in Hl.
    apply Z.add_nocarry_lxor in Hl. lia.
Qed.

Lemma lor_pow2 w k :
  0 <= k -> Z.lor w (2 ^ k) = if Z.testbit w k then w else w + 2 ^ k.
Proof.
  intros Hk. pose proof (Z.add_lor_land w (2 ^ k)) as H.
  rewrite (land_pow2 w k Hk) in H. destruct (Z.testbit w k); lia.
Qed.

Lemma land_position_mask w : Z.land w position_mask = value w.
Proof.
  unfold value. change position_mask with (Z.ones 30).
  apply Z.land_ones. lia.
Qed.

(** A 32-bit word is its three fields packed. *)
Lemma word_fields w :
  is_size_type w ->
  w = pack (value w) (revolution w) (dropped w) /\ 0 <= value w < 2 ^ 30.
Proof.
  unfold is_size_type, pack, value, revolution, dropped.
  rewrite size_type_max_eq. intros Hw.
  pose proof (Z.testbit_spec' w 30 ltac:(lia)) as H30.
  pose proof (Z.testbit_spec' w 31 ltac:(lia)) as H31.
  destruct (Z.testbit w 30), (Z.testbit w 31); simpl in H30, H31;
    split; Z.div_mod_to_equations; lia.
Qed.

Lemma pack_fields v r d :
  0 <= v < 2 ^ 30 ->
  is_size_type (pack v r d) /\
  value (pack v r d) = v /\ revolution (pack v r d) = r /\
  dropped (pack v r d) = d.
Proof.
  intros Hv. unfold is_size_type, value, revolution, dropped.
  rewrite size_type_max_eq.
  pose proof (Z.testbit_spec' (pack v r d) 30 ltac:(lia)) as H30.
  pose proof (Z.testbit_spec' (pack v r d) 31 ltac:(lia)) as H31.
  unfold pack in *.
  destruct (Z.testbit _ 30), (Z.testbit _ 31), r, d; simpl in H30, H31;
    repeat split; try reflexivity; Z.div_mod_to_equations; lia.
Qed.

Lemma land_revolution_flag w :
  Z.land w revolution_flag = if revolution w then 2 ^ 30 else 0.
Proof. rewrite revolution_flag_eq. apply land_pow2. lia. Qed.

Lemma land_drop_flag w :
  Z.land w drop_flag = if dropped w then 2 ^ 31 else 0.
Proof. rewrite drop_flag_eq. apply land_pow2. lia. Qed.

Lemma alive_not_dropped w : Z.land w drop_flag = 0 <-> dropped w = false.
Proof. rewrite land_drop_flag. destruct (dropped w); split; intros; lia || congruence. Qed.

Lemma testbit_small e k : 0 <= e < 2 ^ k -> Z.testbit e k = false.
Proof.
  intros He. destruct (Z.eq_dec e 0) as [->|Hne].
  - apply Z.bits_0.
  - apply Z.bits_above_log2; [lia|]. apply Z.log2_lt_pow2; lia.
Qed.

Lemma lxor_swap a b m : Z.lxor a b = m <-> b = Z.lxor a m.
Proof.
  split; intros H.
  - rewrite <- H, <- Z.lxor_assoc, Z.lxor_nilpotent, Z.lxor_0_l. reflexivity.
  - rewrite H, <- Z.lxor_assoc, Z.lxor_nilpotent, Z.lxor_0_l. reflexivity.
Qed.

(** Destructs the three fields of the words [a] and [b] for [lia]. *)
Ltac word_cases a Ha :=
  let H := fresh "Hw" in
  let Hv := fresh "Hv" in
  destruct (word_fields a Ha) as [H Hv];
  unfold pack in H;
  destruct (revolution a) eqn:?, (dropped a) eqn:?.

(** The producer waits exactly when the two words differ in the revolution
    flag alone. *)
Lemma lxor_revolution_flag a b :
  is_size_type a -> is_size_type b ->
  Z.lxor a b = revolution_flag <->
  value a = value b /\ revolution a = negb (revolution b) /\
  dropped a = dropped b.
Proof.
  intros Ha Hb. rewrite lxor_swap, revolution_flag_eq, lxor_pow2 by lia.
  fold (revolution a).
  word_cases a Ha; word_cases b Hb; simpl; split;
    try (intros (? & ? & ?); discriminate); intros; lia.
Qed.

Lemma lxor_drop_flag a b :
  is_size_type a -> is_size_type b ->
  Z.lxor a b = drop_flag <->
  value a = value b /\ revolution a = revolution b /\
  dropped a = negb (dropped b).
Proof.
  intros Ha Hb. rewrite lxor_swap, drop_flag_eq, lxor_pow2 by lia.
  fold (dropped a).
  word_cases a Ha; word_cases b Hb; simpl; split;
    try (intros (? & ? & ?); discriminate); intros; lia.
Qed.

Lemma lxor_zero a b :
  is_size_type a -> is_size_type b ->
  Z.lxor a b = 0 <->
  value a = value b /\ revolution a = revolution b /\ dropped a = dropped b.
Proof.
  intros Ha Hb. rewrite Z.lxor_eq_0_iff.
  split; [intros ->; auto|].
  word_cases a Ha; word_cases b Hb; intros (? & ? & ?);
    try discriminate; lia.
Qed.

Lemma different_revolution a b :
  negb (Z.land (Z.lxor a b) revolution_flag =? 0)
  = xorb (revolution a) (revolution b).
Proof.
  rewrite land_revolution_flag. unfold revolution.
  rewrite Z.lxor_spec.
  destruct (xorb (Z.testbit a 30) (Z.testbit b 30)); reflexivity.
Qed.

(** Setting the drop flag keeps the other two fields. *)
Lemma lor_drop_flag w :
  is_size_type w ->
  is_size_type (Z.lor w drop_flag) /\
  value (Z.lor w drop_flag) = value w /\
  revolution (Z.lor w drop_flag) = revolution w /\
  dropped (Z.lor w drop_flag) = true.
Proof.
  intros Hw. rewrite drop_flag_eq, lor_pow2 by lia. fold (dropped w).
  destruct (word_fields w Hw) as [Hp Hv].
  assert (Heq : (if dropped w then w else w + 2 ^ 31)
                     = pack (value w) (revolution w) true).
  { unfold pack in *. destruct (revolution w), (dropped w); lia. }
  rewrite Heq. apply pack_fields. assumption.
Qed.

(** ** The wait loop *)

Lemma acquire_wait_exit myPos waitMask theirs theirPos rest :
  acquire_wait myPos waitMask theirs = Some (theirPos, rest) <->
  exists waited,
    theirs = waited ++ theirPos :: rest /\
    Forall (fun t => Z.lxor myPos t = waitMask) waited /\
    Z.lxor myPos theirPos <> waitMask.
Proof.
  induction theirs as [|t theirs IH]; simpl.
  - split; [discriminate|]. intros (w & Hw & _). now destruct w.
  - destruct (Z.eqb_spec (Z.lxor myPos t) waitMask) as [He|Hne]; simpl.
    + rewrite IH. split.
      * intros (w & -> & Hall & Hx). exists (t :: w). repeat split; auto.
      * intros (w & Hw & Hall & Hx). destruct w as [|t' w]; simpl in Hw.
        -- injection Hw as -> ->. contradiction.
        -- injection Hw as -> ->. exists w. repeat split; auto.
           now inversion Hall.
    + split.
      * intros [= -> ->]. exists []. repeat split; auto.
      * intros (w & Hw & Hall & Hx). destruct w as [|t' w]; simpl in Hw.
        -- now injection Hw as -> ->.
        -- injection Hw as -> ->. inversion Hall; contradiction.
Qed.

Lemma acquire_wait_shorter myPos waitMask theirs theirPos rest :
  acquire_wait myPos waitMask theirs = Some (theirPos, rest) ->
  (length rest < length theirs)%nat.
Proof.
  rewrite acquire_wait_exit. intros (w & -> & _).
  rewrite length_app. simpl. lia.
Qed.

(** ** The disconnect test and the range, field by field *)

Lemma peer_dropped_fields myPos theirPos waitMask :
  is_size_type myPos -> is_size_type theirPos ->
  peer_dropped myPos theirPos waitMask = true <->
  dropped theirPos = true /\
  (waitMask <> 0 \/
   (value myPos = value theirPos /\ revolution myPos = revolution theirPos /\
    dropped myPos = false)).
Proof.
  intros Hm Ht. unfold peer_dropped.
  rewrite andb_true_iff, orb_true_iff, !negb_true_iff, !Z.eqb_neq, Z.eqb_eq.
  rewrite land_drop_flag, lxor_drop_flag by assumption.
  destruct (dropped theirPos); simpl.
  - split.
    + intros [_ [H|(? & ? & ?)]]; split; auto.
    + intros [_ [H|(? & ? & ?)]]; split; auto; lia.
  - split; [intros [H _]; lia | intros [H _]; discriminate].
Qed.

Section acquire_range.
Variables capacity myPos theirPos waitMask slots : Z.
Hypothesis Hmine : is_size_type myPos.
Hypothesis Htheirs : is_size_type theirPos.
Hypothesis Hcapacity : 0 < capacity <= 2 ^ 30.
Hypothesis Hslots : 0 <= slots <= position_mask.
Hypothesis Hopen : peer_dropped myPos theirPos waitMask = false.

Lemma acquire_range_fields :
  acquire_range capacity myPos theirPos waitMask slots
  = {| begin := value myPos;
       end_ := range_end capacity myPos theirPos slots;
       next := next_position capacity myPos
                 (range_end capacity myPos theirPos slots) |}.
Proof using Hmine Htheirs Hcapacity Hslots Hopen.
  unfold acquire_range. rewrite Hopen.
  rewrite !land_position_mask, land_revolution_flag.
  destruct (word_fields myPos Hmine) as [_ Hvm].
  destruct (word_fields theirPos Htheirs) as [_ Hvt].
  rewrite position_mask_eq in Hslots.
  rewrite wrap32_small by lia.
  set (e := range_end capacity myPos theirPos slots).
  assert (Hend : Z.min (if value theirPos >? value myPos
                        then value theirPos else capacity)
                       (value myPos + slots) = e).
  { subst e. unfold range_end.
    destruct (Z.gtb_spec (value theirPos) (value myPos)),
             (Z.leb_spec (value theirPos) (value myPos)); lia. }
  rewrite Hend. f_equal.
  unfold next_position.
  assert (Hrange : 0 <= e <= 2 ^ 30 /\ (e = 2 ^ 30 -> e = capacity)).
  { subst e. unfold range_end.
    destruct (Z.leb_spec (value theirPos) (value myPos)); lia. }
  destruct (Z.eqb_spec e capacity) as [He|Hne]; simpl.
  - rewrite revolution_flag_eq. unfold pack.
    destruct (revolution myPos); reflexivity.
  - unfold pack. destruct (revolution myPos).
    + rewrite lor_pow2, testbit_small by lia. lia.
    + rewrite Z.lor_0_r. lia.
Qed.

End acquire_range.

(** Closes goals on concrete numbers. *)
Ltac concrete :=
  first
    [ reflexivity
    | vm_compute; repeat split; first [reflexivity | discriminate | intro; discriminate] ].

(** C1.  An [acquire] call that leaves the wait loop on the peer position
    [theirPos] and does not take the disconnect exit returns the range that
    begins at the caller's value field and ends at the peer's value field,
    or at [capacity] when the peer's value is not above the begin; the end is
    then cut to [begin + slots]; the next position is the end with the
    caller's revolution flag when the end is not [capacity], and offset 0
    with the flag flipped when it is.  The capacity is one a position can
    hold (at most [2^30]) and [slots] has passed [validate_size]. *)
Theorem acquire_returns_clamped_range
  (capacity mine : Z) (theirs : list Z) (waitMask slots theirPos : Z)
  (rest : list Z) :
  is_size_type mine -> is_size_type theirPos ->
  0 < capacity <= 2 ^ 30 ->
  0 <= slots <= position_mask ->
  acquire_wait mine waitMask theirs = Some (theirPos, rest) ->
  peer_dropped mine theirPos waitMask = false ->
  exists acq,
    acquire capacity mine theirs waitMask slots = Some (acq, rest) /\
    begin acq = value mine /\
    end_ acq =
      Z.min (if value theirPos <=? begin acq then capacity else value theirPos)
            (begin acq + slots) /\
    (end_ acq <> capacity ->
     value (next acq) = end_ acq /\
     revolution (next acq) = revolution mine /\ dropped (next acq) = false) /\
    (end_ acq = capacity ->
     value (next acq) = 0 /\
     revolution (next acq) = negb (revolution mine) /\
     dropped (next acq) = false).
Proof.
  intros Hm Ht Hc Hs Hwait Hopen.
  unfold acquire. rewrite Hwait.
  rewrite (acquire_range_fields capacity mine theirPos waitMask slots)
    by assumption.
  eexists. split; [reflexivity|]. simpl.
  split; [reflexivity|]. split; [reflexivity|].
  fold (range_end capacity mine theirPos slots).
  assert (Hrange : 0 <= range_end capacity mine theirPos slots <= 2 ^ 30 /\
                   (range_end capacity mine theirPos slots = 2 ^ 30 ->
                    range_end capacity mine theirPos slots = capacity)).
  { destruct (word_fields mine Hm) as [_ Hvm].
    destruct (word_fields theirPos Ht) as [_ Hvt].
    unfold range_end.
    destruct (Z.leb_spec (value theirPos) (value mine)); lia. }
  unfold next_position.
  destruct (Z.eqb_spec (range_end capacity mine theirPos slots) capacity)
    as [He|Hne]; (split; [intros H|intros H]); try contradiction.
  - apply (pack_fields 0 (negb (revolution mine)) false). lia.
  - apply pack_fields. lia.
Qed.

Lemma acquire_returns_clamped_range_witness :
  exists acq,
    acquire 4 3 [pack 3 true false; 1] revolution_flag 4 = Some (acq, []) /\
    begin acq = value 3 /\
    end_ acq = Z.min (if value 1 <=? begin acq then 4 else value 1)
                     (begin acq + 4) /\
    (end_ acq <> 4 ->
     value (next acq) = end_ acq /\
     revolution (next acq) = revolution 3 /\ dropped (next acq) = false) /\
    (end_ acq = 4 ->
     value (next acq) = 0 /\
     revolution (next acq) = negb (revolution 3) /\
     dropped (next acq) = false).
Proof.
  apply (acquire_returns_clamped_range 4 3 [pack 3 true false; 1]
           revolution_flag 4 1 []); concrete.
Defined.

(** A range is never empty when at least one slot is asked for. *)
Lemma acquire_range_open_nonempty capacity mine theirPos waitMask slots :
  is_size_type mine -> is_size_type theirPos ->
  0 < capacity ->
  1 <= slots <= position_mask ->
  peer_dropped mine theirPos waitMask = false ->
  to_bool (acquire_range capacity mine theirPos waitMask slots) = true.
Proof.
  intros Hm Ht Hc Hs Hd. unfold acquire_range. rewrite Hd.
  unfold to_bool. cbn [end_]. rewrite !land_position_mask.
  destruct (word_fields mine Hm) as [_ Hvm].
  destruct (word_fields theirPos Ht) as [_ Hvt].
  rewrite position_mask_eq in Hs.
  unfold wrap32. rewrite Z.mod_small
    by (change (2 ^ size_type_digits) with (2 ^ 32); lia).
  apply negb_true_iff, Z.eqb_neq.
  destruct (Z.gtb_spec (value theirPos) (value mine)); lia.
Qed.

Lemma acquire_range_closed capacity mine theirPos waitMask slots :
  peer_dropped mine theirPos waitMask = true ->
  acquire_range capacity mine theirPos waitMask slots = empty_acquisition.
Proof. intros Hd. unfold acquire_range. now rewrite Hd. Qed.

Lemma waitMask_producer s : waitMask_of s <> 0 <-> s = Producer.
Proof.
  destruct s; simpl; split; intros H;
    try discriminate; try reflexivity; try contradiction.
Qed.

(** C2.  An [acquire] call of the producer ([waitMask = revolution_flag]) or
    of the consumer ([waitMask = 0]) that asks for at least one slot returns
    an acquisition that converts to [false] exactly when the peer's drop
    flag is set and either the caller is the producer or the two positions
    agree in everything but the drop flag; that acquisition is the empty
    one. *)
Theorem acquire_closed_iff_peer_dropped
  (s : side) (capacity mine : Z) (theirs : list Z) (slots theirPos : Z)
  (rest : list Z) :
  is_size_type mine -> is_size_type theirPos ->
  0 < capacity ->
  1 <= slots <= position_mask ->
  acquire_wait mine (waitMask_of s) theirs = Some (theirPos, rest) ->
  exists acq,
    acquire capacity mine theirs (waitMask_of s) slots = Some (acq, rest) /\
    (to_bool acq = false <->
     dropped theirPos = true /\
     (s = Producer \/
      (value mine = value theirPos /\
       revolution mine = revolution theirPos /\ dropped mine = false))) /\
    (to_bool acq = false -> acq = empty_acquisition).
Proof.
  intros Hm Ht Hc Hs Hwait.
  unfold acquire. rewrite Hwait. eexists. split; [reflexivity|].
  pose proof (peer_dropped_fields mine theirPos (waitMask_of s) Hm Ht) as Hpd.
  rewrite waitMask_producer in Hpd. rewrite <- Hpd.
  destruct (peer_dropped mine theirPos (waitMask_of s)) eqn:Hd.
  - rewrite acquire_range_closed by assumption.
    split; [split; reflexivity | reflexivity].
  - rewrite acquire_range_open_nonempty by assumption.
    split; [split; discriminate | discriminate].
Qed.

Lemma acquire_closed_iff_peer_dropped_witness :
  exists acq,
    acquire 4 (pack 2 true false) [pack 2 true true] (waitMask_of Consumer) 1
    = Some (acq, []) /\
    (to_bool acq = false <->
     dropped (pack 2 true true) = true /\
     (Consumer = Producer \/
      (value (pack 2 true false) = value (pack 2 true true) /\
       revolution (pack 2 true false) = revolution (pack 2 true true) /\
       dropped (pack 2 true false) = false))) /\
    (to_bool acq = false -> acq = empty_acquisition).
Proof.
  apply (acquire_closed_iff_peer_dropped Consumer 4 (pack 2 true false)
           [pack 2 true true] 1 (pack 2 true true) []); concrete.
Defined.

(** The two bounds on [slots] are needed.  A request for no slot at offset 0
    is answered with the empty acquisition although the peer has not
    dropped, and a request so large that [begin + slots] leaves the 32-bit
    range is answered with an end below the begin.  No caller makes either
    request: [emplace] and [pop] ask for one slot, and the batch calls ask
    for a count that is not zero and has passed [validate_size]. *)
Lemma acquire_range_outside_slot_bounds :
  peer_dropped 0 1 0 = false /\
  acquire_range 4 0 1 0 0 = empty_acquisition /\
  peer_dropped 1 3 0 = false /\
  acquire_range 4 1 3 0 size_type_max
  = {| begin := 1; end_ := 0; next := 0 |}.
Proof. repeat split; reflexivity. Qed.

(** ** The raw storage *)

Section storage.
Context {T : Type}.
Implicit Types (d : gmap Z T) (vs : list T).

Lemma uninitialized_move_n_fst vs n dest d :
  fst (uninitialized_move_n vs n dest d) = drop n vs.
Proof.
  revert vs dest d. induction n as [|n IH]; intros [|x vs] dest d; simpl; auto.
Qed.

Lemma uninitialized_move_n_lookup vs n dest d k :
  (n <= length vs)%nat ->
  snd (uninitialized_move_n vs n dest d) !! k =
  if decide (dest <= k < dest + Z.of_nat n)
  then vs !! Z.to_nat (k - dest) else d !! k.
Proof.
  revert vs dest d. induction n as [|n IH]; intros vs dest d Hn.
  - simpl. destruct vs; simpl; case_decide; auto; lia.
  - destruct vs as [|x vs]; simpl in Hn; [lia|]. simpl.
    rewrite IH by lia.
    destruct (decide (k = dest)) as [->|Hne].
    + rewrite decide_False by lia. rewrite decide_True by lia.
      rewrite lookup_insert_eq. now replace (dest - dest) with 0 by lia.
    + rewrite lookup_insert_ne by congruence.
      repeat case_decide; try lia; auto.
      replace (Z.to_nat (k - dest)) with (S (Z.to_nat (k - (dest + 1)))) by lia.
      reflexivity.
Qed.

Lemma uninitialized_move_n_size vs n dest d :
  (n <= length vs)%nat ->
  (forall j, dest <= j < dest + Z.of_nat n -> d !! j = None) ->
  size (snd (uninitialized_move_n vs n dest d)) = (size d + n)%nat.
Proof.
  revert vs dest d. induction n as [|n IH]; intros vs dest d Hn Hfree.
  - destruct vs; simpl; lia.
  - destruct vs as [|x vs]; simpl in Hn; [lia|]. simpl.
    rewrite IH.
    + rewrite map_size_insert_None by (apply Hfree; lia). lia.
    + lia.
    + intros j Hj. rewrite lookup_insert_ne by lia. apply Hfree. lia.
Qed.

Lemma destroy_n_lookup d first n k :
  destroy_n d first n !! k =
  if decide (first <= k < first + Z.of_nat n) then None else d !! k.
Proof.
  revert d first. induction n as [|n IH]; intros d first; simpl.
  - case_decide; auto; lia.
  - rewrite IH. destruct (decide (k = first)) as [->|Hne].
    + rewrite lookup_delete_eq. repeat case_decide; auto; lia.
    + rewrite lookup_delete_ne by congruence.
      repeat case_decide; auto; lia.
Qed.

Lemma destroy_lookup d first last k :
  destroy d first last !! k =
  if decide (first <= k < last) then None else d !! k.
Proof.
  unfold destroy. rewrite destroy_n_lookup.
  repeat case_decide; auto; lia.
Qed.

Lemma destroy_n_size d first n :
  (forall j, first <= j < first + Z.of_nat n -> is_Some (d !! j)) ->
  (size (destroy_n d first n) + n)%nat = size d.
Proof.
  revert d first. induction n as [|n IH]; intros d first Hfull; simpl.
  - lia.
  - assert (Hs : is_Some (d !! first)) by (apply Hfull; lia).
    pose proof (map_size_delete_Some first d Hs) as Hdel.
    assert (size d <> 0%nat).
    { destruct Hs as [x Hx]. intros H0. apply map_size_empty_inv in H0.
      subst d. now rewrite lookup_empty in Hx. }
    assert (Hrec : (size (destroy_n (delete first d) (first + 1) n) + n)%nat
                   = size (delete first d)).
    { apply IH. intros j Hj. rewrite lookup_delete_ne by lia.
      apply Hfull. lia. }
    lia.
Qed.

Lemma move_out_lookup d first n vs :
  move_out d first n = Some vs ->
  length vs = n /\
  forall j, (j < n)%nat -> d !! (first + Z.of_nat j) = vs !! j.
Proof.
  revert first vs. induction n as [|n IH]; intros first vs; simpl.
  - intros [= <-]. split; [reflexivity|]. intros; lia.
  - destruct (d !! first) as [x|] eqn:Hx; [|discriminate].
    destruct (move_out d (first + 1) n) as [xs|] eqn:Hxs; [|discriminate].
    intros [= <-]. destruct (IH _ _ Hxs) as [Hlen Hall].
    split; [simpl; lia|]. intros [|j] Hj; simpl.
    + now rewrite Z.add_0_r.
    + rewrite <- Hall by lia. f_equal. lia.
Qed.

Lemma move_out_is_Some d first n :
  (forall j, first <= j < first + Z.of_nat n -> is_Some (d !! j)) ->
  is_Some (move_out d first n).
Proof.
  revert first. induction n as [|n IH]; intros first Hfull; simpl.
  - eauto.
  - destruct (Hfull first ltac:(lia)) as [x ->].
    destruct (IH (first + 1)) as [xs ->]; eauto.
    intros j Hj. apply Hfull. lia.
Qed.

End storage.

(** ** The distance between the positions *)

Lemma distance_cases capacity c p :
  0 < capacity -> positions_ok capacity c p ->
  distance capacity c p =
    (if Bool.eqb (revolution c) (revolution p)
     then value p - value c else value p - value c + capacity) /\
  0 <= distance capacity c p <= capacity.
Proof.
  intros Hc (_ & _ & Hvc & Hvp & Hord).
  unfold distance, lap_index.
  destruct (revolution c), (revolution p); simpl in *.
  - rewrite Z.mod_small by lia. lia.
  - assert (value p - value c + capacity
            = (value p + 0 - (value c + capacity)) mod (2 * capacity)) as <-.
    { apply Z.mod_unique_pos with (q := -1); lia. }
    lia.
  - rewrite Z.mod_small by lia. lia.
  - rewrite Z.mod_small by lia. lia.
Qed.

Section hold.
Variables capacity mine theirPos waitMask slots room : Z.
Hypothesis Hmine : is_size_type mine.
Hypothesis Htheirs : is_size_type theirPos.
Hypothesis Hcapacity : 0 < capacity <= 2 ^ 30.
Hypothesis Hslots : 1 <= slots <= position_mask.
Hypothesis Hopen : peer_dropped mine theirPos waitMask = false.
Hypothesis Halive : dropped mine = false.
Hypothesis Hbegin : value mine < capacity.
Hypothesis Hend : value theirPos < capacity.
Hypothesis Hroom :
  (if value theirPos <=? value mine then capacity else value theirPos)
  - value mine <= room.

Lemma acquire_range_hold :
  hold_ok capacity mine room
    (Some (acquire_range capacity mine theirPos waitMask slots)).
Proof using All.
  rewrite acquire_range_fields by (assumption || lia).
  destruct (word_fields mine Hmine) as [_ Hvm].
  destruct (word_fields theirPos Htheirs) as [_ Hvt].
  unfold hold_ok. cbn [begin end_ next]. unfold range_end in *.
  rewrite position_mask_eq in Hslots.
  destruct (Z.leb_spec (value theirPos) (value mine));
    repeat split; try reflexivity; try assumption; lia.
Qed.

End hold.

(** ** Preservation of the invariant *)

(** Splits the conjunctions that are written out in the goal. *)
Ltac split_ands := repeat match goal with |- _ /\ _ => split end.

Section preservation.
Context {T : Type}.
Variable capacity : Z.
Hypothesis Hcapacity : 0 < capacity <= 2 ^ 30.

Lemma system_ok_init : system_ok capacity (init T capacity).
Proof using Hcapacity.
  exists []. split; [reflexivity|]. simpl.
  assert (H0 : is_size_type 0) by (unfold is_size_type; rewrite size_type_max_eq; lia).
  assert (Hd : distance capacity 0 0 = 0).
  { unfold distance. rewrite Z.sub_diag. apply Z.mod_0_l. lia. }
  repeat split; auto; try (change (value 0) with 0; lia).
  all: try (intros i Hi; rewrite lookup_empty; reflexivity).
  all: try (rewrite size_type_max_eq; lia).
  simpl. change (value 0) with 0. lia.
Qed.

Lemma acquire_single capacity' mine theirPos waitMask slots acq :
  acquire capacity' mine [theirPos] waitMask slots = Some (acq, []) ->
  Z.lxor mine theirPos <> waitMask /\
  acq = acquire_range capacity' mine theirPos waitMask slots.
Proof using Type.
  clear Hcapacity.
  unfold acquire. simpl.
  destruct (Z.eqb_spec (Z.lxor mine theirPos) waitMask); simpl; [discriminate|].
  intros [= <-]. auto.
Qed.

Lemma to_bool_open capacity' mine theirPos waitMask slots :
  to_bool (acquire_range capacity' mine theirPos waitMask slots) = true ->
  peer_dropped mine theirPos waitMask = false.
Proof using Type.
  clear Hcapacity.
  destruct (peer_dropped mine theirPos waitMask) eqn:Hd; [|reflexivity].
  rewrite acquire_range_closed by assumption. discriminate.
Qed.

Lemma ok_producer_acquire (s : system T) (a : arc T) slots acq :
  system_ok capacity s ->
  shared s = Alive a ->
  producer_holds s = None ->
  Z.land (_producer a) drop_flag = 0 ->
  1 <= slots <= position_mask ->
  producer_acquire a [_consumer a] slots = Some (acq, []) ->
  to_bool acq = true ->
  system_ok capacity
    {| shared := shared s;
       producer_holds := Some acq; consumer_holds := consumer_holds s;
       sent := sent s; received := received s;
       producer_gone := producer_gone s;
       consumer_gone := consumer_gone s |}.
Proof using Hcapacity.
  intros (pending & Hsent & Hok) Ha Hnone Halive Hslots Hacq Hbool.
  exists pending. split; [assumption|].
  cbn [shared producer_holds consumer_holds producer_gone consumer_gone].
  rewrite Ha in *. cbv zeta in *.
  destruct Hok as (Hcap & Hpos & Hlen & Hdata & Hsize & Hp & Hc & Hflag & Hpg & Hcg & Hboth).
  split_ands; try assumption.
  apply acquire_single in Hacq as [Hxor ->].
  apply to_bool_open in Hbool.
  rewrite Hcap.
  destruct (distance_cases capacity _ _ ltac:(lia) Hpos) as [Hdist Hrange].
  destruct Hpos as (Hwc & Hwp & Hvc & Hvp & Hord).
  apply alive_not_dropped in Halive.
  rewrite lxor_revolution_flag in Hxor by assumption.
  assert (Hcd : dropped (_consumer a) = false).
  { destruct (dropped (_consumer a)) eqn:E; [|reflexivity].
    assert (peer_dropped (_producer a) (_consumer a) revolution_flag = true);
      [|congruence].
    apply peer_dropped_fields; [assumption|assumption|].
    split; [assumption|]. left. rewrite revolution_flag_eq. lia. }
  apply acquire_range_hold; try assumption; try lia.
  rewrite Hdist.
  destruct (revolution (_consumer a)), (revolution (_producer a));
    simpl in *; destruct (Z.leb_spec (value (_consumer a)) (value (_producer a)));
    try lia.
  all: exfalso; apply Hxor; repeat split; try lia; congruence.
Qed.

Lemma ok_consumer_acquire (s : system T) (a : arc T) slots acq :
  system_ok capacity s ->
  shared s = Alive a ->
  consumer_holds s = None ->
  Z.land (_consumer a) drop_flag = 0 ->
  1 <= slots <= position_mask ->
  consumer_acquire a [_producer a] slots = Some (acq, []) ->
  to_bool acq = true ->
  system_ok capacity
    {| shared := shared s;
       producer_holds := producer_holds s; consumer_holds := Some acq;
       sent := sent s; received := received s;
       producer_gone := producer_gone s;
       consumer_gone := consumer_gone s |}.
Proof using Hcapacity.
  intros (pending & Hsent & Hok) Ha Hnone Halive Hslots Hacq Hbool.
  exists pending. split; [assumption|].
  cbn [shared producer_holds consumer_holds producer_gone consumer_gone].
  rewrite Ha in *. cbv zeta in *.
  destruct Hok as (Hcap & Hpos & Hlen & Hdata & Hsize & Hp & Hc & Hflag & Hpg & Hcg & Hboth).
  split_ands; try assumption.
  apply acquire_single in Hacq as [Hxor ->].
  apply to_bool_open in Hbool.
  rewrite Hcap.
  destruct (distance_cases capacity _ _ ltac:(lia) Hpos) as [Hdist Hrange].
  destruct Hpos as (Hwc & Hwp & Hvc & Hvp & Hord).
  apply alive_not_dropped in Halive.
  rewrite lxor_zero in Hxor by assumption.
  assert (Hclosed : ~ (dropped (_producer a) = true /\
                       value (_consumer a) = value (_producer a) /\
                       revolution (_consumer a) = revolution (_producer a))).
  { intros (Hd & Hv & Hr).
    assert (peer_dropped (_consumer a) (_producer a) 0 = true); [|congruence].
    apply peer_dropped_fields; [assumption|assumption|].
    split; [assumption|]. right. auto. }
  apply acquire_range_hold; try assumption; try lia.
  rewrite Hdist.
  destruct (revolution (_consumer a)) eqn:Erc, (revolution (_producer a)) eqn:Erp;
    simpl in *; destruct (Z.leb_spec (value (_producer a)) (value (_consumer a)));
    try lia.
  all: exfalso; destruct (dropped (_producer a)) eqn:Edp;
    [apply Hclosed|apply Hxor]; repeat split; try lia; congruence.
Qed.

Lemma next_position_fields mine e :
  0 <= e <= capacity ->
  is_size_type (next_position capacity mine e) /\
  value (next_position capacity mine e) = (if e =? capacity then 0 else e) /\
  revolution (next_position capacity mine e)
  = (if e =? capacity then negb (revolution mine) else revolution mine) /\
  dropped (next_position capacity mine e) = false.
Proof using Hcapacity.
  intros He. unfold next_position.
  destruct (Z.eqb_spec e capacity); apply pack_fields; lia.
Qed.

Lemma hold_ok_mono mine room room' h :
  room <= room' -> hold_ok capacity mine room h -> hold_ok capacity mine room' h.
Proof using Type.
  clear Hcapacity.
  intros Hle. destruct h as [acq|]; simpl; [|auto].
  intros (? & ? & ? & ? & ?). repeat split; auto; lia.
Qed.

Lemma ring_slot_cases first i :
  (first + i < capacity /\ ring_slot capacity first i = first + i) \/
  (capacity <= first + i /\ ring_slot capacity first i = first + i - capacity).
Proof using Type.
  clear Hcapacity. unfold ring_slot.
  destruct (Z.ltb_spec (first + i) capacity); lia.
Qed.

Lemma holds_pending_write (data : gmap Z T) vc pending vs b :
  0 <= vc < capacity ->
  holds_pending capacity data vc pending ->
  Z.of_nat (length pending) + Z.of_nat (length vs) <= capacity ->
  b = ring_slot capacity vc (Z.of_nat (length pending)) ->
  b + Z.of_nat (length vs) <= capacity ->
  let data' := snd (uninitialized_move_n vs (length vs) b data) in
  holds_pending capacity data' vc (pending ++ vs) /\
  size data' = (size data + length vs)%nat.
Proof using Hcapacity.
  intros Hvc [Hin Hout] Hlen Hb Hcont data'. subst data'.
  pose proof (ring_slot_cases vc (Z.of_nat (length pending))) as Hcb.
  rewrite <- Hb in Hcb.
  split; [split|].
  - intros i Hi. rewrite uninitialized_move_n_lookup by lia.
    specialize (Hin i Hi).
    pose proof (ring_slot_cases vc i) as Hci.
    destruct (decide (i < Z.of_nat (length pending))) as [Hlt|Hge].
    + rewrite lookup_app_l by lia. rewrite <- Hin.
      rewrite decide_False; [reflexivity|lia].
    + rewrite lookup_app_r by lia.
      destruct (decide (i < Z.of_nat (length pending) + Z.of_nat (length vs)))
        as [Hlt|Hge'].
      * rewrite decide_True by lia. f_equal. lia.
      * rewrite decide_False by lia.
        rewrite Hin. rewrite (proj2 (lookup_ge_None pending _)) by lia.
        symmetry. apply lookup_ge_None. lia.
  - intros k Hk. rewrite uninitialized_move_n_lookup by lia.
    rewrite decide_False; [now apply Hout|lia].
  - apply uninitialized_move_n_size; [lia|].
    intros j Hj.
    pose proof (ring_slot_cases vc (Z.of_nat (length pending) + (j - b))) as Hcj.
    specialize (Hin (Z.of_nat (length pending) + (j - b)) ltac:(lia)).
    rewrite (proj2 (lookup_ge_None pending _)) in Hin by lia.
    rewrite <- Hin. f_equal. lia.
Qed.

Lemma ok_producer_release (s : system T) (a : arc T) acq vs :
  system_ok capacity s ->
  shared s = Alive a ->
  producer_holds s = Some acq ->
  length vs = Z.to_nat (wrap32 (end_ acq - begin acq)) ->
  system_ok capacity
    {| shared :=
         Alive (producer_release
                  (with_data a
                     (snd (uninitialized_move_n vs (length vs)
                             (begin acq) (_data a)))) acq);
       producer_holds := None; consumer_holds := consumer_holds s;
       sent := sent s ++ vs; received := received s;
       producer_gone := producer_gone s;
       consumer_gone := consumer_gone s |}.
Proof using Hcapacity.
  intros (pending & Hsent & Hok) Ha Hhold Hlen.
  rewrite Ha, Hhold in Hok. cbv zeta in Hok.
  destruct Hok as (Hcap & Hpos & Hpl & Hdata & Hsize & Hp & Hc & Hflag & Hpg & Hcg & Hboth).
  destruct Hp as (Halive & Hb & Hbe & Hroom & Hnext).
  destruct (distance_cases capacity _ _ ltac:(lia) Hpos) as [Hdist Hrange].
  assert (Hgot : Z.of_nat (length vs) = end_ acq - begin acq).
  { rewrite Hlen. unfold wrap32. rewrite Z.mod_small.
    - lia.
    - change (2 ^ size_type_digits) with (2 ^ 32). lia. }
  destruct (next_position_fields (_producer a) (end_ acq)
              ltac:(destruct Hpos as (_ & _ & _ & ? & _); lia))
    as (Hnw & Hnv & Hnr & Hnd).
  rewrite <- Hnext in Hnw, Hnv, Hnr, Hnd.
  exists (pending ++ vs). split.
  { cbn [sent received]. rewrite Hsent. now rewrite app_assoc. }
  cbn [shared producer_holds consumer_holds producer_gone consumer_gone
       producer_release with_producer
       with_data _capacity _producer _consumer _data _eitherSideDropped].
  cbv zeta.
  destruct Hpos as (Hwc & Hwp & Hvc & Hvp & Hord).
  assert (Hpos' : positions_ok capacity (_consumer a) (next acq)).
  { unfold positions_ok. split_ands; try assumption; try lia.
    - rewrite Hnv. destruct (Z.eqb_spec (end_ acq) capacity); lia.
    - rewrite Hnv. destruct (Z.eqb_spec (end_ acq) capacity); lia.
    - rewrite Hnv, Hnr.
      destruct (Z.eqb_spec (end_ acq) capacity);
        destruct (revolution (_consumer a)), (revolution (_producer a));
        simpl in *; lia. }
  destruct (distance_cases capacity _ _ ltac:(lia) Hpos') as [Hdist' Hrange'].
  assert (Hd' : distance capacity (_consumer a) (next acq)
                = distance capacity (_consumer a) (_producer a)
                  + Z.of_nat (length vs)).
  { rewrite Hdist', Hdist, Hnv, Hnr, Hgot.
    destruct (Z.eqb_spec (end_ acq) capacity);
      destruct (revolution (_consumer a)), (revolution (_producer a));
      simpl in *; lia. }
  destruct (holds_pending_write (_data a) (value (_consumer a)) pending vs
              (begin acq)) as [Hdata' Hsize']; try assumption; try lia.
  { pose proof (ring_slot_cases (value (_consumer a))
                  (Z.of_nat (length pending))) as Hcs.
    rewrite Hpl, Hdist in *.
    destruct (revolution (_consumer a)), (revolution (_producer a));
      simpl in *; lia. }
  split_ands; try assumption.
  - rewrite length_app, Hd'. lia.
  - rewrite Hsize', length_app. lia.
  - exact I.
  - eapply hold_ok_mono; [|exact Hc]. lia.
  - intros Hgone. apply Hpg in Hgone. congruence.
Qed.

Lemma holds_pending_read (data : gmap Z T) vc pending vs e :
  0 <= vc < capacity ->
  holds_pending capacity data vc pending ->
  Z.of_nat (length pending) <= capacity ->
  vc < e <= capacity ->
  e - vc <= Z.of_nat (length pending) ->
  move_out data vc (Z.to_nat (e - vc)) = Some vs ->
  vs = take (Z.to_nat (e - vc)) pending /\
  holds_pending capacity (destroy data vc e) (if e =? capacity then 0 else e)
    (drop (Z.to_nat (e - vc)) pending) /\
  (size (destroy data vc e) + Z.to_nat (e - vc))%nat = size data.
Proof using Hcapacity.
  intros Hvc [Hin Hout] Hlen He Hgot Hmove.
  apply move_out_lookup in Hmove as [Hlvs Hvs].
  split; [|split; [split|]].
  - apply list_eq. intros j. rewrite lookup_take.
    case_decide as Hj.
    + rewrite <- Hvs by assumption.
      pose proof (ring_slot_cases vc (Z.of_nat j)) as Hcj.
      specialize (Hin (Z.of_nat j) ltac:(lia)).
      rewrite Nat2Z.id in Hin. rewrite <- Hin. f_equal. lia.
    + apply lookup_ge_None. lia.
  - intros i Hi. rewrite destroy_lookup, lookup_drop.
    pose proof (ring_slot_cases (if e =? capacity then 0 else e) i) as Hci.
    pose proof (ring_slot_cases vc (i + (e - vc))) as Hcs.
    destruct (decide (i + (e - vc) < capacity)) as [Hlt|Hge].
    + rewrite decide_False by (destruct (Z.eqb_spec e capacity); lia).
      specialize (Hin (i + (e - vc)) ltac:(lia)).
      replace (Z.to_nat (e - vc) + Z.to_nat i)%nat
        with (Z.to_nat (i + (e - vc))) by lia.
      rewrite <- Hin. f_equal. destruct (Z.eqb_spec e capacity); lia.
    + rewrite decide_True by (destruct (Z.eqb_spec e capacity); lia).
      symmetry. apply lookup_ge_None. lia.
  - intros k Hk. rewrite destroy_lookup. case_decide; auto.
  - unfold destroy. apply destroy_n_size. intros j Hj.
    pose proof (ring_slot_cases vc (j - vc)) as Hcj.
    specialize (Hin (j - vc) ltac:(lia)).
    replace (ring_slot capacity vc (j - vc)) with j in Hin by lia.
    rewrite Hin. apply lookup_lt_is_Some. lia.
Qed.

Lemma ok_consumer_release (s : system T) (a : arc T) acq vs :
  system_ok capacity s ->
  shared s = Alive a ->
  consumer_holds s = Some acq ->
  move_out (_data a) (begin acq)
    (Z.to_nat (wrap32 (end_ acq - begin acq))) = Some vs ->
  system_ok capacity
    {| shared :=
         Alive (consumer_release
                  (with_data a (destroy (_data a) (begin acq) (end_ acq))) acq);
       producer_holds := producer_holds s; consumer_holds := None;
       sent := sent s; received := received s ++ vs;
       producer_gone := producer_gone s;
       consumer_gone := consumer_gone s |}.
Proof using Hcapacity.
  intros (pending & Hsent & Hok) Ha Hhold Hmove.
  rewrite Ha, Hhold in Hok. cbv zeta in Hok.
  destruct Hok as (Hcap & Hpos & Hpl & Hdata & Hsize & Hp & Hc & Hflag & Hpg & Hcg & Hboth).
  destruct Hc as (Halive & Hb & Hbe & Hroom & Hnext).
  destruct (distance_cases capacity _ _ ltac:(lia) Hpos) as [Hdist Hrange].
  assert (Hw : wrap32 (end_ acq - begin acq) = end_ acq - begin acq).
  { unfold wrap32. rewrite Z.mod_small; [reflexivity|].
    change (2 ^ size_type_digits) with (2 ^ 32). lia. }
  rewrite Hw in Hmove.
  destruct (next_position_fields (_consumer a) (end_ acq)
              ltac:(destruct Hpos as (_ & _ & ? & _); lia))
    as (Hnw & Hnv & Hnr & Hnd).
  rewrite <- Hnext in Hnw, Hnv, Hnr, Hnd.
  destruct Hpos as (Hwc & Hwp & Hvc & Hvp & Hord).
  rewrite Hb in Hmove.
  destruct (holds_pending_read (_data a) (value (_consumer a)) pending vs
              (end_ acq)) as (Hvs & Hdata' & Hsize'); try assumption; try lia.
  exists (drop (Z.to_nat (end_ acq - value (_consumer a))) pending). split.
  { cbn [sent received]. rewrite Hsent, Hvs, <- app_assoc.
    now rewrite take_drop. }
  cbn [shared producer_holds consumer_holds producer_gone consumer_gone
       consumer_release with_consumer
       with_data _capacity _producer _consumer _data _eitherSideDropped].
  cbv zeta.
  assert (Hpos' : positions_ok capacity (next acq) (_producer a)).
  { unfold positions_ok. split_ands; try assumption; try lia.
    - rewrite Hnv. destruct (Z.eqb_spec (end_ acq) capacity); lia.
    - rewrite Hnv. destruct (Z.eqb_spec (end_ acq) capacity); lia.
    - rewrite Hnv, Hnr. rewrite Hdist in Hroom.
      destruct (Z.eqb_spec (end_ acq) capacity);
        destruct (revolution (_consumer a)), (revolution (_producer a));
        simpl in *; lia. }
  destruct (distance_cases capacity _ _ ltac:(lia) Hpos') as [Hdist' Hrange'].
  assert (Hd' : distance capacity (next acq) (_producer a)
                = distance capacity (_consumer a) (_producer a)
                  - (end_ acq - begin acq)).
  { rewrite Hdist', Hnv, Hnr. rewrite Hdist in Hroom |- *.
    destruct (Z.eqb_spec (end_ acq) capacity);
      destruct (revolution (_consumer a)), (revolution (_producer a));
      simpl in *; lia. }
  split_ands; try assumption.
  - rewrite length_drop, Hd'. lia.
  - rewrite Hnv, Hb. exact Hdata'.
  - rewrite length_drop. rewrite Hb. lia.
  - eapply hold_ok_mono; [|exact Hp]. lia.
  - exact I.
  - intros Hgone. apply Hcg in Hgone. congruence.
Qed.

Lemma distance_same_fields c p c' p' :
  value c' = value c -> revolution c' = revolution c ->
  value p' = value p -> revolution p' = revolution p ->
  distance capacity c' p' = distance capacity c p.
Proof using Type.
  clear Hcapacity.
  intros Hvc Hrc Hvp Hrp. unfold distance, lap_index.
  now rewrite Hvc, Hrc, Hvp, Hrp.
Qed.

Lemma drop_result (s : side) (a : arc T) :
  details.drop s a =
  if _eitherSideDropped a
  then Deleted (snd (arc_destructor
                       (with_eitherSideDropped
                          (store s a (Z.lor (load s a) drop_flag)) true)))
               (fst (arc_destructor
                       (with_eitherSideDropped
                          (store s a (Z.lor (load s a) drop_flag)) true)))
  else Alive (with_eitherSideDropped
                (store s a (Z.lor (load s a) drop_flag)) true).
Proof using Type.
  clear Hcapacity.
  unfold details.drop, drop_exchange, drop_store.
  destruct s; simpl; destruct (_eitherSideDropped a); simpl;
    try reflexivity;
    match goal with |- (let '(_, _) := ?x in _) = _ => destruct x end;
    reflexivity.
Qed.

Lemma ok_producer_drop_store (s : system T) (a : arc T) :
  system_ok capacity s ->
  shared s = Alive a ->
  producer_holds s = None ->
  Z.land (_producer a) drop_flag = 0 ->
  system_ok capacity
    {| shared := Alive (drop_store Producer (load Producer a) a);
       producer_holds := None; consumer_holds := consumer_holds s;
       sent := sent s; received := received s;
       producer_gone := producer_gone s;
       consumer_gone := consumer_gone s |}.
Proof using Hcapacity.
  intros (pending & Hsent & Hok) Ha Hhold Halive.
  rewrite Ha in Hok. cbv zeta in Hok.
  destruct Hok as (Hcap & Hpos & Hpl & Hdata & Hsize & Hp & Hc & Hflag & Hpg & Hcg & Hboth).
  exists pending. split; [assumption|].
  destruct Hpos as (Hwc & Hwp & Hvc & Hvp & Hord).
  destruct (lor_drop_flag (_producer a) Hwp) as (Hw' & Hv' & Hr' & Hd').
  cbn [shared producer_holds consumer_holds producer_gone consumer_gone
       drop_store load store with_producer
       _capacity _producer _consumer _data _eitherSideDropped].
  cbv zeta.
  rewrite (distance_same_fields (_consumer a) (_producer a)
             (_consumer a) (Z.lor (_producer a) drop_flag))
    by auto.
  split_ands; try assumption.
  - unfold positions_ok. rewrite Hv', Hr'. auto.
  - exact I.
  - auto.
Qed.

Lemma ok_consumer_drop_store (s : system T) (a : arc T) :
  system_ok capacity s ->
  shared s = Alive a ->
  consumer_holds s = None ->
  Z.land (_consumer a) drop_flag = 0 ->
  system_ok capacity
    {| shared := Alive (drop_store Consumer (load Consumer a) a);
       producer_holds := producer_holds s; consumer_holds := None;
       sent := sent s; received := received s;
       producer_gone := producer_gone s;
       consumer_gone := consumer_gone s |}.
Proof using Hcapacity.
  intros (pending & Hsent & Hok) Ha Hhold Halive.
  rewrite Ha in Hok. cbv zeta in Hok.
  destruct Hok as (Hcap & Hpos & Hpl & Hdata & Hsize & Hp & Hc & Hflag & Hpg & Hcg & Hboth).
  exists pending. split; [assumption|].
  destruct Hpos as (Hwc & Hwp & Hvc & Hvp & Hord).
  destruct (lor_drop_flag (_consumer a) Hwc) as (Hw' & Hv' & Hr' & Hd').
  cbn [shared producer_holds consumer_holds producer_gone consumer_gone
       drop_store load store with_consumer
       _capacity _producer _consumer _data _eitherSideDropped].
  cbv zeta.
  rewrite (distance_same_fields (_consumer a) (_producer a)
             (Z.lor (_consumer a) drop_flag) (_producer a))
    by auto.
  split_ands; try assumption.
  - unfold positions_ok. rewrite Hv', Hr'. auto.
  - now rewrite Hv'.
  - exact I.
  - auto.
Qed.

(** The exchange of either side: the state is deleted when the other side
    has made its exchange, and stays otherwise. *)
Lemma ok_drop_exchange (s : system T) (a : arc T) (pg cg : bool) :
  system_ok capacity s ->
  shared s = Alive a ->
  (pg = true /\ cg = consumer_gone s /\ producer_gone s = false /\
   Z.land (_producer a) drop_flag <> 0) \/
  (cg = true /\ pg = producer_gone s /\ consumer_gone s = false /\
   Z.land (_consumer a) drop_flag <> 0) ->
  system_ok capacity
    {| shared :=
         (let '(a2, second) := drop_exchange a in
          if second
          then let '(d, ranges) := arc_destructor a2 in Deleted ranges d
          else Alive a2);
       producer_holds := producer_holds s;
       consumer_holds := consumer_holds s;
       sent := sent s; received := received s;
       producer_gone := pg; consumer_gone := cg |}.
Proof using Hcapacity.
  intros (pending & Hsent & Hok) Ha Hside.
  rewrite Ha in Hok. cbv zeta in Hok.
  destruct Hok as (Hcap & Hpos & Hpl & Hdata & Hsize & Hp & Hc & Hflag & Hpg & Hcg & Hboth).
  exists pending. split; [assumption|].
  assert (Hdropped : forall w, Z.land w drop_flag <> 0 -> dropped w = true).
  { intros w Hw. destruct (dropped w) eqn:E; [reflexivity|].
    apply alive_not_dropped in E. contradiction. }
  unfold drop_exchange.
  cbn [shared producer_holds consumer_holds producer_gone consumer_gone].
  destruct (_eitherSideDropped a) eqn:Hesd.
  - destruct (arc_destructor _) as [d ranges].
    symmetry in Hflag. apply orb_true_iff in Hflag.
    destruct Hside as [(-> & -> & Hg & _)|(-> & -> & Hg & _)];
      rewrite Hg in Hflag; destruct Hflag; auto; discriminate.
  - symmetry in Hflag. apply orb_false_iff in Hflag as [Hpf Hcf].
    cbn [with_eitherSideDropped
         _capacity _producer _consumer _data _eitherSideDropped].
    cbv zeta.
    destruct Hside as [(-> & -> & _ & Hw)|(-> & -> & _ & Hw)];
      apply Hdropped in Hw; rewrite ?Hpf, ?Hcf;
      split_ands; auto.
Qed.

Lemma system_ok_step (s s' : system T) :
  system_ok capacity s -> step s s' -> system_ok capacity s'.
Proof using Hcapacity.
  intros Hok Hstep. destruct Hstep.
  - eapply ok_producer_acquire; eauto.
  - eapply ok_producer_release; eauto.
  - eapply ok_consumer_acquire; eauto.
  - eapply ok_consumer_release; eauto.
  - eapply ok_producer_drop_store; eauto.
  - eapply ok_drop_exchange; eauto.
  - eapply ok_consumer_drop_store; eauto.
  - eapply ok_drop_exchange; eauto.
Qed.

Lemma reachable_ok (s : system T) :
  reachable capacity s -> system_ok capacity s.
Proof using Hcapacity.
  induction 1 as [|s s' _ IH Hstep].
  - apply system_ok_init.
  - eapply system_ok_step; eauto.
Qed.

End preservation.

(** ** Reachable states *)

Lemma example_reachable : reachable 2 example_system.
Proof.
  pose (acq1 := {| begin := 0; end_ := 2; next := revolution_flag |}).
  pose (acq2 := {| begin := 0; end_ := 1; next := 1 |}).
  pose (a1 := {| _data := <[0 := 7%nat]> (<[1 := 8%nat]> ∅); _capacity := 2;
                 _eitherSideDropped := false;
                 _producer := revolution_flag; _consumer := 0 |}).
  pose (s1 := {| shared := Alive (new_arc nat 2); producer_holds := Some acq1;
                 consumer_holds := None; sent := []; received := [];
                 producer_gone := false; consumer_gone := false |}).
  pose (s2 := {| shared := Alive a1; producer_holds := None;
                 consumer_holds := None; sent := [7; 8]%nat; received := [];
                 producer_gone := false; consumer_gone := false |}).
  pose (s3 := {| shared := Alive a1; producer_holds := None;
                 consumer_holds := Some acq2; sent := [7; 8]%nat;
                 received := [];
                 producer_gone := false; consumer_gone := false |}).
  assert (H1 : reachable 2 s1).
  { apply (@reachable_step nat 2 (init nat 2) s1); [apply reachable_init|].
    apply (@step_producer_acquire nat (init nat 2) (new_arc nat 2) 2 acq1); concrete. }
  assert (H2 : reachable 2 s2).
  { apply (@reachable_step nat 2 s1 s2 H1).
    apply (@step_producer_release nat s1 (new_arc nat 2) acq1 [7; 8]%nat); concrete. }
  assert (H3 : reachable 2 s3).
  { apply (@reachable_step nat 2 s2 s3 H2).
    apply (@step_consumer_acquire nat s2 a1 1 acq2); concrete. }
  apply (@reachable_step nat 2 s3 example_system H3).
  apply (@step_consumer_release nat s3 a1 acq2 [7%nat]); concrete.
Qed.

(** C4.  In every reachable state of a channel whose capacity a position can
    hold, both value fields lie in [[0, capacity)], and the number of objects
    in the storage, which is also the number of elements sent and not yet
    received, is the distance from the consumer position to the producer
    position; it never exceeds the capacity. *)
Theorem reachable_count_is_distance
  (T : Type) (capacity : Z) (s : system T) (a : arc T) :
  0 < capacity <= 2 ^ 30 ->
  reachable capacity s ->
  shared s = Alive a ->
  0 <= value (_consumer a) < capacity /\
  0 <= value (_producer a) < capacity /\
  Z.of_nat (size (_data a)) = distance capacity (_consumer a) (_producer a) /\
  Z.of_nat (length (sent s)) - Z.of_nat (length (received s))
  = distance capacity (_consumer a) (_producer a) /\
  0 <= distance capacity (_consumer a) (_producer a) <= capacity.
Proof.
  intros Hc Hreach Ha.
  destruct (reachable_ok capacity Hc s Hreach) as (pending & Hsent & Hok).
  rewrite Ha in Hok. cbv zeta in Hok.
  destruct Hok as (Hcap & Hpos & Hpl & Hdata & Hsize & _).
  destruct (distance_cases capacity _ _ ltac:(lia) Hpos) as [_ Hrange].
  destruct Hpos as (_ & _ & Hvc & Hvp & _).
  split_ands; try assumption; try lia.
  rewrite Hsent, length_app. lia.
Qed.

Lemma reachable_count_is_distance_witness :
  0 <= value (_consumer example_arc) < 2 /\
  0 <= value (_producer example_arc) < 2 /\
  Z.of_nat (size (_data example_arc))
  = distance 2 (_consumer example_arc) (_producer example_arc) /\
  Z.of_nat (length (sent example_system)) - Z.of_nat (length (received example_system))
  = distance 2 (_consumer example_arc) (_producer example_arc) /\
  0 <= distance 2 (_consumer example_arc) (_producer example_arc) <= 2.
Proof.
  apply (reachable_count_is_distance nat 2 example_system example_arc).
  - lia.
  - exact example_reachable.
  - reflexivity.
Defined.


(** The range of a call that does not take the disconnect exit lies in the
    buffer and is not empty. *)
Lemma acquire_range_in_bounds capacity mine theirPos waitMask slots :
  is_size_type mine -> is_size_type theirPos ->
  0 < capacity <= 2 ^ 30 ->
  1 <= slots <= position_mask ->
  value mine < capacity -> value theirPos < capacity ->
  peer_dropped mine theirPos waitMask = false ->
  0 <= begin (acquire_range capacity mine theirPos waitMask slots)
    < end_ (acquire_range capacity mine theirPos waitMask slots) /\
  end_ (acquire_range capacity mine theirPos waitMask slots) <= capacity.
Proof.
  intros Hm Ht Hc Hs Hvm Hvt Hopen.
  rewrite acquire_range_fields by (assumption || lia).
  cbn [begin end_]. unfold range_end.
  destruct (word_fields mine Hm) as [_ Hvm'].
  destruct (word_fields theirPos Ht) as [_ Hvt'].
  rewrite position_mask_eq in Hs.
  destruct (Z.leb_spec (value theirPos) (value mine)); lia.
Qed.

(** C9.  In every reachable state, a call of [acquire] by either side for
    at least one slot that leaves the wait loop returns an acquisition that
    converts to [true] exactly when the call did not take the disconnect
    exit, and such an acquisition satisfies
    [0 <= begin < end <= capacity]. *)
Theorem acquired_range_in_bounds
  (T : Type) (capacity : Z) (s : system T) (a : arc T) (sd : side)
  (slots : Z) (acq : acquisition) (rest : list Z) :
  0 < capacity <= 2 ^ 30 ->
  reachable capacity s ->
  shared s = Alive a ->
  1 <= slots <= position_mask ->
  acquire (_capacity a) (load sd a) [load (peer sd) a] (waitMask_of sd) slots
  = Some (acq, rest) ->
  (to_bool acq = true <->
   peer_dropped (load sd a) (load (peer sd) a) (waitMask_of sd) = false) /\
  (to_bool acq = true ->
   0 <= begin acq < end_ acq /\ end_ acq <= capacity /\ 1 <= end_ acq).
Proof.
  intros Hc Hreach Ha Hs Hacq.
  destruct (reachable_ok capacity Hc s Hreach) as (pending & Hsent & Hok).
  rewrite Ha in Hok. cbv zeta in Hok.
  destruct Hok as (Hcap & (Hwc & Hwp & Hvc & Hvp & _) & _).
  assert (Hrest : rest = []).
  { unfold acquire in Hacq. simpl in Hacq.
    destruct (negb _) in Hacq; now inversion Hacq. }
  subst rest. apply acquire_single in Hacq as [_ ->]. rewrite Hcap.
  assert (Hm : is_size_type (load sd a) /\ value (load sd a) < capacity)
    by (destruct sd; simpl; split; (assumption || lia)).
  assert (Ht : is_size_type (load (peer sd) a) /\
               value (load (peer sd) a) < capacity)
    by (destruct sd; simpl; split; (assumption || lia)).
  destruct Hm as [Hm Hvm], Ht as [Ht Hvt].
  assert (Hiff : to_bool (acquire_range capacity (load sd a)
                            (load (peer sd) a) (waitMask_of sd) slots) = true
                 <-> peer_dropped (load sd a) (load (peer sd) a)
                       (waitMask_of sd) = false).
  { split; [apply to_bool_open|].
    intros Hopen. apply acquire_range_open_nonempty; (assumption || lia). }
  split; [exact Hiff|]. intros Hb. apply Hiff in Hb.
  pose proof (acquire_range_in_bounds capacity (load sd a) (load (peer sd) a)
                (waitMask_of sd) slots Hm Ht Hc Hs Hvm Hvt Hb).
  lia.
Qed.

Lemma acquired_range_in_bounds_witness :
  (to_bool {| begin := 1; end_ := 2; next := revolution_flag |} = true <->
   peer_dropped (load Consumer example_arc) (load (peer Consumer) example_arc)
     (waitMask_of Consumer) = false) /\
  (to_bool {| begin := 1; end_ := 2; next := revolution_flag |} = true ->
   0 <= begin {| begin := 1; end_ := 2; next := revolution_flag |}
     < end_ {| begin := 1; end_ := 2; next := revolution_flag |} /\
   end_ {| begin := 1; end_ := 2; next := revolution_flag |} <= 2 /\
   1 <= end_ {| begin := 1; end_ := 2; next := revolution_flag |}).
Proof.
  apply (acquired_range_in_bounds nat 2 example_system example_arc Consumer 2
           {| begin := 1; end_ := 2; next := revolution_flag |} []).
  - lia.
  - exact example_reachable.
  - reflexivity.
  - concrete.
  - reflexivity.
Defined.

(** ** Teardown *)

Section teardown.
Context {T : Type}.

Lemma arc_destructor_ranges (a : arc T) :
  snd (arc_destructor a)
  = live_ranges (_capacity a) (_consumer a) (_producer a).
Proof.
  unfold arc_destructor, live_ranges.
  rewrite !land_position_mask, different_revolution.
  destruct (Z.gtb_spec (value (_producer a)) (value (_consumer a))),
           (Z.ltb_spec (value (_consumer a)) (value (_producer a)));
    try lia; [reflexivity|].
  destruct (xorb _ _); reflexivity.
Qed.

Lemma arc_destructor_storage capacity (a : arc T) pending :
  0 < capacity ->
  _capacity a = capacity ->
  positions_ok capacity (_consumer a) (_producer a) ->
  Z.of_nat (length pending) = distance capacity (_consumer a) (_producer a) ->
  holds_pending capacity (_data a) (value (_consumer a)) pending ->
  fst (arc_destructor a) = ∅.
Proof.
  intros Hc Hcap Hpos Hlen [Hin Hout].
  destruct (distance_cases capacity _ _ Hc Hpos) as [Hdist Hrange].
  destruct Hpos as (_ & _ & Hvc & Hvp & Hord).
  rewrite Hdist in Hlen.
  apply map_eq. intros k. rewrite lookup_empty.
  assert (Hk : (forall i, 0 <= i < capacity ->
                   k = ring_slot capacity (value (_consumer a)) i ->
                   Z.of_nat (length pending) <= i) ->
               _data a !! k = None).
  { intros Hfar. destruct (decide (0 <= k < capacity)) as [Hk|Hk];
      [|now apply Hout].
    set (i := if k <? value (_consumer a)
              then k - value (_consumer a) + capacity
              else k - value (_consumer a)).
    assert (Hi : 0 <= i < capacity /\
                 k = ring_slot capacity (value (_consumer a)) i).
    { subst i. unfold ring_slot.
      destruct (Z.ltb_spec k (value (_consumer a))).
      - destruct (Z.ltb_spec (value (_consumer a)
                              + (k - value (_consumer a) + capacity)) capacity); lia.
      - destruct (Z.ltb_spec (value (_consumer a)
                              + (k - value (_consumer a))) capacity); lia. }
    destruct Hi as [Hi Hki]. rewrite Hki, Hin by assumption.
    apply lookup_ge_None. specialize (Hfar i Hi Hki). lia. }
  unfold arc_destructor.
  rewrite !land_position_mask, different_revolution, Hcap.
  destruct (Z.gtb_spec (value (_producer a)) (value (_consumer a))) as [Hgt|Hle];
    cbn [fst].
  - rewrite destroy_lookup. case_decide as Hrange'; [reflexivity|].
    apply Hk. intros i Hi Hki.
    pose proof (ring_slot_cases capacity (value (_consumer a)) i).
    destruct (revolution (_consumer a)), (revolution (_producer a));
      simpl in *; lia.
  - destruct (revolution (_consumer a)) eqn:Erc,
             (revolution (_producer a)) eqn:Erp; simpl in *.
    + apply Hk. intros i Hi Hki. lia.
    + rewrite !destroy_lookup. repeat case_decide; try reflexivity.
      apply Hk. intros i Hi Hki.
      pose proof (ring_slot_cases capacity (value (_consumer a)) i). lia.
    + rewrite !destroy_lookup. repeat case_decide; try reflexivity.
      apply Hk. intros i Hi Hki.
      pose proof (ring_slot_cases capacity (value (_consumer a)) i). lia.
    + apply Hk. intros i Hi Hki. lia.
Qed.

End teardown.

Lemma interleaving_length schedule :
  interleaving schedule -> length schedule = 6%nat.
Proof.
  intros [Hp Hc].
  assert (H : forall l, (accesses Producer l + accesses Consumer l)%nat
                        = length l).
  { induction l as [|[] l IH]; simpl; lia. }
  rewrite <- H. lia.
Qed.

Lemma live_ranges_same_fields capacity c p c' p' :
  value c' = value c -> revolution c' = revolution c ->
  value p' = value p -> revolution p' = revolution p ->
  live_ranges capacity c' p' = live_ranges capacity c p.
Proof.
  intros Hvc Hrc Hvp Hrp. unfold live_ranges.
  now rewrite Hvc, Hrc, Hvp, Hrp.
Qed.

(** C3.  From a reachable state in which neither side has dropped, every
    interleaving of the accesses of one [drop_producer] call and one
    [drop_consumer] call ends with the state deleted by exactly one of the
    calls, the one that found [_eitherSideDropped] set; the other call
    destroyed nothing.  The destructor is given the range
    [[consumer value, producer value)] when the producer value is larger,
    the ranges [[0, producer value)] and [[consumer value, capacity)] when
    the revolution flags differ, and no range when the positions agree; no
    object is left in the storage. *)
Theorem second_dropper_destroys
  (T : Type) (capacity : Z) (s : system T) (a : arc T) (schedule : list side) :
  0 < capacity <= 2 ^ 30 ->
  reachable capacity s ->
  shared s = Alive a ->
  _eitherSideDropped a = false ->
  interleaving schedule ->
  exists ranges first,
    run_drops schedule (drop_init a)
    = Some {| drop_state := Deleted ranges ∅;
              producer_pc := DropDone (side_eqb first Consumer);
              consumer_pc := DropDone (side_eqb first Producer) |} /\
    (value (_consumer a) < value (_producer a) ->
     ranges = [(value (_consumer a), value (_producer a))]) /\
    (revolution (_consumer a) <> revolution (_producer a) ->
     ranges = [(0, value (_producer a)); (value (_consumer a), capacity)]) /\
    (value (_consumer a) = value (_producer a) ->
     revolution (_consumer a) = revolution (_producer a) ->
     ranges = []).
Proof.
  intros Hc Hreach Ha Hesd Hinter.
  destruct (reachable_ok capacity Hc s Hreach) as (pending & Hsent & Hok).
  rewrite Ha in Hok. cbv zeta in Hok.
  destruct Hok as (Hcap & Hpos & Hpl & Hdata & _).
  pose proof Hpos as (Hwc & Hwp & Hvc & Hvp & Hord).
  destruct (lor_drop_flag (_producer a) Hwp) as (Hpw' & Hpv' & Hpr' & _).
  destruct (lor_drop_flag (_consumer a) Hwc) as (Hcw' & Hcv' & Hcr' & _).
  set (final := {| _data := _data a; _capacity := _capacity a;
                   _eitherSideDropped := true;
                   _producer := Z.lor (_producer a) drop_flag;
                   _consumer := Z.lor (_consumer a) drop_flag |}).
  assert (Hfinal : arc_destructor final
                   = (∅, live_ranges capacity (_consumer a) (_producer a))).
  { rewrite (surjective_pairing (arc_destructor final)). f_equal.
    - apply (arc_destructor_storage capacity final pending); subst final;
        cbn [_data _capacity _producer _consumer]; try assumption; try lia.
      + unfold positions_ok. rewrite Hpv', Hpr', Hcv', Hcr'.
        split_ands; (assumption || lia).
      + rewrite Hpl. symmetry. now apply distance_same_fields.
      + now rewrite Hcv'.
    - rewrite arc_destructor_ranges. subst final.
      cbn [_capacity _producer _consumer]. rewrite Hcap.
      now apply live_ranges_same_fields. }
  exists (live_ranges capacity (_consumer a) (_producer a)).
  assert (Hranges :
    (value (_consumer a) < value (_producer a) ->
     live_ranges capacity (_consumer a) (_producer a)
     = [(value (_consumer a), value (_producer a))]) /\
    (revolution (_consumer a) <> revolution (_producer a) ->
     live_ranges capacity (_consumer a) (_producer a)
     = [(0, value (_producer a)); (value (_consumer a), capacity)]) /\
    (value (_consumer a) = value (_producer a) ->
     revolution (_consumer a) = revolution (_producer a) ->
     live_ranges capacity (_consumer a) (_producer a) = [])).
  { unfold live_ranges.
    destruct (Z.ltb_spec (value (_consumer a)) (value (_producer a)));
      destruct (revolution (_consumer a)), (revolution (_producer a));
      simpl in *; split_ands; intros; try reflexivity; try lia; congruence. }
  pose proof (interleaving_length schedule Hinter) as Hlen.
  destruct Hinter as [Hip Hic].
  do 6 (destruct schedule as [|[] schedule]; try discriminate Hlen).
  all: destruct schedule; try discriminate Hlen.
  all: simpl in Hip, Hic; try discriminate Hip; try discriminate Hic.
  all: clear Hip Hic Hlen.
  all: unfold drop_init, run_drops, drop_step.
  all: cbn [drop_state pc_of producer_pc consumer_pc set_pc load store
            drop_store drop_exchange with_producer with_consumer
            with_eitherSideDropped _data _capacity _eitherSideDropped
            _producer _consumer].
  all: rewrite Hesd.
  all: cbn [drop_state pc_of producer_pc consumer_pc set_pc load store
            drop_store drop_exchange with_producer with_consumer
            with_eitherSideDropped _data _capacity _eitherSideDropped
            _producer _consumer].
  all: match goal with
       | |- context [arc_destructor ?x] => change x with final
       end; rewrite Hfinal.
  all: first [ exists Producer; split; [reflexivity|exact Hranges]
             | exists Consumer; split; [reflexivity|exact Hranges] ].
Qed.

Lemma second_dropper_destroys_witness :
  exists ranges first,
    run_drops [Producer; Consumer; Consumer; Producer; Consumer; Producer]
      (drop_init example_arc)
    = Some {| drop_state := Deleted ranges ∅;
              producer_pc := DropDone (side_eqb first Consumer);
              consumer_pc := DropDone (side_eqb first Producer) |} /\
    (value (_consumer example_arc) < value (_producer example_arc) ->
     ranges = [(value (_consumer example_arc), value (_producer example_arc))]) /\
    (revolution (_consumer example_arc) <> revolution (_producer example_arc) ->
     ranges = [(0, value (_producer example_arc)); (value (_consumer example_arc), 2)]) /\
    (value (_consumer example_arc) = value (_producer example_arc) ->
     revolution (_consumer example_arc) = revolution (_producer example_arc) ->
     ranges = []).
Proof.
  apply (second_dropper_destroys nat 2 example_system example_arc
           [Producer; Consumer; Consumer; Producer; Consumer; Producer]).
  - lia.
  - exact example_reachable.
  - reflexivity.
  - reflexivity.
  - split; reflexivity.
Defined.

(** ** Batch transfers *)

Section batch.
Context {T : Type}.
Variable capacity : Z.
Hypothesis Hcapacity : 0 < capacity <= 2 ^ 30.

(** What a call of [acquire] for at least one slot does with the loads it
    is given. *)
Lemma acquire_round mine theirs waitMask slots acq theirs' :
  is_size_type mine -> value mine < capacity ->
  Forall (fun t => is_size_type t /\ value t < capacity) theirs ->
  1 <= slots <= position_mask ->
  acquire capacity mine theirs waitMask slots = Some (acq, theirs') ->
  exists waited theirPos,
    theirs = waited ++ theirPos :: theirs' /\
    Forall (fun t => Z.lxor mine t = waitMask) waited /\
    is_size_type theirPos /\
    Forall (fun t => is_size_type t /\ value t < capacity) theirs' /\
    (to_bool acq = false -> peer_dropped mine theirPos waitMask = true) /\
    (to_bool acq = true ->
     peer_dropped mine theirPos waitMask = false /\
     begin acq = value mine /\ begin acq < end_ acq <= capacity /\
     end_ acq - begin acq <= slots /\
     next acq = next_position capacity mine (end_ acq)).
Proof using Hcapacity.
  intros Hm Hvm Hall Hs Hacq. unfold acquire in Hacq.
  destruct (acquire_wait mine waitMask theirs) as [[theirPos rest]|] eqn:Hw;
    [|discriminate].
  injection Hacq as <- <-.
  apply acquire_wait_exit in Hw as (waited & -> & Hwaited & Hexit).
  apply Forall_app in Hall as [_ Hall].
  apply Forall_cons in Hall as [[Ht Hvt] Hrest].
  exists waited, theirPos. split_ands; try assumption; try reflexivity.
  - intros Hb. destruct (peer_dropped mine theirPos waitMask) eqn:Hd;
      [reflexivity|].
    rewrite acquire_range_open_nonempty in Hb by (assumption || lia).
    discriminate.
  - intros Hb. apply to_bool_open in Hb.
    pose proof (acquire_range_in_bounds capacity mine theirPos waitMask slots
                  Hm Ht Hcapacity Hs Hvm Hvt Hb) as Hbounds.
    rewrite acquire_range_fields in * by (assumption || lia).
    cbn [begin end_ next] in *. split_ands; try reflexivity; try lia.
    + assumption.
    + unfold range_end. lia.
Qed.


Lemma transferred_app log log' :
  transferred (log ++ log') = transferred log + transferred log'.
Proof using Type.
  clear Hcapacity.
  induction log as [|acq log IH]; simpl; [reflexivity|]. rewrite IH. lia.
Qed.

(** A waiting producer that has not dropped sees a consumer that has not
    dropped either. *)
Lemma waited_not_dropped mine waitMask waited :
  is_size_type mine -> dropped mine = false ->
  waitMask = 0 \/ waitMask = revolution_flag ->
  Forall (fun t => is_size_type t /\ value t < capacity) waited ->
  Forall (fun t => Z.lxor mine t = waitMask) waited ->
  Forall (fun t => dropped t = false) waited.
Proof using Type.
  clear Hcapacity.
  intros Hm Hd Hmask Hok Hw. induction waited as [|t waited IH]; [constructor|].
  apply Forall_cons in Hok as [[Ht _] Hok].
  apply Forall_cons in Hw as [Hx Hw].
  constructor; [|auto].
  destruct Hmask as [->| ->].
  - apply lxor_zero in Hx as (_ & _ & <-); assumption.
  - apply lxor_revolution_flag in Hx as (_ & _ & <-); assumption.
Qed.

(** The facts about a loop that stops without a further round. *)
Ltac stop_round :=
  split_ands; try reflexivity; try (simpl; lia); try solve [constructor].

Lemma move_n_loop_spec fuel :
  forall (a : arc T) theirs src count log0 a' log r,
    _capacity a = capacity ->
    is_size_type (_producer a) -> value (_producer a) < capacity ->
    dropped (_producer a) = false ->
    Forall (fun t => is_size_type t /\ value t < capacity) theirs ->
    (length theirs <= fuel)%nat ->
    0 <= count <= position_mask ->
    sender.move_n_loop fuel a theirs src count log0 = (a', log, r) ->
    exists rounds,
      log = log0 ++ rounds /\
      Forall (fun acq => 0 <= begin acq < end_ acq /\ end_ acq <= capacity)
        rounds /\
      0 <= transferred rounds <= count /\
      _capacity a' = capacity /\ _consumer a' = _consumer a /\
      _eitherSideDropped a' = _eitherSideDropped a /\
      _producer a' = released rounds (_producer a) /\
      _data a' = rounds_written rounds src (_data a) /\
      match r with
      | Returned (in', ok) =>
          in' = drop (Z.to_nat (transferred rounds)) src /\
          (ok = true <-> transferred rounds = count) /\
          (ok = false -> Exists (fun t => dropped t = true) theirs)
      | Parked =>
          transferred rounds < count /\
          Forall (fun t => dropped t = false) theirs
      | _ => False
      end.
Proof using Hcapacity.
  induction fuel as [|fuel IH];
    intros a theirs src count log0 a' log r Hcap Hp Hvp Hdp Hall Hfuel Hcount Hrun.
  - simpl in Hrun. destruct (Z.eqb_spec count 0) as [->|Hne];
      injection Hrun as <- <- <-; exists []; rewrite app_nil_r;
      stop_round.
    destruct theirs; [constructor|simpl in Hfuel; lia].
  - cbn [sender.move_n_loop] in Hrun.
    destruct (Z.eqb_spec count 0) as [->|Hne].
    { injection Hrun as <- <- <-. exists []. rewrite app_nil_r.
      stop_round. }
    rewrite position_mask_eq in Hcount.
    rewrite wrap32_small in Hrun by lia.
    destruct (word_fields _ Hp) as [_ Hvp0].
    unfold producer_acquire in Hrun. rewrite Hcap in Hrun.
    destruct (acquire capacity (_producer a) theirs revolution_flag count)
      as [[acq theirs']|] eqn:Hacq.
    + assert (Hs : 1 <= count <= position_mask)
        by (rewrite position_mask_eq; lia).
      destruct (acquire_round _ _ _ _ _ _ Hp Hvp Hall Hs Hacq)
        as (waited & theirPos & -> & Hwaited & Ht & Hall' & Hclosed & Hopen).
      destruct (to_bool acq) eqn:Hb; cbn [negb] in Hrun.
      * destruct (Hopen eq_refl) as (Hpd & Hbeg & Hbe & Hgot & Hnext).
        rewrite wrap32_small in Hrun by lia.
        rewrite wrap_size_t_small in Hrun by lia.
        rewrite (surjective_pairing (uninitialized_move_n _ _ _ _)) in Hrun.
        rewrite uninitialized_move_n_fst in Hrun.
        destruct (next_position_fields capacity Hcapacity (_producer a)
                    (end_ acq) ltac:(lia)) as (Hnw & Hnv & Hnr & Hnd).
        rewrite <- Hnext in Hnw, Hnv, Hnr, Hnd.
        apply IH in Hrun;
          cbn [producer_release with_producer with_data _capacity _producer
               _consumer _data _eitherSideDropped];
          try assumption.
        -- destruct Hrun as (rounds & -> & Hrounds & Htotal & Hc' & Hco' & He'
                             & Hp' & Hd' & Hr).
           cbn [producer_release with_producer with_data _capacity _producer
                _consumer _data _eitherSideDropped] in *.
           exists (acq :: rounds). rewrite <- app_assoc.
           split_ands; try assumption; try reflexivity.
           ++ constructor; [|assumption]. rewrite Hbeg. lia.
           ++ simpl. lia.
           ++ simpl. lia.
           ++ destruct r as [[in' ok]| | |]; try contradiction.
              ** destruct Hr as (Hin & Hok & Hex). cbn [transferred fold_right].
                 fold (transferred rounds). split_ands.
                 --- rewrite Hin, drop_drop. f_equal; lia.
                 --- rewrite Hok. lia.
                 --- intros Hf. apply Exists_app. right.
                     apply Exists_cons. right. auto.
              ** destruct Hr as (Hlt & Hnd'). cbn [transferred fold_right].
                 fold (transferred rounds). split; [lia|].
                 apply Forall_app. split.
                 --- apply Forall_app in Hall as [Hallw _].
                     apply (waited_not_dropped (_producer a) revolution_flag);
                       auto.
                 --- constructor; [|assumption].
                     apply not_true_iff_false. intros Hdt.
                     assert (peer_dropped (_producer a) theirPos
                               revolution_flag = true); [|congruence].
                     apply peer_dropped_fields; [assumption|assumption|].
                     split; [assumption|]. left. rewrite revolution_flag_eq. lia.
        -- rewrite Hnv. destruct (Z.eqb_spec (end_ acq) capacity); lia.
        -- rewrite length_app in Hfuel. simpl in Hfuel. lia.
        -- rewrite position_mask_eq. lia.
      * injection Hrun as <- <- <-. exists []. rewrite app_nil_r.
        stop_round.
        intros _. apply Exists_app. right. apply Exists_cons. left.
           specialize (Hclosed eq_refl).
           apply peer_dropped_fields in Hclosed; [|assumption|assumption].
           tauto.
    + injection Hrun as <- <- <-. exists []. rewrite app_nil_r.
      stop_round.
      unfold acquire in Hacq.
      destruct (acquire_wait (_producer a) revolution_flag theirs)
        as [[? ?]|] eqn:Hw; [discriminate|].
      apply (waited_not_dropped (_producer a) revolution_flag); auto.
      clear - Hw. induction theirs as [|t theirs IHt]; [constructor|].
      simpl in Hw.
      destruct (Z.eqb_spec (Z.lxor (_producer a) t) revolution_flag);
        [|discriminate].
      constructor; auto.
Qed.

End batch.

(** C6.  [move_n] on a live producer, with a count that passed
    [validate_size]: the call makes a sequence of rounds, each the
    contiguous range [[begin, end)] inside the buffer of one acquisition,
    never more slots than still to be sent; every round moves the next
    [end - begin] source elements into its range and releases it.  The call
    returns the source advanced by the number of elements transferred and a
    flag that is [true] exactly when all [count] elements were transferred;
    the flag is [false] only when a load showed the consumer's drop flag.
    While no load shows the drop flag the call can only be found waiting,
    with fewer than [count] elements transferred. *)
Theorem move_n_delivers_in_rounds
  (T : Type) (capacity : Z) (a : arc T) (theirs : list Z) (src : list T)
  (count : Z) (a' : arc T) (log : list acquisition)
  (r : outcome (list T * bool)) :
  0 < capacity <= 2 ^ 30 ->
  _capacity a = capacity ->
  is_size_type (_producer a) -> value (_producer a) < capacity ->
  dropped (_producer a) = false ->
  Forall (fun t => is_size_type t /\ value t < capacity) theirs ->
  0 <= count <= position_mask ->
  count <= Z.of_nat (length src) ->
  sender.move_n_log a theirs src count = (a', log, r) ->
  Forall (fun acq => 0 <= begin acq < end_ acq /\ end_ acq <= capacity) log /\
  0 <= transferred log <= count /\
  _producer a' = released log (_producer a) /\
  _data a' = rounds_written log src (_data a) /\
  match r with
  | Returned (in', ok) =>
      in' = drop (Z.to_nat (transferred log)) src /\
      (ok = true <-> transferred log = count) /\
      (ok = false -> Exists (fun t => dropped t = true) theirs)
  | Parked =>
      transferred log < count /\ Forall (fun t => dropped t = false) theirs
  | Threw _ | Undefined => False
  end.
Proof.
  intros Hc Hcap Hp Hvp Hdp Hall Hcount Hsrc Hrun.
  unfold sender.move_n_log, validate_size in Hrun.
  destruct (Z.gtb_spec count position_mask) as [Hgt|_]; [lia|].
  apply (move_n_loop_spec capacity Hc) in Hrun; try assumption; [|lia].
  destruct Hrun as (rounds & -> & Hrounds & Htotal & _ & _ & _ & Hp' & Hd' & Hr).
  cbn [app]. split_ands; try assumption; lia.
Qed.

Lemma move_n_delivers_in_rounds_witness :
  let a := {| _data := ∅; _capacity := 4; _eitherSideDropped := false;
              _producer := 2; _consumer := 2 |} in
  let log := [ {| begin := 2; end_ := 4; next := pack 0 true false |};
               {| begin := 0; end_ := 2; next := pack 2 true false |} ] in
  let a' := {| _data := <[1 := 13%nat]> (<[0 := 12%nat]>
                          (<[3 := 11%nat]> (<[2 := 10%nat]> ∅)));
               _capacity := 4; _eitherSideDropped := false;
               _producer := pack 2 true false; _consumer := 2 |} in
  let src := [10; 11; 12; 13]%nat in
  Forall (fun acq => 0 <= begin acq < end_ acq /\ end_ acq <= 4) log /\
  0 <= transferred log <= 4 /\
  _producer a' = released log (_producer a) /\
  _data a' = rounds_written log src (_data a) /\
  ([] : list nat) = drop (Z.to_nat (transferred log)) src /\
  (true = true <-> transferred log = 4) /\
  (true = false -> Exists (fun t => dropped t = true) [2; 2]).
Proof.
  exact (move_n_delivers_in_rounds nat 4
           {| _data := ∅; _capacity := 4; _eitherSideDropped := false;
              _producer := 2; _consumer := 2 |}
           [2; 2] [10; 11; 12; 13]%nat 4
           {| _data := <[1 := 13%nat]> (<[0 := 12%nat]>
                          (<[3 := 11%nat]> (<[2 := 10%nat]> ∅)));
              _capacity := 4; _eitherSideDropped := false;
              _producer := pack 2 true false; _consumer := 2 |}
           [ {| begin := 2; end_ := 4; next := pack 0 true false |};
             {| begin := 0; end_ := 2; next := pack 2 true false |} ]
           (Returned ([], true))
           ltac:(lia) eq_refl ltac:(concrete) ltac:(concrete) eq_refl
           ltac:(repeat constructor; concrete) ltac:(concrete)
           ltac:(simpl; lia) ltac:(vm_compute; reflexivity)).
Defined.

(** ** Size validation *)

Lemma move_n_loop_no_throw (T : Type) fuel :
  forall (a : arc T) theirs src count log a' log' e,
    sender.move_n_loop fuel a theirs src count log <> (a', log', Threw e).
Proof.
  induction fuel as [|fuel IH]; intros a theirs src count log a' log' e;
    cbn [sender.move_n_loop]; destruct (count =? 0); try discriminate.
  destruct (producer_acquire a theirs (wrap32 count)) as [[acq theirs']|];
    [|discriminate].
  destruct (negb (to_bool acq)); [discriminate|].
  destruct (uninitialized_move_n _ _ _ _). apply IH.
Qed.

Lemma pop_n_loop_no_throw (T : Type) fuel :
  forall (a : arc T) theirs out count log a' log' e,
    receiver.pop_n_loop fuel a theirs out count log <> (a', log', Threw e).
Proof.
  induction fuel as [|fuel IH]; intros a theirs out count log a' log' e;
    cbn [receiver.pop_n_loop]; destruct (count =? 0); try discriminate.
  destruct (consumer_acquire a theirs (wrap32 count)) as [[acq theirs']|];
    [|discriminate].
  destruct (negb (to_bool acq)); [discriminate|].
  destruct (move_out _ _ _); [apply IH|discriminate].
Qed.

(** C10.  For a count above [position_mask], [move_n] and [pop_n] throw
    [overflow_error] with the state as it was and no acquisition made; for a
    count up to [position_mask] they enter their loop and do not throw. *)
Theorem batch_count_is_validated
  (T : Type) (a : arc T) (theirs : list Z) (src out : list T) (count : Z) :
  (position_mask < count ->
   sender.move_n_log a theirs src count = (a, [], Threw overflow_error) /\
   sender.move_n a theirs src count = (a, Threw overflow_error) /\
   receiver.pop_n_log a theirs out count = (a, [], Threw overflow_error) /\
   receiver.pop_n a theirs out count = (a, Threw overflow_error)) /\
  (count <= position_mask ->
   sender.move_n_log a theirs src count
   = sender.move_n_loop (length theirs) a theirs src count [] /\
   receiver.pop_n_log a theirs out count
   = receiver.pop_n_loop (length theirs) a theirs out count [] /\
   forall a' e,
     sender.move_n a theirs src count <> (a', Threw e) /\
     receiver.pop_n a theirs out count <> (a', Threw e)).
Proof.
  unfold sender.move_n, receiver.pop_n, sender.move_n_log,
    receiver.pop_n_log, validate_size.
  split; intros Hcount.
  - destruct (Z.gtb_spec count position_mask); [|lia]. repeat split.
  - destruct (Z.gtb_spec count position_mask); [lia|].
    split; [reflexivity|]. split; [reflexivity|]. intros a' e. split.
    + destruct (sender.move_n_loop _ _ _ _ _ _) as [[a1 log1] r1] eqn:Hrun.
      intros [= -> ->]. now apply move_n_loop_no_throw in Hrun.
    + destruct (receiver.pop_n_loop _ _ _ _ _ _) as [[a1 log1] r1] eqn:Hrun.
      intros [= -> ->]. now apply pop_n_loop_no_throw in Hrun.
Qed.

Lemma batch_count_is_validated_witness :
  let a := new_arc nat 4 in
  (sender.move_n_log a [0] [1; 2]%nat (position_mask + 1)
   = (a, [], Threw overflow_error) /\
   sender.move_n a [0] [1; 2]%nat (position_mask + 1)
   = (a, Threw overflow_error) /\
   receiver.pop_n_log a [0] [] (position_mask + 1)
   = (a, [], Threw overflow_error) /\
   receiver.pop_n a [0] [] (position_mask + 1) = (a, Threw overflow_error)) /\
  (sender.move_n_log a [0] [1; 2]%nat 2
   = sender.move_n_loop 1 a [0] [1; 2]%nat 2 [] /\
   receiver.pop_n_log a [0] [] 2 = receiver.pop_n_loop 1 a [0] [] 2 [] /\
   forall a' e,
     sender.move_n a [0] [1; 2]%nat 2 <> (a', Threw e) /\
     receiver.pop_n a [0] [] 2 <> (a', Threw e)).
Proof.
  split.
  - apply (proj1 (batch_count_is_validated nat (new_arc nat 4) [0]
                    [1; 2]%nat [] (position_mask + 1))). concrete.
  - apply (proj2 (batch_count_is_validated nat (new_arc nat 4) [0]
                    [1; 2]%nat [] 2)). concrete.
Defined.

(** ** Construction *)

(** [channel] rejects capacity 0 and accepts every other capacity: the
    sender and the receiver it returns point to the same location, which was
    not in use and now holds a state of that capacity with raw storage and
    both positions zero. *)
Lemma channel_result (T : Type) (h : gmap loc (arc T)) (capacity : Z) :
  (capacity = 0 -> channel h capacity = (h, Threw invalid_argument)) /\
  (capacity <> 0 ->
   exists l,
     h !! l = None /\
     channel h capacity
     = (<[l := new_arc T capacity]> h,
        Returned ({| sender._arc := Some l |}, {| receiver._arc := Some l |}))).
Proof.
  unfold channel. split; intros Hc.
  - subst. reflexivity.
  - destruct (Z.eqb_spec capacity 0); [contradiction|].
    exists (fresh (dom h)). split; [|reflexivity].
    apply not_elem_of_dom. apply is_fresh.
Qed.

(** C5, where the code departs from it: [channel(capacity_max + 1)] and
    [channel(capacity_max + 2)] do not fail with an overflow; each returns a
    sender and a receiver for a new state of that capacity. *)
Theorem channel_accepts_capacity_above_position_mask :
  let h := (∅ : gmap loc (arc nat)) in
  let l := fresh (dom h) in
  channel h (position_mask + 1)
  = (<[l := new_arc nat (position_mask + 1)]> h,
     Returned ({| sender._arc := Some l |}, {| receiver._arc := Some l |})) /\
  channel h (position_mask + 2)
  = (<[l := new_arc nat (position_mask + 2)]> h,
     Returned ({| sender._arc := Some l |}, {| receiver._arc := Some l |})).
Proof. split; reflexivity. Qed.

(** What the missing check lets through.  With a capacity of [2^30 + 1] the
    producer that has filled the slots up to [2^30 - 1] commits a position
    whose value field is 0 and whose revolution flag is set, although it
    has not reached the end of the buffer; the consumer at [2^30 - 1] is
    then granted slot [2^30] as well, which holds no object. *)
Lemma capacity_above_position_mask_breaks_next :
  acquire_range (2 ^ 30 + 1) (2 ^ 30 - 2) 0 revolution_flag 1
  = {| begin := 2 ^ 30 - 2; end_ := 2 ^ 30 - 1; next := 2 ^ 30 - 1 |} /\
  acquire_range (2 ^ 30 + 1) (2 ^ 30 - 1) 0 revolution_flag 1
  = {| begin := 2 ^ 30 - 1; end_ := 2 ^ 30; next := pack 0 true false |} /\
  acquire_range (2 ^ 30 + 1) (2 ^ 30 - 1) (pack 0 true false) 0 2
  = {| begin := 2 ^ 30 - 1; end_ := 2 ^ 30 + 1; next := pack 0 true false |}.
Proof. repeat split; reflexivity. Qed.

(** ** Move assignment *)

(** C8, where the code departs from it: the move assignment of a handle
    drops the state the handle held and takes over the pointer of [other],
    but hands back no handle: its body has no [return]. *)
Theorem move_assign_returns_nothing
  (T : Type) (h : gmap loc (arc T)) (l l' : option loc) :
  sender.move_assign h {| sender._arc := l |} {| sender._arc := l' |}
  = (sender.drop h {| sender._arc := l |},
     {| sender._arc := l' |}, {| sender._arc := None |}, Undefined) /\
  receiver.move_assign h {| receiver._arc := l |} {| receiver._arc := l' |}
  = (receiver.drop h {| receiver._arc := l |},
     {| receiver._arc := l' |}, {| receiver._arc := None |}, Undefined).
Proof. split; reflexivity. Qed.

(** ** The single-item calls as steps of the two threads *)

Lemma acquire_single_rest capacity mine theirPos waitMask slots acq rest :
  acquire capacity mine [theirPos] waitMask slots = Some (acq, rest) ->
  rest = [].
Proof.
  unfold acquire. simpl. destruct (negb _); now intros [= _ <-].
Qed.

Lemma acquire_range_at_most capacity mine theirPos waitMask slots :
  is_size_type mine -> 0 <= slots <= position_mask ->
  end_ (acquire_range capacity mine theirPos waitMask slots)
  <= begin (acquire_range capacity mine theirPos waitMask slots) + slots.
Proof.
  intros Hm Hs. rewrite position_mask_eq in Hs.
  destruct (word_fields _ Hm) as [_ Hv].
  unfold acquire_range, empty_acquisition.
  destruct (peer_dropped _ _ _); cbn [begin end_]; [lia|].
  rewrite !land_position_mask. rewrite wrap32_small by lia. lia.
Qed.

(** In a reachable state, an [emplace] that finds room is an acquire step
    for one slot followed by the release step that constructs the value. *)
Lemma emplace_steps
  (T : Type) (capacity : Z) (s : system T) (a a' : arc T) (v : T) :
  0 < capacity <= 2 ^ 30 ->
  reachable capacity s ->
  shared s = Alive a ->
  producer_holds s = None ->
  Z.land (_producer a) drop_flag = 0 ->
  sender.emplace a [_consumer a] v = (a', Returned true) ->
  exists acq s1,
    step s s1 /\ producer_holds s1 = Some acq /\
    step s1 {| shared := Alive a'; producer_holds := None;
               consumer_holds := consumer_holds s;
               sent := sent s ++ [v]; received := received s;
               producer_gone := producer_gone s;
               consumer_gone := consumer_gone s |}.
Proof.
  intros Hc Hreach Ha Hnone Halive Hrun. unfold sender.emplace in Hrun.
  destruct (producer_acquire a [_consumer a] 1) as [[acq rest]|] eqn:Hacq;
    [|discriminate].
  pose proof (acquire_single_rest _ _ _ _ _ _ _ Hacq) as ->.
  destruct (to_bool acq) eqn:Hb; cbn [negb] in Hrun; [|discriminate].
  injection Hrun as <-.
  assert (Hstep : step s {| shared := shared s; producer_holds := Some acq;
                            consumer_holds := consumer_holds s;
                            sent := sent s; received := received s;
                            producer_gone := producer_gone s;
                            consumer_gone := consumer_gone s |}).
  { eapply step_producer_acquire; eauto. concrete. }
  pose proof (reachable_step Hreach Hstep) as Hreach1.
  destruct (reachable_ok capacity Hc _ Hreach1) as (pending & _ & Hok).
  cbn [shared producer_holds] in Hok. rewrite Ha in Hok. cbv zeta in Hok.
  destruct Hok as (_ & Hpos & _ & _ & _ & (_ & Hbeg & Hbe & _) & _).
  apply acquire_single in Hacq as [_ Hacq].
  assert (Hgot : end_ acq - begin acq = 1).
  { assert (end_ acq <= begin acq + 1); [|lia].
    destruct Hpos as (Hwc & Hwp & _). subst acq.
    apply acquire_range_at_most; [assumption|]. concrete. }
  set (s1 := {| shared := shared s; producer_holds := Some acq;
                consumer_holds := consumer_holds s;
                sent := sent s; received := received s;
                producer_gone := producer_gone s;
                consumer_gone := consumer_gone s |}) in *.
  exists acq, s1. split; [exact Hstep|]. split; [reflexivity|].
  apply (@step_producer_release T s1 a acq [v]); try assumption.
  - reflexivity.
  - rewrite Hgot. reflexivity.
Qed.

(** In a reachable state, a [pop] that finds an element is an acquire step
    for one slot followed by the release step that moves the element out. *)
Lemma pop_steps
  (T : Type) (capacity : Z) (s : system T) (a a' : arc T) (x : T) :
  0 < capacity <= 2 ^ 30 ->
  reachable capacity s ->
  shared s = Alive a ->
  consumer_holds s = None ->
  Z.land (_consumer a) drop_flag = 0 ->
  receiver.pop a [_producer a] = (a', Returned (Some x)) ->
  exists acq s1,
    step s s1 /\ consumer_holds s1 = Some acq /\
    step s1 {| shared := Alive a'; producer_holds := producer_holds s;
               consumer_holds := None;
               sent := sent s; received := received s ++ [x];
               producer_gone := producer_gone s;
               consumer_gone := consumer_gone s |}.
Proof.
  intros Hc Hreach Ha Hnone Halive Hrun. unfold receiver.pop in Hrun.
  destruct (consumer_acquire a [_producer a] 1) as [[acq rest]|] eqn:Hacq;
    [|discriminate].
  pose proof (acquire_single_rest _ _ _ _ _ _ _ Hacq) as ->.
  destruct (to_bool acq) eqn:Hb; cbn [negb] in Hrun; [|discriminate].
  destruct (_data a !! begin acq) as [record|] eqn:Hrec; [|discriminate].
  injection Hrun as <- <-.
  assert (Hstep : step s {| shared := shared s;
                            producer_holds := producer_holds s;
                            consumer_holds := Some acq;
                            sent := sent s; received := received s;
                            producer_gone := producer_gone s;
                            consumer_gone := consumer_gone s |}).
  { eapply step_consumer_acquire; eauto. concrete. }
  pose proof (reachable_step Hreach Hstep) as Hreach1.
  destruct (reachable_ok capacity Hc _ Hreach1) as (pending & _ & Hok).
  cbn [shared consumer_holds] in Hok. rewrite Ha in Hok. cbv zeta in Hok.
  destruct Hok as (_ & Hpos & _ & _ & _ & _ & (_ & Hbeg & Hbe & _) & _).
  apply acquire_single in Hacq as [_ Hacq].
  assert (Hgot : end_ acq = begin acq + 1).
  { assert (end_ acq <= begin acq + 1); [|lia].
    destruct Hpos as (Hwc & Hwp & _). subst acq.
    apply acquire_range_at_most; [assumption|]. concrete. }
  set (s1 := {| shared := shared s; producer_holds := producer_holds s;
                consumer_holds := Some acq;
                sent := sent s; received := received s;
                producer_gone := producer_gone s;
                consumer_gone := consumer_gone s |}) in *.
  exists acq, s1. split; [exact Hstep|]. split; [reflexivity|].
  replace (delete (begin acq) (_data a))
    with (destroy (_data a) (begin acq) (end_ acq)).
  - apply (@step_consumer_release T s1 a acq [record]);
      try assumption; try reflexivity.
    rewrite Hgot. replace (begin acq + 1 - begin acq) with 1 by lia.
    change (Z.to_nat (wrap32 1)) with 1%nat. simpl. now rewrite Hrec.
  - unfold destroy. rewrite Hgot.
    replace (begin acq + 1 - begin acq) with 1 by lia. reflexivity.
Qed.

(** ** Waiting and disconnecting in reachable states *)

Section waiting.
Context {T : Type}.
Variable capacity : Z.
Hypothesis Hcapacity : 0 < capacity <= 2 ^ 30.
Variable s : system T.
Variable a : arc T.
Hypothesis Hreach : reachable capacity s.
Hypothesis Hshared : shared s = Alive a.

(** X16.  While neither side has dropped, the producer is left waiting by
    [acquire], whatever number of slots it asks for, exactly when the buffer
    is full. *)
Lemma producer_waits_iff_full slots :
  dropped (_producer a) = false -> dropped (_consumer a) = false ->
  producer_acquire a [_consumer a] slots = None <->
  distance capacity (_consumer a) (_producer a) = capacity.
Proof using All.
  intros Hdp Hdc.
  destruct (reachable_ok capacity Hcapacity s Hreach) as (pending & _ & Hok).
  rewrite Hshared in Hok. cbv zeta in Hok.
  destruct Hok as (_ & Hpos & _).
  destruct (distance_cases capacity _ _ ltac:(lia) Hpos) as [Hdist _].
  destruct Hpos as (Hwc & Hwp & Hvc & Hvp & Hord).
  unfold producer_acquire, acquire. cbn [acquire_wait].
  destruct (Z.eqb_spec (Z.lxor (_producer a) (_consumer a)) revolution_flag)
    as [Hx|Hx]; cbn [negb];
    rewrite lxor_revolution_flag in Hx by assumption; rewrite Hdist.
  - split; [intros _|reflexivity]. destruct Hx as (Hv & Hr & _).
    rewrite Hr, Hv. destruct (revolution (_consumer a)); simpl; lia.
  - split; [discriminate|]. intros Hfull. exfalso. apply Hx.
    destruct (revolution (_consumer a)), (revolution (_producer a));
      simpl in *; split_ands; try reflexivity; try congruence; lia.
Qed.

(** X17.  While neither side has dropped, the consumer is left waiting by
    [acquire], whatever number of slots it asks for, exactly when the buffer
    is empty. *)
Lemma consumer_waits_iff_empty slots :
  dropped (_producer a) = false -> dropped (_consumer a) = false ->
  consumer_acquire a [_producer a] slots = None <->
  distance capacity (_consumer a) (_producer a) = 0.
Proof using All.
  intros Hdp Hdc.
  destruct (reachable_ok capacity Hcapacity s Hreach) as (pending & _ & Hok).
  rewrite Hshared in Hok. cbv zeta in Hok.
  destruct Hok as (_ & Hpos & _).
  destruct (distance_cases capacity _ _ ltac:(lia) Hpos) as [Hdist _].
  destruct Hpos as (Hwc & Hwp & Hvc & Hvp & Hord).
  unfold consumer_acquire, acquire. cbn [acquire_wait].
  destruct (Z.eqb_spec (Z.lxor (_consumer a) (_producer a)) 0)
    as [Hx|Hx]; cbn [negb];
    rewrite lxor_zero in Hx by assumption; rewrite Hdist.
  - split; [intros _|reflexivity]. destruct Hx as (Hv & Hr & _).
    rewrite Hr, Hv, eqb_reflx. lia.
  - split; [discriminate|]. intros Hempty. exfalso. apply Hx.
    destruct (revolution (_consumer a)), (revolution (_producer a));
      simpl in *; split_ands; try reflexivity; try congruence; lia.
Qed.

(** X18.  The consumer is told that the channel is closed only after the
    producer has dropped and it has received everything that was sent. *)
Lemma consumer_closed_after_drain slots acq rest :
  1 <= slots <= position_mask ->
  consumer_acquire a [_producer a] slots = Some (acq, rest) ->
  to_bool acq = false ->
  dropped (_producer a) = true /\ received s = sent s.
Proof using All.
  intros Hs Hacq Hb.
  destruct (reachable_ok capacity Hcapacity s Hreach)
    as (pending & Hsent & Hok).
  rewrite Hshared in Hok. cbv zeta in Hok.
  destruct Hok as (Hcap & Hpos & Hpl & _).
  destruct (distance_cases capacity _ _ ltac:(lia) Hpos) as [Hdist _].
  destruct Hpos as (Hwc & Hwp & Hvc & Hvp & Hord).
  unfold consumer_acquire in Hacq.
  pose proof (acquire_single_rest _ _ _ _ _ _ _ Hacq) as ->.
  apply acquire_single in Hacq as [_ ->].
  destruct (peer_dropped (_consumer a) (_producer a) 0) eqn:Hpd.
  - apply peer_dropped_fields in Hpd as [Hd [Hw|(Hv & Hr & _)]];
      [lia| |assumption|assumption].
    split; [assumption|].
    rewrite Hdist, Hv, Hr, eqb_reflx in Hpl.
    destruct pending; simpl in Hpl; [|lia].
    now rewrite Hsent, app_nil_r.
  - rewrite acquire_range_open_nonempty in Hb by (assumption || lia).
    discriminate.
Qed.

End waiting.

Lemma producer_waits_iff_full_witness :
  producer_acquire example_arc [_consumer example_arc] 1 = None <->
  distance 2 (_consumer example_arc) (_producer example_arc) = 2.
Proof.
  apply (producer_waits_iff_full 2 ltac:(lia) example_system example_arc
           example_reachable eq_refl 1); reflexivity.
Defined.

Lemma consumer_waits_iff_empty_witness :
  consumer_acquire example_arc [_producer example_arc] 1 = None <->
  distance 2 (_consumer example_arc) (_producer example_arc) = 0.
Proof.
  apply (consumer_waits_iff_empty 2 ltac:(lia) example_system example_arc
           example_reachable eq_refl 1); reflexivity.
Defined.

Lemma example_closed_reachable : reachable 2 example_closed.
Proof.
  pose (a1 := {| _data := ∅; _capacity := 2; _eitherSideDropped := false;
                 _producer := drop_flag; _consumer := 0 |} : arc nat).
  pose (s1 := {| shared := Alive a1; producer_holds := None;
                 consumer_holds := None; sent := []; received := [];
                 producer_gone := false; consumer_gone := false |}).
  assert (H1 : reachable 2 s1).
  { apply (@reachable_step nat 2 (init nat 2) s1); [apply reachable_init|].
    apply (@step_producer_drop_store nat (init nat 2) (new_arc nat 2));
      reflexivity. }
  apply (@reachable_step nat 2 s1 example_closed H1).
  apply (@step_producer_drop_exchange nat s1 a1); concrete.
Qed.

Lemma consumer_closed_after_drain_witness :
  dropped (_producer example_closed_arc) = true /\
  received example_closed = sent example_closed.
Proof.
  apply (consumer_closed_after_drain 2 ltac:(lia) example_closed
           example_closed_arc example_closed_reachable eq_refl 1
           empty_acquisition []).
  - concrete.
  - reflexivity.
  - reflexivity.
Defined.

(** * Further properties of the code *)

(** ** Handles and the heap *)

Lemma drop_first (T : Type) (sd : side) (a : arc T) :
  _eitherSideDropped a = false ->
  details.drop sd a
  = Alive (with_eitherSideDropped
             (store sd a (Z.lor (load sd a) drop_flag)) true).
Proof. intros H. rewrite drop_result, H. reflexivity. Qed.

Lemma drop_second (T : Type) (sd : side) (a : arc T) :
  _eitherSideDropped a = true ->
  exists ranges storage, details.drop sd a = Deleted ranges storage.
Proof. intros H. rewrite drop_result, H. eauto. Qed.

(** X1.  The two handles that [channel] returns for a capacity other than 0
    point to one location that was free.  Destroying one handle leaves the
    state in place, with its own drop flag and [_eitherSideDropped] set and
    everything else untouched; destroying the other one as well, in either
    order, gives back exactly the heap from before the call. *)
Theorem channel_handles_release_the_state
  (T : Type) (h : gmap loc (arc T)) (capacity : Z) :
  capacity <> 0 ->
  exists l s r h1,
    channel h capacity = (h1, Returned (s, r)) /\
    h !! l = None /\ h1 = <[l := new_arc T capacity]> h /\
    sender.drop h1 s
    = <[l := {| _data := ∅; _capacity := capacity;
                _eitherSideDropped := true;
                _producer := drop_flag; _consumer := 0 |}]> h /\
    receiver.drop h1 r
    = <[l := {| _data := ∅; _capacity := capacity;
                _eitherSideDropped := true;
                _producer := 0; _consumer := drop_flag |}]> h /\
    receiver.drop (sender.drop h1 s) r = h /\
    sender.drop (receiver.drop h1 r) s = h.
Proof.
  intros Hc. unfold channel.
  destruct (Z.eqb_spec capacity 0); [contradiction|].
  set (l := fresh (dom h)).
  assert (Hl : h !! l = None) by (apply not_elem_of_dom, is_fresh).
  exists l, {| sender._arc := Some l |}, {| receiver._arc := Some l |},
    (<[l := new_arc T capacity]> h).
  split; [reflexivity|]. split; [assumption|]. split; [reflexivity|].
  unfold sender.drop, receiver.drop. cbn [sender._arc receiver._arc].
  rewrite !lookup_insert_eq.
  unfold drop_producer, drop_consumer.
  rewrite !drop_first by reflexivity.
  cbn [load store new_arc with_producer with_consumer with_eitherSideDropped
       _data _capacity _eitherSideDropped _producer _consumer].
  rewrite !Z.lor_0_l, !insert_insert_eq, !lookup_insert_eq.
  split; [reflexivity|]. split; [reflexivity|].
  split;
    match goal with
    | |- context [details.drop ?sd ?x] =>
        destruct (drop_second T sd x eq_refl) as (ranges & storage & ->)
    end;
    now rewrite delete_insert_id.
Qed.

Lemma channel_handles_release_the_state_witness :
  exists l s r h1,
    channel (∅ : gmap loc (arc nat)) 4 = (h1, Returned (s, r)) /\
    (∅ : gmap loc (arc nat)) !! l = None /\ h1 = <[l := new_arc nat 4]> ∅ /\
    sender.drop h1 s
    = <[l := {| _data := ∅; _capacity := 4;
                _eitherSideDropped := true;
                _producer := drop_flag; _consumer := 0 |}]> ∅ /\
    receiver.drop h1 r
    = <[l := {| _data := ∅; _capacity := 4;
                _eitherSideDropped := true;
                _producer := 0; _consumer := drop_flag |}]> ∅ /\
    receiver.drop (sender.drop h1 s) r = ∅ /\
    sender.drop (receiver.drop h1 r) s = ∅.
Proof.
  apply (channel_handles_release_the_state nat ∅ 4). discriminate.
Defined.

(** X2.  For a state that neither side has dropped, at any location of the
    heap: destroying the sender and the receiver, in either order, removes
    exactly that location, and the first destruction only sets the drop
    flag of its side and [_eitherSideDropped].  A handle that holds
    [nullptr] changes nothing when it is destroyed. *)
Theorem handles_delete_the_state_once
  (T : Type) (h : gmap loc (arc T)) (l : loc) (a : arc T) :
  h !! l = Some a ->
  _eitherSideDropped a = false ->
  let s := {| sender._arc := Some l |} in
  let r := {| receiver._arc := Some l |} in
  sender.drop h s
  = <[l := with_eitherSideDropped
             (with_producer a (Z.lor (_producer a) drop_flag)) true]> h /\
  receiver.drop h r
  = <[l := with_eitherSideDropped
             (with_consumer a (Z.lor (_consumer a) drop_flag)) true]> h /\
  receiver.drop (sender.drop h s) r = delete l h /\
  sender.drop (receiver.drop h r) s = delete l h /\
  sender.drop h {| sender._arc := None |} = h /\
  receiver.drop h {| receiver._arc := None |} = h.
Proof.
  intros Hl Hesd s r. subst s r.
  unfold sender.drop, receiver.drop. cbn [sender._arc receiver._arc].
  rewrite Hl. unfold drop_producer, drop_consumer.
  rewrite !drop_first by assumption. cbn [load store].
  rewrite !lookup_insert_eq.
  split; [reflexivity|]. split; [reflexivity|].
  split; [|split; [|split; reflexivity]];
    match goal with
    | |- context [details.drop ?sd ?x] =>
        destruct (drop_second T sd x eq_refl) as (ranges & storage & ->)
    end;
    now rewrite delete_insert_eq.
Qed.

Lemma handles_delete_the_state_once_witness :
  let h := <[3%positive := example_arc]> (<[5%positive := new_arc nat 4]> ∅) in
  let s := {| sender._arc := Some 3%positive |} in
  let r := {| receiver._arc := Some 3%positive |} in
  sender.drop h s
  = <[3%positive := with_eitherSideDropped
             (with_producer example_arc
                (Z.lor (_producer example_arc) drop_flag)) true]> h /\
  receiver.drop h r
  = <[3%positive := with_eitherSideDropped
             (with_consumer example_arc
                (Z.lor (_consumer example_arc) drop_flag)) true]> h /\
  receiver.drop (sender.drop h s) r = delete 3%positive h /\
  sender.drop (receiver.drop h r) s = delete 3%positive h /\
  sender.drop h {| sender._arc := None |} = h /\
  receiver.drop h {| receiver._arc := None |} = h.
Proof.
  apply (handles_delete_the_state_once nat
           (<[3%positive := example_arc]> (<[5%positive := new_arc nat 4]> ∅))
           3%positive example_arc); reflexivity.
Defined.

(** ** Waiting *)

(** X3.  Whatever the two position words are, the producer and the consumer
    are never both left waiting by a load of the other's word: the channel
    cannot deadlock on its two wait loops. *)
Theorem never_both_waiting (T : Type) (a : arc T) (slots slots' : Z) :
  ~ (producer_acquire a [_consumer a] slots = None /\
     consumer_acquire a [_producer a] slots' = None).
Proof.
  unfold producer_acquire, consumer_acquire, acquire. cbn [acquire_wait].
  destruct (Z.eqb_spec (Z.lxor (_producer a) (_consumer a)) revolution_flag)
    as [Hp|Hp]; cbn [negb]; [|intros [H _]; discriminate H].
  destruct (Z.eqb_spec (Z.lxor (_consumer a) (_producer a)) 0)
    as [Hc|Hc]; cbn [negb]; [|intros [_ H]; discriminate H].
  exfalso. rewrite Z.lxor_comm, Hc in Hp. discriminate Hp.
Qed.

(** X4.  The wait loop of [acquire] passes over every load that leaves the
    caller waiting and decides on the first load that does not: loads that
    repeat a waiting value (spurious wake-ups) do not change the result,
    and the call is still waiting exactly when every load leaves it so. *)
Theorem acquire_skips_waiting_loads
  (capacity mine waitMask slots : Z) (waited theirs : list Z) :
  Forall (fun t => Z.lxor mine t = waitMask) waited ->
  acquire capacity mine (waited ++ theirs) waitMask slots
  = acquire capacity mine theirs waitMask slots /\
  (acquire capacity mine waited waitMask slots = None) /\
  (forall t rest, Z.lxor mine t <> waitMask ->
     acquire capacity mine (waited ++ t :: rest) waitMask slots
     = Some (acquire_range capacity mine t waitMask slots, rest)) /\
  (acquire capacity mine theirs waitMask slots = None <->
   Forall (fun t => Z.lxor mine t = waitMask) theirs).
Proof.
  intros Hw.
  assert (Hskip : forall l, acquire_wait mine waitMask (waited ++ l)
                            = acquire_wait mine waitMask l).
  { intros l. induction Hw as [|t waited Ht _ IH]; [reflexivity|].
    simpl. apply Z.eqb_eq in Ht. rewrite Ht. exact IH. }
  assert (Hnone : forall l, acquire_wait mine waitMask l = None <->
                            Forall (fun t => Z.lxor mine t = waitMask) l).
  { induction l as [|t l IH]; simpl.
    - split; [constructor|reflexivity].
    - destruct (Z.eqb_spec (Z.lxor mine t) waitMask) as [He|Hne]; simpl.
      + rewrite IH. split; [now constructor|now inversion 1].
      + split; [discriminate|]. inversion 1; contradiction. }
  assert (Hacq : forall l, acquire capacity mine l waitMask slots = None <->
                           acquire_wait mine waitMask l = None).
  { intros l. unfold acquire.
    destruct (acquire_wait mine waitMask l) as [[? ?]|];
      split; (discriminate || reflexivity). }
  split_ands.
  - unfold acquire. now rewrite Hskip.
  - apply Hacq, Hnone, Hw.
  - intros t rest Ht. unfold acquire. rewrite Hskip. simpl.
    apply Z.eqb_neq in Ht. now rewrite Ht.
  - rewrite Hacq. apply Hnone.
Qed.

Lemma acquire_skips_waiting_loads_witness :
  acquire 4 2 ([pack 2 true false; pack 2 true false] ++ [1; 3])
    revolution_flag 2
  = acquire 4 2 [1; 3] revolution_flag 2 /\
  (acquire 4 2 [pack 2 true false; pack 2 true false] revolution_flag 2
   = None) /\
  (forall t rest, Z.lxor 2 t <> revolution_flag ->
     acquire 4 2 ([pack 2 true false; pack 2 true false] ++ t :: rest)
       revolution_flag 2
     = Some (acquire_range 4 2 t revolution_flag 2, rest)) /\
  (acquire 4 2 [1; 3] revolution_flag 2 = None <->
   Forall (fun t => Z.lxor 2 t = revolution_flag) [1; 3]).
Proof.
  apply (acquire_skips_waiting_loads 4 2 revolution_flag 2
           [pack 2 true false; pack 2 true false] [1; 3]).
  repeat constructor.
Defined.

(** ** The ranges the two sides hold *)

(** X5.  In every reachable state, the slots of a range held by the
    producer hold no object and lie in the buffer, the slots of a range
    held by the consumer all hold an object, and when both sides hold a
    range the two ranges do not overlap: no slot is ever written by one
    thread while the other may read it. *)
Theorem held_ranges_are_exclusive
  (T : Type) (capacity : Z) (s : system T) (a : arc T) :
  0 < capacity <= 2 ^ 30 ->
  reachable capacity s ->
  shared s = Alive a ->
  (forall ap, producer_holds s = Some ap ->
     0 <= begin ap < end_ ap /\ end_ ap <= capacity /\
     forall k, begin ap <= k < end_ ap -> _data a !! k = None) /\
  (forall ac, consumer_holds s = Some ac ->
     0 <= begin ac < end_ ac /\ end_ ac <= capacity /\
     forall k, begin ac <= k < end_ ac -> is_Some (_data a !! k)) /\
  (forall ap ac, producer_holds s = Some ap -> consumer_holds s = Some ac ->
     end_ ap <= begin ac \/ end_ ac <= begin ap).
Proof.
  intros Hc Hreach Ha.
  destruct (reachable_ok capacity Hc s Hreach) as (pending & _ & Hok).
  rewrite Ha in Hok. cbv zeta in Hok.
  destruct Hok as (_ & Hpos & Hpl & [Hin _] & _ & Hp & Hcn & _).
  destruct (distance_cases capacity _ _ ltac:(lia) Hpos) as [Hdist Hrange].
  destruct Hpos as (_ & _ & Hvc & Hvp & Hord).
  assert (Hprod : forall ap, producer_holds s = Some ap ->
     0 <= begin ap < end_ ap /\ end_ ap <= capacity /\
     forall k, begin ap <= k < end_ ap -> _data a !! k = None).
  { intros ap Hap. rewrite Hap in Hp.
    destruct Hp as (_ & Hb & Hbe & Hroom & _).
    split; [lia|]. split; [lia|]. intros k Hk.
    set (i := Z.of_nat (length pending) + (k - begin ap)).
    pose proof (ring_slot_cases capacity (value (_consumer a)) i) as Hcs.
    specialize (Hin i ltac:(subst i; lia)).
    replace (ring_slot capacity (value (_consumer a)) i) with k in Hin.
    - rewrite Hin. apply lookup_ge_None. subst i. lia.
    - subst i. rewrite Hpl, Hdist in *.
      destruct (revolution (_consumer a)), (revolution (_producer a));
        simpl in *; lia. }
  assert (Hcons : forall ac, consumer_holds s = Some ac ->
     0 <= begin ac < end_ ac /\ end_ ac <= capacity /\
     forall k, begin ac <= k < end_ ac -> is_Some (_data a !! k)).
  { intros ac Hac. rewrite Hac in Hcn.
    destruct Hcn as (_ & Hb & Hbe & Hroom & _).
    split; [lia|]. split; [lia|]. intros k Hk.
    pose proof (ring_slot_cases capacity (value (_consumer a))
                  (k - begin ac)) as Hcs.
    specialize (Hin (k - begin ac) ltac:(lia)).
    replace (ring_slot capacity (value (_consumer a)) (k - begin ac))
      with k in Hin by lia.
    rewrite Hin. apply lookup_lt_is_Some. lia. }
  split; [exact Hprod|]. split; [exact Hcons|].
  intros ap ac Hap Hac.
  destruct (Hprod ap Hap) as (Hbp & _ & Hnone).
  destruct (Hcons ac Hac) as (Hbc & _ & Hsome).
  destruct (Z.le_gt_cases (end_ ap) (begin ac)) as [|Hgt1]; [now left|].
  destruct (Z.le_gt_cases (end_ ac) (begin ap)) as [|Hgt2]; [now right|].
  exfalso. set (k := Z.max (begin ap) (begin ac)).
  specialize (Hnone k ltac:(subst k; lia)).
  destruct (Hsome k ltac:(subst k; lia)) as [x Hx]. congruence.
Qed.

Lemma example_busy_reachable : reachable 2 example_busy.
Proof.
  pose (acq1 := {| begin := 0; end_ := 1; next := Z.lor 1 revolution_flag |}).
  pose (acq2 := {| begin := 1; end_ := 2; next := revolution_flag |}).
  pose (s1 := {| shared := Alive example_arc; producer_holds := Some acq1;
                 consumer_holds := None; sent := [7; 8]%nat;
                 received := [7%nat];
                 producer_gone := false; consumer_gone := false |}).
  assert (H1 : reachable 2 s1).
  { apply (@reachable_step nat 2 example_system s1 example_reachable).
    apply (@step_producer_acquire nat example_system example_arc 1 acq1);
      concrete. }
  apply (@reachable_step nat 2 s1 example_busy H1).
  apply (@step_consumer_acquire nat s1 example_arc 1 acq2); concrete.
Qed.

Lemma held_ranges_are_exclusive_witness :
  (forall ap, producer_holds example_busy = Some ap ->
     0 <= begin ap < end_ ap /\ end_ ap <= 2 /\
     forall k, begin ap <= k < end_ ap -> _data example_arc !! k = None) /\
  (forall ac, consumer_holds example_busy = Some ac ->
     0 <= begin ac < end_ ac /\ end_ ac <= 2 /\
     forall k, begin ac <= k < end_ ac -> is_Some (_data example_arc !! k)) /\
  (forall ap ac, producer_holds example_busy = Some ap ->
     consumer_holds example_busy = Some ac ->
     end_ ap <= begin ac \/ end_ ac <= begin ap).
Proof.
  apply (held_ranges_are_exclusive nat 2 example_busy example_arc).
  - lia.
  - exact example_busy_reachable.
  - reflexivity.
Defined.

(** ** One round of a batch call on an otherwise idle channel *)

Lemma uninitialized_move_n_take (T : Type) (src : list T) n b
  (d : gmap Z T) :
  (n <= length src)%nat ->
  snd (uninitialized_move_n src n b d)
  = snd (uninitialized_move_n (take n src) (length (take n src)) b d).
Proof.
  intros Hn. apply map_eq. intros k.
  rewrite !uninitialized_move_n_lookup by (rewrite ?length_take; lia).
  rewrite length_take_le by assumption.
  case_decide; [|reflexivity].
  symmetry. apply lookup_take_lt. lia.
Qed.

Section idle.
Context {T : Type}.
Variable capacity : Z.
Hypothesis Hcapacity : 0 < capacity <= 2 ^ 30.

Lemma producer_round (s : system T) (a : arc T) slots rest (src : list T) :
  reachable capacity s ->
  shared s = Alive a ->
  producer_holds s = None ->
  dropped (_producer a) = false -> dropped (_consumer a) = false ->
  1 <= slots <= position_mask ->
  slots <= Z.of_nat (length src) ->
  distance capacity (_consumer a) (_producer a) < capacity ->
  exists acq s',
    producer_acquire a (_consumer a :: rest) slots = Some (acq, rest) /\
    to_bool acq = true /\
    1 <= end_ acq - begin acq <= slots /\
    end_ acq - begin acq
    <= capacity - distance capacity (_consumer a) (_producer a) /\
    begin acq = value (_producer a) /\
    reachable capacity s' /\
    shared s'
    = Alive (producer_release
               (with_data a
                  (snd (uninitialized_move_n src
                          (Z.to_nat (end_ acq - begin acq)) (begin acq)
                          (_data a)))) acq) /\
    producer_holds s' = None /\ consumer_holds s' = consumer_holds s /\
    sent s' = sent s ++ take (Z.to_nat (end_ acq - begin acq)) src /\
    received s' = received s /\
    dropped (next acq) = false /\
    distance capacity (_consumer a) (next acq)
    = distance capacity (_consumer a) (_producer a)
      + (end_ acq - begin acq).
Proof using Hcapacity.
  intros Hreach Ha Hnone Hdp Hdc Hs Hsrc Hroom.
  destruct (reachable_ok capacity Hcapacity s Hreach)
    as (pending & Hsent & Hok).
  rewrite Ha in Hok. cbv zeta in Hok.
  destruct Hok as (Hcap & Hpos & Hpl & _).
  destruct (distance_cases capacity _ _ ltac:(lia) Hpos) as [Hdist Hrange].
  pose proof Hpos as (Hwc & Hwp & Hvc & Hvp & Hord).
  set (acq := acquire_range capacity (_producer a) (_consumer a)
                revolution_flag slots).
  assert (Hx : Z.lxor (_producer a) (_consumer a) <> revolution_flag).
  { rewrite lxor_revolution_flag by assumption. intros (Hv & Hr & _).
    rewrite Hdist, Hv, Hr in Hroom.
    destruct (revolution (_consumer a)); simpl in Hroom; lia. }
  assert (Hacq : forall l, producer_acquire a (_consumer a :: l) slots
                           = Some (acq, l)).
  { intros l. unfold producer_acquire, acquire. cbn [acquire_wait].
    apply Z.eqb_neq in Hx. rewrite Hx, Hcap. reflexivity. }
  assert (Hopen : peer_dropped (_producer a) (_consumer a) revolution_flag
                  = false).
  { apply not_true_iff_false. intros Hpd.
    apply peer_dropped_fields in Hpd as [Hd _]; [congruence| |]; assumption. }
  assert (Hb : to_bool acq = true)
    by (apply acquire_range_open_nonempty; (assumption || lia)).
  set (s1 := {| shared := shared s; producer_holds := Some acq;
                consumer_holds := consumer_holds s;
                sent := sent s; received := received s;
                producer_gone := producer_gone s;
                consumer_gone := consumer_gone s |}).
  assert (Hstep1 : step s s1).
  { apply (@step_producer_acquire T s a slots acq); try assumption.
    - now apply alive_not_dropped.
    - apply Hacq. }
  pose proof (reachable_step Hreach Hstep1) as Hreach1.
  destruct (reachable_ok capacity Hcapacity s1 Hreach1) as (? & _ & Hok1).
  cbn [shared producer_holds s1] in Hok1. rewrite Ha in Hok1.
  cbv zeta in Hok1.
  destruct Hok1 as (_ & _ & _ & _ & _ & (_ & Hbeg & Hbe & Hgot & Hnext) & _).
  assert (Hmost : end_ acq <= begin acq + slots)
    by (apply acquire_range_at_most; [assumption|lia]).
  set (got := end_ acq - begin acq) in *.
  set (vs := take (Z.to_nat got) src).
  assert (Hlen : length vs = Z.to_nat got)
    by (subst vs; apply length_take_le; lia).
  set (s2 := {| shared :=
                  Alive (producer_release
                           (with_data a
                              (snd (uninitialized_move_n vs (length vs)
                                      (begin acq) (_data a)))) acq);
                producer_holds := None; consumer_holds := consumer_holds s1;
                sent := sent s1 ++ vs; received := received s1;
                producer_gone := producer_gone s1;
                consumer_gone := consumer_gone s1 |}).
  assert (Hstep2 : step s1 s2).
  { apply (@step_producer_release T s1 a acq vs); try assumption.
    - reflexivity.
    - rewrite Hlen. subst got. now rewrite wrap32_small by lia. }
  pose proof (reachable_step Hreach1 Hstep2) as Hreach2.
  destruct (next_position_fields capacity Hcapacity (_producer a) (end_ acq)
              ltac:(lia)) as (Hnw & Hnv & Hnr & Hnd).
  rewrite <- Hnext in Hnw, Hnv, Hnr, Hnd.
  exists acq, s2. split_ands; try assumption; try reflexivity; try lia.
  - apply Hacq.
  - cbn [shared s2]. subst vs. rewrite <- uninitialized_move_n_take by lia.
    reflexivity.
  - assert (Hpos' : positions_ok capacity (_consumer a) (next acq)).
    { destruct (reachable_ok capacity Hcapacity s2 Hreach2) as (? & _ & Hok2).
      cbn [shared s2] in Hok2. cbv zeta in Hok2.
      destruct Hok2 as (_ & Hpos2 & _). exact Hpos2. }
    destruct (distance_cases capacity _ _ ltac:(lia) Hpos') as [Hdist' _].
    rewrite Hdist', Hnv, Hnr. rewrite Hdist in Hgot |- *. subst got.
    destruct (Z.eqb_spec (end_ acq) capacity);
      destruct (revolution (_consumer a)), (revolution (_producer a));
      simpl in *; lia.
Qed.

Lemma consumer_round (s : system T) (a : arc T) slots rest pending :
  reachable capacity s ->
  shared s = Alive a ->
  consumer_holds s = None ->
  dropped (_consumer a) = false ->
  1 <= slots <= position_mask ->
  sent s = received s ++ pending ->
  pending <> [] ->
  exists acq s',
    consumer_acquire a (_producer a :: rest) slots = Some (acq, rest) /\
    to_bool acq = true /\
    1 <= end_ acq - begin acq <= slots /\
    end_ acq - begin acq <= Z.of_nat (length pending) /\
    move_out (_data a) (begin acq) (Z.to_nat (end_ acq - begin acq))
    = Some (take (Z.to_nat (end_ acq - begin acq)) pending) /\
    reachable capacity s' /\
    shared s'
    = Alive (consumer_release
               (with_data a (destroy (_data a) (begin acq) (end_ acq))) acq) /\
    producer_holds s' = producer_holds s /\ consumer_holds s' = None /\
    sent s' = sent s /\
    received s'
    = received s ++ take (Z.to_nat (end_ acq - begin acq)) pending /\
    dropped (next acq) = false.
Proof using Hcapacity.
  intros Hreach Ha Hnone Hdc Hs Hsent Hne.
  destruct (reachable_ok capacity Hcapacity s Hreach)
    as (pending' & Hsent' & Hok).
  assert (pending' = pending) as ->
    by (rewrite Hsent in Hsent'; now apply app_inv_head in Hsent').
  rewrite Ha in Hok. cbv zeta in Hok.
  destruct Hok as (Hcap & Hpos & Hpl & Hdata & _).
  destruct (distance_cases capacity _ _ ltac:(lia) Hpos) as [Hdist Hrange].
  pose proof Hpos as (Hwc & Hwp & Hvc & Hvp & Hord).
  assert (Hd : 0 < distance capacity (_consumer a) (_producer a)).
  { destruct pending; [contradiction|]. simpl in Hpl. lia. }
  assert (Hdiff : ~ (value (_consumer a) = value (_producer a) /\
                     revolution (_consumer a) = revolution (_producer a))).
  { intros [Hv Hr]. rewrite Hdist, Hv, Hr, eqb_reflx in Hd. lia. }
  set (acq := acquire_range capacity (_consumer a) (_producer a) 0 slots).
  assert (Hx : Z.lxor (_consumer a) (_producer a) <> 0).
  { rewrite lxor_zero by assumption. tauto. }
  assert (Hacq : forall l, consumer_acquire a (_producer a :: l) slots
                           = Some (acq, l)).
  { intros l. unfold consumer_acquire, acquire. cbn [acquire_wait].
    apply Z.eqb_neq in Hx. rewrite Hx, Hcap. reflexivity. }
  assert (Hopen : peer_dropped (_consumer a) (_producer a) 0 = false).
  { apply not_true_iff_false. intros Hpd.
    apply peer_dropped_fields in Hpd as [_ [Hw|(Hv & Hr & _)]];
      [lia|tauto|assumption|assumption]. }
  assert (Hb : to_bool acq = true)
    by (apply acquire_range_open_nonempty; (assumption || lia)).
  set (s1 := {| shared := shared s; producer_holds := producer_holds s;
                consumer_holds := Some acq;
                sent := sent s; received := received s;
                producer_gone := producer_gone s;
                consumer_gone := consumer_gone s |}).
  assert (Hstep1 : step s s1).
  { apply (@step_consumer_acquire T s a slots acq); try assumption.
    - now apply alive_not_dropped.
    - apply Hacq. }
  pose proof (reachable_step Hreach Hstep1) as Hreach1.
  destruct (reachable_ok capacity Hcapacity s1 Hreach1) as (? & _ & Hok1).
  cbn [shared consumer_holds s1] in Hok1. rewrite Ha in Hok1.
  cbv zeta in Hok1.
  destruct Hok1 as (_ & _ & _ & _ & _ & _ & (_ & Hbeg & Hbe & Hgot & Hnext)
                    & _).
  assert (Hmost : end_ acq <= begin acq + slots)
    by (apply acquire_range_at_most; [assumption|lia]).
  rewrite <- Hpl in Hgot.
  assert (Hsome : is_Some (move_out (_data a) (begin acq)
                             (Z.to_nat (end_ acq - begin acq)))).
  { apply move_out_is_Some. intros j Hj. destruct Hdata as [Hin _].
    pose proof (ring_slot_cases capacity (value (_consumer a))
                  (j - begin acq)) as Hcj.
    specialize (Hin (j - begin acq) ltac:(lia)).
    replace (ring_slot capacity (value (_consumer a)) (j - begin acq))
      with j in Hin by lia.
    rewrite Hin. apply lookup_lt_is_Some. lia. }
  destruct Hsome as [vs Hvs].
  assert (Hvs' := Hvs). rewrite Hbeg in Hvs'.
  destruct (holds_pending_read capacity Hcapacity (_data a)
              (value (_consumer a)) pending vs (end_ acq))
    as (Htake & _); try assumption; try lia.
  rewrite <- Hbeg in Htake. subst vs.
  set (got := end_ acq - begin acq) in *.
  set (s2 := {| shared :=
                  Alive (consumer_release
                           (with_data a
                              (destroy (_data a) (begin acq) (end_ acq))) acq);
                producer_holds := producer_holds s1; consumer_holds := None;
                sent := sent s1;
                received := received s1 ++ take (Z.to_nat got) pending;
                producer_gone := producer_gone s1;
                consumer_gone := consumer_gone s1 |}).
  assert (Hstep2 : step s1 s2).
  { apply (@step_consumer_release T s1 a acq (take (Z.to_nat got) pending));
      try assumption; try reflexivity.
    fold got. now rewrite wrap32_small by lia. }
  pose proof (reachable_step Hreach1 Hstep2) as Hreach2.
  destruct (next_position_fields capacity Hcapacity (_consumer a) (end_ acq)
              ltac:(lia)) as (_ & _ & _ & Hnd).
  rewrite <- Hnext in Hnd.
  exists acq, s2. split_ands; try assumption; try reflexivity; try lia.
  apply Hacq.
Qed.

Lemma acquire_wait_all_waiting mine waitMask c (theirs : list Z) :
  Z.lxor mine c = waitMask -> Forall (eq c) theirs ->
  acquire_wait mine waitMask theirs = None.
Proof using Type.
  clear Hcapacity.
  intros Hx Hall. induction Hall as [|t theirs <- _ IH]; [reflexivity|].
  simpl. apply Z.eqb_eq in Hx. now rewrite Hx.
Qed.

(** [move_n] while the consumer does nothing: every load returns the same
    consumer position. *)
Lemma move_n_loop_idle fuel :
  forall (s : system T) (a : arc T) theirs src count log,
    reachable capacity s ->
    shared s = Alive a ->
    producer_holds s = None ->
    dropped (_producer a) = false -> dropped (_consumer a) = false ->
    Forall (eq (_consumer a)) theirs ->
    0 <= count <= position_mask ->
    count <= Z.of_nat (length src) ->
    Z.min count (capacity - distance capacity (_consumer a) (_producer a))
    <= Z.of_nat (length theirs) ->
    (length theirs <= fuel)%nat ->
    exists a' rounds s',
      sender.move_n_loop fuel a theirs src count log
      = (a', log ++ rounds,
         if count <=? capacity - distance capacity (_consumer a) (_producer a)
         then Returned (drop (Z.to_nat count) src, true) else Parked) /\
      reachable capacity s' /\ shared s' = Alive a' /\
      producer_holds s' = None /\ consumer_holds s' = consumer_holds s /\
      sent s'
      = sent s ++
        take (Z.to_nat
                (Z.min count
                   (capacity
                    - distance capacity (_consumer a) (_producer a)))) src /\
      received s' = received s.
Proof using Hcapacity.
  induction fuel as [|fuel IH];
    intros s a theirs src count log Hreach Ha Hnone Hdp Hdc Hall Hcount Hsrc
      Hloads Hfuel.
  all: destruct (reachable_ok capacity Hcapacity s Hreach)
         as (pending & _ & Hok);
       rewrite Ha in Hok; cbv zeta in Hok;
       destruct Hok as (Hcap & Hpos & _);
       destruct (distance_cases capacity _ _ ltac:(lia) Hpos)
         as [Hdist Hrange];
       pose proof Hpos as (Hwc & Hwp & Hvc & Hvp & Hord).
  all: set (free := capacity
                    - distance capacity (_consumer a) (_producer a)) in *.
  all: cbn [sender.move_n_loop].
  all: destruct (Z.eqb_spec count 0) as [->|Hne].
  1, 3: exists a, [], s; rewrite app_nil_r;
        destruct (Z.leb_spec 0 free); [|lia];
        rewrite Z.min_l by lia; simpl; rewrite app_nil_r; auto 10.
  - (* no fuel, hence no load: the buffer is full *)
    destruct theirs; [|simpl in Hfuel; lia]. simpl in Hloads.
    exists a, [], s. rewrite app_nil_r.
    destruct (Z.leb_spec count free); [lia|].
    replace (Z.min count free) with 0 by lia. simpl. rewrite app_nil_r.
    auto 10.
  - destruct (Z.eq_dec free 0) as [Hfull|Hroom].
    + (* full: every load leaves the producer waiting *)
      assert (Hx : Z.lxor (_producer a) (_consumer a) = revolution_flag).
      { apply lxor_revolution_flag; try assumption.
        subst free. rewrite Hdist in Hfull.
        destruct (revolution (_consumer a)), (revolution (_producer a));
          simpl in *; split_ands; try reflexivity; try congruence; lia. }
      unfold producer_acquire, acquire.
      rewrite (acquire_wait_all_waiting _ _ (_consumer a)) by assumption.
      exists a, [], s. rewrite app_nil_r.
      destruct (Z.leb_spec count free); [lia|].
      replace (Z.min count free) with 0 by lia. simpl. rewrite app_nil_r.
      auto 10.
    + destruct theirs as [|c rest]; [simpl in Hloads; lia|].
      apply Forall_cons in Hall as [<- Hall].
      rewrite position_mask_eq in Hcount.
      rewrite wrap32_small by lia.
      destruct (producer_round s a count rest src) as
        (acq & s1 & Hacq & Hb & Hgot & Hgf & Hbeg & Hreach1 & Ha1 & Hn1 & Hc1
         & Hs1 & Hr1 & Hnd & Hd1); try assumption;
        try (rewrite position_mask_eq; lia); try (subst free; lia).
      rewrite Hacq, Hb. cbn [negb].
      rewrite wrap32_small by lia. rewrite wrap_size_t_small by lia.
      rewrite (surjective_pairing (uninitialized_move_n _ _ _ _)).
      rewrite uninitialized_move_n_fst.
      set (got := end_ acq - begin acq) in *.
      set (a1 := producer_release _ acq) in *.
      destruct (IH s1 a1 rest (drop (Z.to_nat got) src) (count - got)
                  (log ++ [acq]))
        as (a' & rounds & s' & Hrun & Hreach' & Ha' & Hn' & Hc' & Hs' & Hr');
        try assumption; subst a1;
        cbn [producer_release with_producer with_data _producer _consumer];
        try assumption.
      * rewrite position_mask_eq. lia.
      * rewrite length_drop. lia.
      * rewrite Hd1. simpl in Hloads. lia.
      * simpl in Hfuel. lia.
      * cbn [producer_release with_producer with_data _producer _consumer]
          in *.
        rewrite Hd1 in *.
        replace (capacity
                 - (distance capacity (_consumer a) (_producer a) + got))
          with (free - got) in Hrun, Hs' by (subst free; lia).
        exists a', (acq :: rounds), s'. rewrite Hrun, <- app_assoc.
        split_ands; try assumption; try congruence.
        -- cbn [app]. f_equal.
           destruct (Z.leb_spec (count - got) (free - got)),
                    (Z.leb_spec count free); try lia; [|reflexivity].
           rewrite drop_drop. do 3 f_equal. lia.
        -- rewrite Hs', Hs1, <- app_assoc, take_take_drop. do 2 f_equal. lia.
Qed.

(** [pop_n] while the producer does nothing: every load returns the same
    producer position. *)
Lemma pop_n_loop_idle fuel :
  forall (s : system T) (a : arc T) theirs out count log pending,
    reachable capacity s ->
    shared s = Alive a ->
    consumer_holds s = None ->
    dropped (_consumer a) = false ->
    Forall (eq (_producer a)) theirs ->
    0 <= count <= position_mask ->
    sent s = received s ++ pending ->
    Z.min count (Z.of_nat (length pending)) < Z.of_nat (length theirs) ->
    (length theirs <= fuel)%nat ->
    exists a' rounds s',
      receiver.pop_n_loop fuel a theirs out count log
      = (a', log ++ rounds,
         if count <=? Z.of_nat (length pending)
         then Returned (out ++ take (Z.to_nat count) pending, true)
         else if dropped (_producer a)
              then Returned (out ++ pending, false) else Parked) /\
      reachable capacity s' /\ shared s' = Alive a' /\
      producer_holds s' = producer_holds s /\ consumer_holds s' = None /\
      sent s' = sent s /\
      received s'
      = received s ++
        take (Z.to_nat (Z.min count (Z.of_nat (length pending)))) pending.
Proof using Hcapacity.
  induction fuel as [|fuel IH];
    intros s a theirs out count log pending Hreach Ha Hnone Hdc Hall Hcount
      Hsent Hloads Hfuel.
  { destruct theirs; simpl in Hfuel, Hloads; lia. }
  destruct (reachable_ok capacity Hcapacity s Hreach)
    as (pending' & Hsent' & Hok).
  assert (pending' = pending) as ->
    by (rewrite Hsent in Hsent'; now apply app_inv_head in Hsent').
  rewrite Ha in Hok. cbv zeta in Hok.
  destruct Hok as (Hcap & Hpos & Hpl & _).
  destruct (distance_cases capacity _ _ ltac:(lia) Hpos) as [Hdist Hrange].
  pose proof Hpos as (Hwc & Hwp & Hvc & Hvp & Hord).
  cbn [receiver.pop_n_loop].
  destruct (Z.eqb_spec count 0) as [->|Hne].
  { exists a, [], s. rewrite app_nil_r.
    destruct (Z.leb_spec 0 (Z.of_nat (length pending))); [|lia].
    rewrite Z.min_l by lia. simpl. rewrite ?app_nil_r. auto 10. }
  destruct theirs as [|p rest]; [simpl in Hloads; lia|].
  apply Forall_cons in Hall as [<- Hall].
  rewrite position_mask_eq in Hcount.
  rewrite wrap32_small by lia.
  destruct pending as [|x pending].
  - (* nothing to read *)
    simpl in Hpl. rewrite Hdist in Hpl.
    assert (Hsame : value (_consumer a) = value (_producer a) /\
                    revolution (_consumer a) = revolution (_producer a)).
    { destruct (revolution (_consumer a)), (revolution (_producer a));
        simpl in *; split; try reflexivity; lia. }
    destruct Hsame as [Hv Hr].
    exists a, [], s. rewrite ?app_nil_r. simpl length.
    destruct (Z.leb_spec count (Z.of_nat 0)); [simpl in *; lia|].
    replace (Z.min count (Z.of_nat 0)) with 0 by lia.
    cbn [Z.to_nat take]. rewrite ?app_nil_r.
    unfold consumer_acquire, acquire.
    destruct (dropped (_producer a)) eqn:Hdp.
    + assert (Hx : Z.lxor (_consumer a) (_producer a) = drop_flag).
      { apply lxor_drop_flag; try assumption. rewrite Hdp, Hdc. auto. }
      cbn [acquire_wait]. rewrite Hx. cbn [Z.eqb negb drop_flag].
      change (negb (drop_flag =? 0)) with true. cbv iota.
      rewrite acquire_range_closed.
      * cbn [to_bool empty_acquisition end_ Z.eqb negb]. auto 10.
      * apply peer_dropped_fields; try assumption. split; [assumption|].
        right. auto.
    + assert (Hx : Z.lxor (_consumer a) (_producer a) = 0).
      { apply lxor_zero; try assumption. rewrite Hdp, Hdc. auto. }
      rewrite (acquire_wait_all_waiting _ _ (_producer a))
        by (assumption || now constructor).
      auto 10.
  - destruct (consumer_round s a count rest (x :: pending)) as
      (acq & s1 & Hacq & Hb & Hgot & Hgp & Hmove & Hreach1 & Ha1 & Hp1 & Hc1
       & Hs1 & Hr1 & Hnd); try assumption;
      try (rewrite position_mask_eq; lia); try discriminate.
    rewrite Hacq, Hb. cbn [negb].
    rewrite wrap32_small by lia. rewrite wrap_size_t_small by lia.
    rewrite Hmove.
    set (got := end_ acq - begin acq) in *.
    set (a1 := consumer_release _ acq) in *.
    set (pd := x :: pending) in *.
    destruct (IH s1 a1 rest (out ++ take (Z.to_nat got) pd) (count - got)
                (log ++ [acq]) (drop (Z.to_nat got) pd))
      as (a' & rounds & s' & Hrun & Hreach' & Ha' & Hp' & Hc' & Hs' & Hr');
      try assumption; subst a1;
      cbn [consumer_release with_consumer with_data _producer _consumer];
      try assumption.
    + rewrite position_mask_eq. lia.
    + rewrite Hs1, Hr1, Hsent, <- app_assoc, take_drop. reflexivity.
    + rewrite length_drop. simpl length in Hloads.
      change (length pd) with (S (length pending)) in *. lia.
    + simpl in Hfuel. lia.
    + cbn [consumer_release with_consumer with_data _producer _consumer] in *.
      rewrite length_drop in Hrun, Hr'.
      replace (Z.of_nat (length pd - Z.to_nat got))
        with (Z.of_nat (length pd) - got) in Hrun, Hr' by lia.
      exists a', (acq :: rounds), s'. rewrite Hrun, <- app_assoc.
      split_ands; try assumption; try congruence.
      * cbn [app]. f_equal.
        destruct (Z.leb_spec (count - got) (Z.of_nat (length pd) - got)),
                 (Z.leb_spec count (Z.of_nat (length pd))); try lia.
        -- rewrite <- app_assoc, take_take_drop. do 4 f_equal. lia.
        -- rewrite <- app_assoc, take_drop. reflexivity.
      * rewrite Hr', Hr1, <- app_assoc, take_take_drop. do 2 f_equal. lia.
Qed.

(** The producer meets a consumer that has dropped. *)
Lemma producer_acquire_closed (a : arc T) rest slots :
  is_size_type (_producer a) -> is_size_type (_consumer a) ->
  dropped (_producer a) = false -> dropped (_consumer a) = true ->
  producer_acquire a (_consumer a :: rest) slots
  = Some (empty_acquisition, rest).
Proof using Type.
  clear Hcapacity.
  intros Hwp Hwc Hdp Hdc. unfold producer_acquire, acquire.
  cbn [acquire_wait].
  destruct (Z.eqb_spec (Z.lxor (_producer a) (_consumer a)) revolution_flag)
    as [Hx|Hx].
  { apply lxor_revolution_flag in Hx as (_ & _ & Hd); try assumption.
    congruence. }
  cbn [negb]. rewrite acquire_range_closed; [reflexivity|].
  apply peer_dropped_fields; try assumption. split; [assumption|].
  left. rewrite revolution_flag_eq. lia.
Qed.

(** The consumer meets an empty buffer. *)
Lemma consumer_acquire_empty (s : system T) (a : arc T) rest slots :
  reachable capacity s ->
  shared s = Alive a ->
  dropped (_consumer a) = false ->
  sent s = received s ->
  (dropped (_producer a) = true ->
   consumer_acquire a (_producer a :: rest) slots
   = Some (empty_acquisition, rest)) /\
  (dropped (_producer a) = false -> Forall (eq (_producer a)) rest ->
   consumer_acquire a (_producer a :: rest) slots = None).
Proof using Hcapacity.
  intros Hreach Ha Hdc Hsent.
  destruct (reachable_ok capacity Hcapacity s Hreach)
    as (pending & Hsent' & Hok).
  assert (pending = []) as ->.
  { rewrite Hsent in Hsent'. rewrite <- (app_nil_r (received s)) in Hsent' at 1.
    now apply app_inv_head in Hsent'. }
  rewrite Ha in Hok. cbv zeta in Hok.
  destruct Hok as (Hcap & Hpos & Hpl & _).
  destruct (distance_cases capacity _ _ ltac:(lia) Hpos) as [Hdist Hrange].
  pose proof Hpos as (Hwc & Hwp & Hvc & Hvp & Hord).
  simpl in Hpl. rewrite Hdist in Hpl.
  assert (Hsame : value (_consumer a) = value (_producer a) /\
                  revolution (_consumer a) = revolution (_producer a)).
  { destruct (revolution (_consumer a)), (revolution (_producer a));
      simpl in *; split; try reflexivity; lia. }
  destruct Hsame as [Hv Hr].
  unfold consumer_acquire, acquire. split.
  - intros Hdp.
    assert (Hx : Z.lxor (_consumer a) (_producer a) = drop_flag).
    { apply lxor_drop_flag; try assumption. rewrite Hdp, Hdc. auto. }
    cbn [acquire_wait]. rewrite Hx.
    change (negb (drop_flag =? 0)) with true. cbv iota.
    rewrite acquire_range_closed; [reflexivity|].
    apply peer_dropped_fields; try assumption. split; [assumption|].
    right. auto.
  - intros Hdp Hall.
    assert (Hx : Z.lxor (_consumer a) (_producer a) = 0).
    { apply lxor_zero; try assumption. rewrite Hdp, Hdc. auto. }
    rewrite (acquire_wait_all_waiting _ _ (_producer a))
      by (assumption || now constructor).
    reflexivity.
Qed.

(** [emplace] when there is room. *)
Lemma emplace_open (s : system T) (a : arc T) rest (v : T) :
  reachable capacity s ->
  shared s = Alive a ->
  producer_holds s = None ->
  dropped (_producer a) = false -> dropped (_consumer a) = false ->
  distance capacity (_consumer a) (_producer a) < capacity ->
  exists a' s',
    sender.emplace a (_consumer a :: rest) v = (a', Returned true) /\
    _data a' = <[value (_producer a) := v]> (_data a) /\
    _consumer a' = _consumer a /\ dropped (_producer a') = false /\
    reachable capacity s' /\ shared s' = Alive a' /\
    producer_holds s' = None /\ consumer_holds s' = consumer_holds s /\
    sent s' = sent s ++ [v] /\ received s' = received s.
Proof using Hcapacity.
  intros Hreach Ha Hnone Hdp Hdc Hroom.
  destruct (producer_round s a 1 rest [v]) as
    (acq & s1 & Hacq & Hb & Hgot & _ & Hbeg & Hreach1 & Ha1 & Hn1 & Hc1
     & Hs1 & Hr1 & Hnd & _); try assumption; try (simpl; lia);
    [concrete|].
  assert (Hone : end_ acq - begin acq = 1) by lia.
  rewrite Hone in Ha1, Hs1. cbn in Ha1, Hs1.
  unfold sender.emplace. rewrite Hacq, Hb. cbn [negb].
  eexists _, s1. split; [reflexivity|].
  cbn [producer_release with_producer with_data _data _consumer _producer].
  rewrite Hbeg. split_ands; try assumption; try reflexivity.
  now rewrite <- Hbeg.
Qed.

(** [pop] when an element is pending. *)
Lemma pop_front (s : system T) (a : arc T) rest (x : T) pending :
  reachable capacity s ->
  shared s = Alive a ->
  consumer_holds s = None ->
  dropped (_consumer a) = false ->
  sent s = received s ++ x :: pending ->
  exists a' s',
    receiver.pop a (_producer a :: rest) = (a', Returned (Some x)) /\
    _data a' = delete (value (_consumer a)) (_data a) /\
    _producer a' = _producer a /\ dropped (_consumer a') = false /\
    reachable capacity s' /\ shared s' = Alive a' /\
    producer_holds s' = producer_holds s /\ consumer_holds s' = None /\
    sent s' = sent s /\ received s' = received s ++ [x].
Proof using Hcapacity.
  intros Hreach Ha Hnone Hdc Hsent.
  destruct (consumer_round s a 1 rest (x :: pending)) as
    (acq & s1 & Hacq & Hb & Hgot & _ & Hmove & Hreach1 & Ha1 & Hp1 & Hc1
     & Hs1 & Hr1 & Hnd); try assumption; try discriminate; [concrete|].
  assert (Hone : end_ acq - begin acq = 1) by lia.
  assert (Hend : end_ acq = begin acq + 1) by lia.
  rewrite Hone in Hmove, Hr1.
  change (Z.to_nat 1) with 1%nat in Hmove, Hr1.
  cbn [take firstn] in Hmove, Hr1. cbn [move_out] in Hmove.
  destruct (_data a !! begin acq) as [y|] eqn:Hy; [|discriminate].
  injection Hmove as ->.
  assert (Hbeg : begin acq = value (_consumer a)).
  { destruct (reachable_ok capacity Hcapacity s Hreach) as (? & _ & Hok).
    rewrite Ha in Hok. cbv zeta in Hok.
    destruct Hok as (Hcap & (_ & _ & _ & _ & _) & _).
    pose proof (Hacq) as Hacq'. unfold consumer_acquire, acquire in Hacq'.
    destruct (acquire_wait _ _ _) as [[theirPos rest']|] in Hacq';
      [|discriminate].
    injection Hacq' as <- _. unfold acquire_range in Hb |- *.
    destruct (peer_dropped _ _ _) eqn:Hpd.
    - discriminate.
    - cbn [begin]. apply land_position_mask. }
  unfold receiver.pop. rewrite Hacq, Hb. cbn [negb]. rewrite Hy.
  assert (Hdestroy : destroy (_data a) (begin acq) (end_ acq)
                     = delete (begin acq) (_data a)).
  { unfold destroy. rewrite Hone. reflexivity. }
  rewrite Hdestroy in Ha1.
  eexists _, s1. split; [reflexivity|].
  cbn [consumer_release with_consumer with_data _data _consumer _producer].
  rewrite <- Hbeg. split_ands; try assumption; reflexivity.
Qed.

End idle.

(** ** The calls of the two handles *)

(** The sender writes only the producer position and the storage. *)
Lemma move_n_loop_frame (T : Type) fuel :
  forall (a : arc T) theirs src count log,
    let a' := fst (fst (sender.move_n_loop fuel a theirs src count log)) in
    _consumer a' = _consumer a /\ _capacity a' = _capacity a /\
    _eitherSideDropped a' = _eitherSideDropped a.
Proof.
  induction fuel as [|fuel IH]; intros a theirs src count log;
    cbn [sender.move_n_loop]; destruct (count =? 0); cbn; auto.
  destruct (producer_acquire a theirs (wrap32 count)) as [[acq rest]|];
    cbn; auto.
  destruct (to_bool acq); cbn; auto.
  rewrite (surjective_pairing (uninitialized_move_n _ _ _ _)).
  match goal with
  | |- context [sender.move_n_loop fuel ?a1 ?t ?i ?c ?l] =>
      destruct (IH a1 t i c l) as (-> & -> & ->)
  end.
  auto.
Qed.

(** X6.  [emplace] in a reachable state in which the producer holds no
    range.  If the consumer has dropped, it returns [false] at once and
    changes nothing, whether or not the buffer is full.  If the consumer is
    alive and the buffer is full, it waits for as long as the consumer
    position stays the same.  If there is room, it returns [true], the
    object is in the slot at the producer's position, and the element is
    the last one sent. *)
Theorem emplace_outcome
  (T : Type) (capacity : Z) (s : system T) (a : arc T) (v : T) rest :
  0 < capacity <= 2 ^ 30 ->
  reachable capacity s ->
  shared s = Alive a ->
  producer_holds s = None ->
  dropped (_producer a) = false ->
  (dropped (_consumer a) = true ->
   sender.emplace a (_consumer a :: rest) v = (a, Returned false)) /\
  (dropped (_consumer a) = false ->
   distance capacity (_consumer a) (_producer a) = capacity ->
   Forall (eq (_consumer a)) rest ->
   sender.emplace a (_consumer a :: rest) v = (a, Parked)) /\
  (dropped (_consumer a) = false ->
   distance capacity (_consumer a) (_producer a) < capacity ->
   exists a' s',
     sender.emplace a (_consumer a :: rest) v = (a', Returned true) /\
     _data a' = <[value (_producer a) := v]> (_data a) /\
     reachable capacity s' /\ shared s' = Alive a' /\
     producer_holds s' = None /\ consumer_holds s' = consumer_holds s /\
     sent s' = sent s ++ [v] /\ received s' = received s).
Proof.
  intros Hc Hreach Ha Hnone Hdp.
  destruct (reachable_ok capacity Hc s Hreach) as (pending & _ & Hok).
  rewrite Ha in Hok. cbv zeta in Hok.
  destruct Hok as (Hcap & Hpos & _).
  destruct (distance_cases capacity _ _ ltac:(lia) Hpos) as [Hdist Hrange].
  pose proof Hpos as (Hwc & Hwp & Hvc & Hvp & Hord).
  split_ands.
  - intros Hdc. unfold sender.emplace.
    rewrite producer_acquire_closed by assumption. reflexivity.
  - intros Hdc Hfull Hall. unfold sender.emplace.
    assert (Hx : Z.lxor (_producer a) (_consumer a) = revolution_flag).
    { apply lxor_revolution_flag; try assumption.
      rewrite Hdist in Hfull.
      destruct (revolution (_consumer a)), (revolution (_producer a));
        simpl in *; split_ands; try reflexivity; try congruence; lia. }
    unfold producer_acquire, acquire.
    rewrite (acquire_wait_all_waiting _ _ (_consumer a))
      by (assumption || now constructor).
    reflexivity.
  - intros Hdc Hroom.
    destruct (emplace_open capacity Hc s a rest v)
      as (a' & s' & Hrun & Hdata & _ & _ & Hrest); try assumption.
    exists a', s'. auto.
Qed.

Lemma emplace_outcome_witness :
  (dropped (_consumer example_arc) = true ->
   sender.emplace example_arc [_consumer example_arc] 9%nat
   = (example_arc, Returned false)) /\
  (dropped (_consumer example_arc) = false ->
   distance 2 (_consumer example_arc) (_producer example_arc) = 2 ->
   Forall (eq (_consumer example_arc)) [] ->
   sender.emplace example_arc [_consumer example_arc] 9%nat
   = (example_arc, Parked)) /\
  (dropped (_consumer example_arc) = false ->
   distance 2 (_consumer example_arc) (_producer example_arc) < 2 ->
   exists a' s',
     sender.emplace example_arc [_consumer example_arc] 9%nat
     = (a', Returned true) /\
     _data a' = <[value (_producer example_arc) := 9%nat]> (_data example_arc) /\
     reachable 2 s' /\ shared s' = Alive a' /\
     producer_holds s' = None /\
     consumer_holds s' = consumer_holds example_system /\
     sent s' = sent example_system ++ [9%nat] /\
     received s' = received example_system).
Proof.
  apply (emplace_outcome nat 2 example_system example_arc 9%nat []).
  - lia.
  - exact example_reachable.
  - reflexivity.
  - reflexivity.
  - reflexivity.
Defined.

(** X7.  [pop] in a reachable state in which the consumer holds no range.
    With nothing pending it returns no element once the producer has
    dropped, and waits for as long as the producer position stays the same
    otherwise.  With an element pending it returns the oldest element not
    yet received, also after the producer has dropped, and the slot at the
    consumer's position is raw again. *)
Theorem pop_outcome
  (T : Type) (capacity : Z) (s : system T) (a : arc T) pending rest :
  0 < capacity <= 2 ^ 30 ->
  reachable capacity s ->
  shared s = Alive a ->
  consumer_holds s = None ->
  dropped (_consumer a) = false ->
  sent s = received s ++ pending ->
  (pending = [] -> dropped (_producer a) = true ->
   receiver.pop a (_producer a :: rest) = (a, Returned None)) /\
  (pending = [] -> dropped (_producer a) = false ->
   Forall (eq (_producer a)) rest ->
   receiver.pop a (_producer a :: rest) = (a, Parked)) /\
  (forall x pending', pending = x :: pending' ->
   exists a' s',
     receiver.pop a (_producer a :: rest) = (a', Returned (Some x)) /\
     _data a' = delete (value (_consumer a)) (_data a) /\
     reachable capacity s' /\ shared s' = Alive a' /\
     producer_holds s' = producer_holds s /\ consumer_holds s' = None /\
     sent s' = sent s /\ received s' = received s ++ [x]).
Proof.
  intros Hc Hreach Ha Hnone Hdc Hsent. split_ands.
  - intros -> Hdp. rewrite app_nil_r in Hsent.
    destruct (consumer_acquire_empty capacity Hc s a rest 1)
      as [Hclosed _]; try assumption.
    unfold receiver.pop. rewrite Hclosed by assumption. reflexivity.
  - intros -> Hdp Hall. rewrite app_nil_r in Hsent.
    destruct (consumer_acquire_empty capacity Hc s a rest 1)
      as [_ Hwait]; try assumption.
    unfold receiver.pop. rewrite Hwait by assumption. reflexivity.
  - intros x pending' ->.
    destruct (pop_front capacity Hc s a rest x pending')
      as (a' & s' & Hrun & Hdata & _ & _ & Hrest); try assumption.
    exists a', s'. auto.
Qed.

Lemma pop_outcome_witness :
  ([8%nat] = [] -> dropped (_producer example_arc) = true ->
   receiver.pop example_arc [_producer example_arc]
   = (example_arc, Returned None)) /\
  ([8%nat] = [] -> dropped (_producer example_arc) = false ->
   Forall (eq (_producer example_arc)) [] ->
   receiver.pop example_arc [_producer example_arc] = (example_arc, Parked)) /\
  (forall x pending', [8%nat] = x :: pending' ->
   exists a' s',
     receiver.pop example_arc [_producer example_arc]
     = (a', Returned (Some x)) /\
     _data a' = delete (value (_consumer example_arc)) (_data example_arc) /\
     reachable 2 s' /\ shared s' = Alive a' /\
     producer_holds s' = producer_holds example_system /\
     consumer_holds s' = None /\
     sent s' = sent example_system /\
     received s' = received example_system ++ [x]).
Proof.
  apply (pop_outcome nat 2 example_system example_arc [8%nat] []).
  - lia.
  - exact example_reachable.
  - reflexivity.
  - reflexivity.
  - reflexivity.
  - reflexivity.
Defined.

(** X8.  Once the receiver has dropped, sending fails without waiting and
    without touching the state: [move_n] hands the whole input back with
    [false] and [emplace] returns [false], however full the buffer is. *)
Theorem send_fails_once_receiver_dropped
  (T : Type) (a : arc T) rest (src : list T) (count : Z) (v : T) :
  is_size_type (_producer a) -> is_size_type (_consumer a) ->
  dropped (_producer a) = false ->
  dropped (_consumer a) = true ->
  1 <= count <= position_mask ->
  sender.move_n a (_consumer a :: rest) src count = (a, Returned (src, false))
  /\ sender.emplace a (_consumer a :: rest) v = (a, Returned false).
Proof.
  intros Hwp Hwc Hdp Hdc Hcount. split.
  - unfold sender.move_n, sender.move_n_log, validate_size.
    destruct (Z.gtb_spec count position_mask); [lia|].
    cbn [length sender.move_n_loop].
    destruct (Z.eqb_spec count 0); [lia|].
    rewrite producer_acquire_closed by assumption. reflexivity.
  - unfold sender.emplace.
    rewrite producer_acquire_closed by assumption. reflexivity.
Qed.

Lemma send_fails_once_receiver_dropped_witness :
  let a := {| _data := <[0 := 5%nat]> ∅; _capacity := 1;
              _eitherSideDropped := true;
              _producer := revolution_flag; _consumer := drop_flag |} in
  sender.move_n a [drop_flag] [6; 7]%nat 2 = (a, Returned ([6; 7]%nat, false))
  /\ sender.emplace a [drop_flag] 6%nat = (a, Returned false).
Proof.
  apply (send_fails_once_receiver_dropped nat
           {| _data := <[0 := 5%nat]> ∅; _capacity := 1;
              _eitherSideDropped := true;
              _producer := revolution_flag; _consumer := drop_flag |}
           [] [6; 7]%nat 2 6%nat).
  - concrete.
  - concrete.
  - reflexivity.
  - reflexivity.
  - concrete.
Defined.

(** X9.  [move_n] while the consumer does nothing (every load of the
    consumer position gives the same value), in a reachable state in which
    the producer holds no range and nobody has dropped.  It moves
    [min count free] elements, in input order, where [free] is the number
    of free slots; it returns [true] with the rest of the input when
    [count <= free], and otherwise waits with the buffer full. *)
Theorem move_n_fills_free_slots
  (T : Type) (capacity : Z) (s : system T) (a : arc T) loads
  (src : list T) (count : Z) :
  0 < capacity <= 2 ^ 30 ->
  reachable capacity s ->
  shared s = Alive a ->
  producer_holds s = None ->
  dropped (_producer a) = false -> dropped (_consumer a) = false ->
  Forall (eq (_consumer a)) loads ->
  0 <= count <= position_mask ->
  count <= Z.of_nat (length src) ->
  Z.min count (capacity - distance capacity (_consumer a) (_producer a))
  <= Z.of_nat (length loads) ->
  let free := capacity - distance capacity (_consumer a) (_producer a) in
  exists a' s',
    sender.move_n a loads src count
    = (a', if count <=? free
           then Returned (drop (Z.to_nat count) src, true) else Parked) /\
    reachable capacity s' /\ shared s' = Alive a' /\
    producer_holds s' = None /\ consumer_holds s' = consumer_holds s /\
    sent s' = sent s ++ take (Z.to_nat (Z.min count free)) src /\
    received s' = received s /\
    distance capacity (_consumer a') (_producer a')
    = distance capacity (_consumer a) (_producer a) + Z.min count free.
Proof.
  intros Hc Hreach Ha Hnone Hdp Hdc Hall Hcount Hsrc Hloads free.
  destruct (move_n_loop_idle capacity Hc (length loads) s a loads src count [])
    as (a' & rounds & s' & Hrun & Hreach' & Ha' & Hn' & Hc' & Hs' & Hr');
    try assumption; [lia|].
  exists a', s'.
  unfold sender.move_n, sender.move_n_log, validate_size.
  destruct (Z.gtb_spec count position_mask); [lia|].
  rewrite Hrun. split_ands; try assumption; try reflexivity.
  (* the distance is the number of elements pending *)
  destruct (reachable_ok capacity Hc s Hreach) as (pending & Hsent & Hok).
  destruct (reachable_ok capacity Hc s' Hreach') as (pending' & Hsent' & Hok').
  rewrite Ha in Hok. rewrite Ha' in Hok'. cbv zeta in Hok, Hok'.
  destruct Hok as (_ & Hpos & Hlen & _).
  destruct Hok' as (_ & _ & Hlen' & _).
  destruct (distance_cases capacity _ _ ltac:(lia) Hpos) as [_ Hrange].
  rewrite <- Hlen', <- Hlen.
  rewrite Hs', Hr', Hsent, <- app_assoc in Hsent'.
  apply app_inv_head in Hsent'. subst pending'.
  rewrite length_app, length_take. fold free. lia.
Qed.

Lemma move_n_fills_free_slots_witness :
  let free := 2 - distance 2 (_consumer example_arc) (_producer example_arc) in
  exists a' s',
    sender.move_n example_arc [1; 1] [9; 10; 11]%nat 2
    = (a', if 2 <=? free
           then Returned (drop (Z.to_nat 2) [9; 10; 11]%nat, true)
           else Parked) /\
    reachable 2 s' /\ shared s' = Alive a' /\
    producer_holds s' = None /\
    consumer_holds s' = consumer_holds example_system /\
    sent s' = sent example_system
              ++ take (Z.to_nat (Z.min 2 free)) [9; 10; 11]%nat /\
    received s' = received example_system /\
    distance 2 (_consumer a') (_producer a')
    = distance 2 (_consumer example_arc) (_producer example_arc)
      + Z.min 2 free.
Proof.
  apply (move_n_fills_free_slots nat 2 example_system example_arc [1; 1]
           [9; 10; 11]%nat 2).
  - lia.
  - exact example_reachable.
  - reflexivity.
  - reflexivity.
  - reflexivity.
  - reflexivity.
  - repeat constructor.
  - concrete.
  - simpl. lia.
  - vm_compute. discriminate.
Defined.

(** X10.  [pop_n] while the producer does nothing (every load of the
    producer position gives the same value), in a reachable state in which
    the consumer holds no range.  With [pending] the elements sent and not
    yet received: when [count <= length pending] it appends the [count]
    oldest of them to the output, in order, and returns [true]; otherwise
    it appends all of them and then returns [false] if the producer has
    dropped, and waits if it has not. *)
Theorem pop_n_takes_oldest_pending
  (T : Type) (capacity : Z) (s : system T) (a : arc T) loads
  (out pending : list T) (count : Z) :
  0 < capacity <= 2 ^ 30 ->
  reachable capacity s ->
  shared s = Alive a ->
  consumer_holds s = None ->
  dropped (_consumer a) = false ->
  Forall (eq (_producer a)) loads ->
  0 <= count <= position_mask ->
  sent s = received s ++ pending ->
  Z.min count (Z.of_nat (length pending)) < Z.of_nat (length loads) ->
  exists a' s',
    receiver.pop_n a loads out count
    = (a', if count <=? Z.of_nat (length pending)
           then Returned (out ++ take (Z.to_nat count) pending, true)
           else if dropped (_producer a)
                then Returned (out ++ pending, false) else Parked) /\
    reachable capacity s' /\ shared s' = Alive a' /\
    producer_holds s' = producer_holds s /\ consumer_holds s' = None /\
    sent s' = sent s /\
    received s' ++ drop (Z.to_nat count) pending = sent s.
Proof.
  intros Hc Hreach Ha Hnone Hdc Hall Hcount Hsent Hloads.
  destruct (pop_n_loop_idle capacity Hc (length loads) s a loads out count []
              pending)
    as (a' & rounds & s' & Hrun & Hreach' & Ha' & Hp' & Hc' & Hs' & Hr');
    try assumption; [lia|].
  exists a', s'.
  unfold receiver.pop_n, receiver.pop_n_log, validate_size.
  destruct (Z.gtb_spec count position_mask); [lia|].
  rewrite Hrun. split_ands; try assumption; try reflexivity.
  rewrite Hr', Hsent, <- app_assoc. f_equal.
  destruct (Z.le_gt_cases count (Z.of_nat (length pending))).
  - rewrite Z.min_l by lia. apply take_drop.
  - rewrite Z.min_r by lia. rewrite Nat2Z.id.
    rewrite firstn_all, skipn_all2 by lia. apply app_nil_r.
Qed.

Lemma pop_n_takes_oldest_pending_witness :
  exists a' s',
    receiver.pop_n example_arc [revolution_flag; revolution_flag] [1%nat] 3
    = (a', if 3 <=? Z.of_nat (length [8%nat])
           then Returned ([1%nat] ++ take (Z.to_nat 3) [8%nat], true)
           else if dropped (_producer example_arc)
                then Returned ([1%nat] ++ [8%nat], false) else Parked) /\
    reachable 2 s' /\ shared s' = Alive a' /\
    producer_holds s' = producer_holds example_system /\
    consumer_holds s' = None /\
    sent s' = sent example_system /\
    received s' ++ drop (Z.to_nat 3) [8%nat] = sent example_system.
Proof.
  apply (pop_n_takes_oldest_pending nat 2 example_system example_arc
           [revolution_flag; revolution_flag] [1%nat] [8%nat] 3).
  - lia.
  - exact example_reachable.
  - reflexivity.
  - reflexivity.
  - reflexivity.
  - repeat constructor.
  - concrete.
  - reflexivity.
  - vm_compute. reflexivity.
Defined.

(** X11.  First in, first out across the two batch calls.  In a reachable
    state in which neither side holds a range and nobody has dropped, with
    [pending] the elements sent and not yet received: a [move_n] of [count]
    elements that fit into the free slots returns [true], and a [pop_n] of
    [m <= length pending + count] elements on the resulting state returns
    [true] and appends to the output exactly the first [m] elements of
    [pending] followed by the input.  When [m] is all of them, no object is
    left in the storage. *)
Theorem move_n_then_pop_n_is_fifo
  (T : Type) (capacity : Z) (s : system T) (a : arc T) loads
  (src out pending : list T) (count m : Z) :
  0 < capacity <= 2 ^ 30 ->
  reachable capacity s ->
  shared s = Alive a ->
  producer_holds s = None -> consumer_holds s = None ->
  dropped (_producer a) = false -> dropped (_consumer a) = false ->
  sent s = received s ++ pending ->
  0 <= count <= capacity - Z.of_nat (length pending) ->
  count <= position_mask ->
  count <= Z.of_nat (length src) ->
  Forall (eq (_consumer a)) loads ->
  count <= Z.of_nat (length loads) ->
  0 <= m <= Z.of_nat (length pending) + count ->
  m <= position_mask ->
  exists a1,
    sender.move_n a loads src count
    = (a1, Returned (drop (Z.to_nat count) src, true)) /\
    forall loads',
      Forall (eq (_producer a1)) loads' ->
      m < Z.of_nat (length loads') ->
      exists a2,
        receiver.pop_n a1 loads' out m
        = (a2, Returned
                 (out ++ take (Z.to_nat m)
                           (pending ++ take (Z.to_nat count) src), true)) /\
        (m = Z.of_nat (length pending) + count -> _data a2 = ∅).
Proof.
  intros Hc Hreach Ha Hnp Hnc Hdp Hdc Hsent Hcount Hmask' Hsrc Hall Hloads Hm
    Hmask.
  destruct (reachable_ok capacity Hc s Hreach) as (pending' & Hsent' & Hok).
  assert (pending' = pending) as ->
    by (rewrite Hsent in Hsent'; now apply app_inv_head in Hsent').
  rewrite Ha in Hok. cbv zeta in Hok. destruct Hok as (_ & _ & Hlen & _).
  destruct (move_n_loop_idle capacity Hc (length loads) s a loads src count [])
    as (a1 & rounds & s1 & Hrun & Hreach1 & Ha1 & Hn1 & Hc1 & Hs1 & Hr1);
    try assumption; try lia.
  destruct (Z.leb_spec count
              (capacity - distance capacity (_consumer a) (_producer a)));
    [|lia].
  rewrite Z.min_l in Hs1 by lia.
  exists a1. split.
  { unfold sender.move_n, sender.move_n_log, validate_size.
    destruct (Z.gtb_spec count position_mask); [lia|].
    now rewrite Hrun. }
  intros loads' Hall' Hloads'.
  pose proof (move_n_loop_frame T (length loads) a loads src count [])
    as Hframe.
  rewrite Hrun in Hframe. cbv zeta in Hframe. cbn [fst] in Hframe.
  destruct Hframe as (Hcons & _).
  assert (Hsent1 : sent s1
                   = received s1 ++ (pending ++ take (Z.to_nat count) src)).
  { rewrite Hs1, Hr1, Hsent. now rewrite <- app_assoc. }
  assert (Hlen1 : Z.of_nat (length (pending ++ take (Z.to_nat count) src))
                  = Z.of_nat (length pending) + count).
  { rewrite length_app, length_take. lia. }
  destruct (pop_n_loop_idle capacity Hc (length loads') s1 a1 loads' out m []
              (pending ++ take (Z.to_nat count) src))
    as (a2 & rounds' & s2 & Hrun' & Hreach2 & Ha2 & Hp2 & Hc2 & Hs2 & Hr2);
    try assumption; try congruence; try lia.
  exists a2. split.
  { unfold receiver.pop_n, receiver.pop_n_log, validate_size.
    destruct (Z.gtb_spec m position_mask); [lia|].
    rewrite Hrun'.
    destruct (Z.leb_spec m
                (Z.of_nat (length (pending ++ take (Z.to_nat count) src))));
      [reflexivity|lia]. }
  intros ->.
  destruct (reachable_ok capacity Hc s2 Hreach2) as (pending2 & Hsent2 & Hok2).
  rewrite Ha2 in Hok2. cbv zeta in Hok2.
  destruct Hok2 as (_ & _ & _ & _ & Hsize & _).
  rewrite Z.min_l in Hr2 by lia.
  rewrite firstn_all2 in Hr2 by lia.
  rewrite Hs2, Hr2, Hsent1 in Hsent2.
  rewrite <- (app_nil_r (received s1 ++ _)) in Hsent2 at 1.
  apply app_inv_head in Hsent2. subst pending2.
  now apply map_size_empty_inv.
Qed.

Lemma move_n_then_pop_n_is_fifo_witness :
  exists a1,
    sender.move_n example_arc [1] [9; 10]%nat 1
    = (a1, Returned (drop (Z.to_nat 1) [9; 10]%nat, true)) /\
    forall loads',
      Forall (eq (_producer a1)) loads' ->
      2 < Z.of_nat (length loads') ->
      exists a2,
        receiver.pop_n a1 loads' [1%nat] 2
        = (a2, Returned
                 ([1%nat] ++ take (Z.to_nat 2)
                               ([8%nat] ++ take (Z.to_nat 1) [9; 10]%nat),
                  true)) /\
        (2 = Z.of_nat (length [8%nat]) + 1 -> _data a2 = ∅).
Proof.
  apply (move_n_then_pop_n_is_fifo nat 2 example_system example_arc [1]
           [9; 10]%nat [1%nat] [8%nat] 1 2).
  - lia.
  - exact example_reachable.
  - reflexivity.
  - reflexivity.
  - reflexivity.
  - reflexivity.
  - reflexivity.
  - reflexivity.
  - simpl. lia.
  - concrete.
  - simpl. lia.
  - repeat constructor.
  - simpl. lia.
  - simpl. lia.
  - concrete.
Defined.

(** X12.  Nothing is lost when the sender goes away.  In a reachable state
    in which neither side holds a range and nobody has dropped, the
    producer's [drop] leaves the state allocated, and a [pop_n] on it
    still delivers the elements sent and not yet received, oldest first:
    the first [count] of them with [true] when there are that many, and
    otherwise all of them with [false], after which no object is left in
    the storage. *)
Theorem pending_survive_sender_drop
  (T : Type) (capacity : Z) (s : system T) (a : arc T)
  (out pending : list T) (count : Z) :
  0 < capacity <= 2 ^ 30 ->
  reachable capacity s ->
  shared s = Alive a ->
  producer_holds s = None -> consumer_holds s = None ->
  dropped (_producer a) = false -> dropped (_consumer a) = false ->
  sent s = received s ++ pending ->
  0 <= count <= position_mask ->
  exists a1,
    drop_producer a = Alive a1 /\
    forall loads,
      Forall (eq (_producer a1)) loads ->
      Z.min count (Z.of_nat (length pending)) < Z.of_nat (length loads) ->
      exists a2,
        receiver.pop_n a1 loads out count
        = (a2, if count <=? Z.of_nat (length pending)
               then Returned (out ++ take (Z.to_nat count) pending, true)
               else Returned (out ++ pending, false)) /\
        (Z.of_nat (length pending) <= count -> _data a2 = ∅).
Proof.
  intros Hc Hreach Ha Hnp Hnc Hdp Hdc Hsent Hcount.
  destruct (reachable_ok capacity Hc s Hreach) as (pending' & _ & Hok).
  rewrite Ha in Hok. cbv zeta in Hok.
  destruct Hok as (_ & (_ & Hwp & _) & _ & _ & _ & _ & _ & Hflag & Hpg & Hcg
                   & _).
  assert (Hpg' : producer_gone s = false).
  { destruct (producer_gone s); [|reflexivity].
    specialize (Hpg eq_refl). congruence. }
  assert (Hcg' : consumer_gone s = false).
  { destruct (consumer_gone s); [|reflexivity].
    specialize (Hcg eq_refl). congruence. }
  rewrite Hpg', Hcg' in Hflag. cbn in Hflag.
  unfold drop_producer. rewrite (drop_first T Producer a Hflag).
  eexists. split; [reflexivity|].
  set (a1 := with_eitherSideDropped _ true).
  set (s0 := {| shared := Alive (drop_store Producer (load Producer a) a);
                producer_holds := None;
                consumer_holds := consumer_holds s;
                sent := sent s; received := received s;
                producer_gone := producer_gone s;
                consumer_gone := consumer_gone s |}).
  set (s1 := {| shared := Alive a1; producer_holds := None;
                consumer_holds := consumer_holds s;
                sent := sent s; received := received s;
                producer_gone := true;
                consumer_gone := consumer_gone s |}).
  assert (Hreach0 : reachable capacity s0).
  { apply (reachable_step Hreach).
    apply (@step_producer_drop_store T s a); try assumption.
    now apply alive_not_dropped. }
  assert (Hreach1 : reachable capacity s1).
  { apply (reachable_step Hreach0).
    pose proof (@step_producer_drop_exchange T s0
                  (drop_store Producer (load Producer a) a) eq_refl) as Hstep.
    unfold drop_exchange in Hstep.
    cbn [s0 producer_gone producer_holds consumer_holds sent received
         consumer_gone drop_store store load with_producer _producer
         _eitherSideDropped] in Hstep.
    rewrite Hflag in Hstep. apply Hstep; [|assumption].
    intros Hz. apply alive_not_dropped in Hz.
    destruct (lor_drop_flag (_producer a) Hwp) as (_ & _ & _ & Hd).
    congruence. }
  assert (Ha1 : shared s1 = Alive a1) by reflexivity.
  assert (Hgone : dropped (_producer a1) = true).
  { cbn. now apply lor_drop_flag. }
  intros loads Hall Hloads.
  destruct (pop_n_loop_idle capacity Hc (length loads) s1 a1 loads out count []
              pending)
    as (a2 & rounds & s2 & Hrun & Hreach2 & Ha2 & _ & _ & Hs2 & Hr2);
    try assumption; try reflexivity; try lia.
  rewrite Hgone in Hrun.
  exists a2. split.
  { unfold receiver.pop_n, receiver.pop_n_log, validate_size.
    destruct (Z.gtb_spec count position_mask); [lia|].
    now rewrite Hrun. }
  intros Hall'.
  destruct (reachable_ok capacity Hc s2 Hreach2) as (pending2 & Hsent2 & Hok2).
  rewrite Ha2 in Hok2. cbv zeta in Hok2.
  destruct Hok2 as (_ & _ & _ & _ & Hsize & _).
  rewrite Z.min_r, Nat2Z.id, firstn_all in Hr2 by lia.
  cbn [s1 sent received] in Hs2, Hr2.
  rewrite Hs2, Hr2, Hsent in Hsent2.
  rewrite <- (app_nil_r (received s ++ _)) in Hsent2 at 1.
  apply app_inv_head in Hsent2. subst pending2.
  now apply map_size_empty_inv.
Qed.

Lemma pending_survive_sender_drop_witness :
  exists a1,
    drop_producer example_arc = Alive a1 /\
    forall loads,
      Forall (eq (_producer a1)) loads ->
      Z.min 4 (Z.of_nat (length [8%nat])) < Z.of_nat (length loads) ->
      exists a2,
        receiver.pop_n a1 loads [] 4
        = (a2, if 4 <=? Z.of_nat (length [8%nat])
               then Returned ([] ++ take (Z.to_nat 4) [8%nat], true)
               else Returned ([] ++ [8%nat], false)) /\
        (Z.of_nat (length [8%nat]) <= 4 -> _data a2 = ∅).
Proof.
  apply (pending_survive_sender_drop nat 2 example_system example_arc
           [] [8%nat] 4).
  - lia.
  - exact example_reachable.
  - reflexivity.
  - reflexivity.
  - reflexivity.
  - reflexivity.
  - reflexivity.
  - reflexivity.
  - concrete.
Defined.

(** The receiver writes only the consumer position and the storage. *)
Lemma pop_n_loop_frame (T : Type) fuel :
  forall (a : arc T) theirs out count log,
    let a' := fst (fst (receiver.pop_n_loop fuel a theirs out count log)) in
    _producer a' = _producer a /\ _capacity a' = _capacity a /\
    _eitherSideDropped a' = _eitherSideDropped a.
Proof.
  induction fuel as [|fuel IH]; intros a theirs out count log;
    cbn [receiver.pop_n_loop]; destruct (count =? 0); cbn; auto.
  destruct (consumer_acquire a theirs (wrap32 count)) as [[acq rest]|];
    cbn; auto.
  destruct (to_bool acq); cbn; auto.
  destruct (move_out _ _ _); cbn; auto.
  match goal with
  | |- context [receiver.pop_n_loop fuel ?a1 ?t ?o ?c ?l] =>
      destruct (IH a1 t o c l) as (-> & -> & ->)
  end.
  auto.
Qed.

(** X13.  Each position has one writer.  Whatever the state, the loads and
    the arguments, and however the call ends, [emplace] and [move_n] leave
    the consumer position as it was, [pop] and [pop_n] leave the producer
    position as it was, and none of them changes the capacity or the flag
    [_eitherSideDropped]. *)
Theorem each_position_has_one_writer
  (T : Type) (a : arc T) (theirs : list Z) (v : T) (xs : list T) (count : Z) :
  let unchanged (a' : arc T) :=
    _capacity a' = _capacity a /\
    _eitherSideDropped a' = _eitherSideDropped a in
  (_consumer (fst (sender.emplace a theirs v)) = _consumer a /\
   unchanged (fst (sender.emplace a theirs v))) /\
  (_consumer (fst (sender.move_n a theirs xs count)) = _consumer a /\
   unchanged (fst (sender.move_n a theirs xs count))) /\
  (_producer (fst (receiver.pop a theirs)) = _producer a /\
   unchanged (fst (receiver.pop a theirs))) /\
  (_producer (fst (receiver.pop_n a theirs xs count)) = _producer a /\
   unchanged (fst (receiver.pop_n a theirs xs count))).
Proof.
  cbv zeta. split_ands.
  1-3: unfold sender.emplace;
       destruct (producer_acquire a theirs 1) as [[acq rest]|];
       [destruct (to_bool acq)|]; reflexivity.
  1-3: unfold sender.move_n, sender.move_n_log;
       destruct (validate_size count); [reflexivity|];
       pose proof (move_n_loop_frame T (length theirs) a theirs xs count [])
         as Hframe; cbv zeta in Hframe;
       destruct (sender.move_n_loop _ _ _ _ _ _) as [[a' log] r];
       apply Hframe.
  1-3: unfold receiver.pop;
       destruct (consumer_acquire a theirs 1) as [[acq rest]|];
       [destruct (to_bool acq); [destruct (_data a !! begin acq)|]|];
       reflexivity.
  1-3: unfold receiver.pop_n, receiver.pop_n_log;
       destruct (validate_size count); [reflexivity|];
       pose proof (pop_n_loop_frame T (length theirs) a theirs xs count [])
         as Hframe; cbv zeta in Hframe;
       destruct (receiver.pop_n_loop _ _ _ _ _ _) as [[a' log] r];
       apply Hframe.
Qed.

(** X14.  The state outlives both sides.  In every reachable state, with
    [drop] taken access by access: the state has been deleted only if both
    sides have made the exchange of their [drop]; while it is allocated its
    capacity is the one the channel was created with, at most one side has
    made its exchange, the flag [_eitherSideDropped] is set exactly when one
    has, and the position of a side that has carries the drop flag. *)
Theorem state_deleted_after_both_exchanges
  (T : Type) (capacity : Z) (s : system T) :
  0 < capacity <= 2 ^ 30 ->
  reachable capacity s ->
  (forall ranges storage, shared s = Deleted ranges storage ->
     producer_gone s = true /\ consumer_gone s = true) /\
  (forall a, shared s = Alive a ->
     _capacity a = capacity /\
     ~ (producer_gone s = true /\ consumer_gone s = true) /\
     _eitherSideDropped a = (producer_gone s || consumer_gone s) /\
     (producer_gone s = true -> dropped (_producer a) = true) /\
     (consumer_gone s = true -> dropped (_consumer a) = true)).
Proof.
  intros Hc Hreach.
  destruct (reachable_ok capacity Hc s Hreach) as (pending & _ & Hok).
  split.
  - intros ranges storage Hs. now rewrite Hs in Hok.
  - intros a Ha. rewrite Ha in Hok. cbv zeta in Hok.
    destruct Hok as (Hcap & _ & _ & _ & _ & _ & _ & Hflag & Hpg & Hcg & Hone).
    split_ands; try assumption.
    intros [Hp Hd]. rewrite Hp, Hd in Hone. discriminate.
Qed.

Lemma state_deleted_after_both_exchanges_witness :
  (forall ranges storage, shared example_closed = Deleted ranges storage ->
     producer_gone example_closed = true /\
     consumer_gone example_closed = true) /\
  (forall a, shared example_closed = Alive a ->
     _capacity a = 2 /\
     ~ (producer_gone example_closed = true /\
        consumer_gone example_closed = true) /\
     _eitherSideDropped a
     = (producer_gone example_closed || consumer_gone example_closed) /\
     (producer_gone example_closed = true -> dropped (_producer a) = true) /\
     (consumer_gone example_closed = true -> dropped (_consumer a) = true)).
Proof.
  apply (state_deleted_after_both_exchanges nat 2 example_closed).
  - lia.
  - exact example_closed_reachable.
Defined.

(** X15.  The layout of the storage.  In every reachable state with the
    state allocated, the elements sent and not yet received lie in the
    slots that follow the consumer's offset around the ring, oldest first;
    every other slot of the buffer is raw, and so is every index outside
    the buffer. *)
Theorem storage_holds_pending_in_ring_order
  (T : Type) (capacity : Z) (s : system T) (a : arc T) (pending : list T) :
  0 < capacity <= 2 ^ 30 ->
  reachable capacity s ->
  shared s = Alive a ->
  sent s = received s ++ pending ->
  Z.of_nat (length pending) <= capacity /\
  (forall i x, pending !! i = Some x ->
     _data a !! ((value (_consumer a) + Z.of_nat i) mod capacity) = Some x) /\
  (forall i, Z.of_nat (length pending) <= i < capacity ->
     _data a !! ((value (_consumer a) + i) mod capacity) = None) /\
  (forall k, ~ 0 <= k < capacity -> _data a !! k = None).
Proof.
  intros Hc Hreach Ha Hsent.
  destruct (reachable_ok capacity Hc s Hreach) as (pending' & Hsent' & Hok).
  assert (pending' = pending) as ->
    by (rewrite Hsent in Hsent'; now apply app_inv_head in Hsent').
  rewrite Ha in Hok. cbv zeta in Hok.
  destruct Hok as (_ & Hpos & Hpl & [Hin Hout] & _).
  destruct (distance_cases capacity _ _ ltac:(lia) Hpos) as [_ Hrange].
  destruct Hpos as (_ & _ & Hvc & _).
  assert (Hslot : forall i, 0 <= i < capacity ->
            ring_slot capacity (value (_consumer a)) i
            = (value (_consumer a) + i) mod capacity).
  { intros i Hi.
    pose proof (ring_slot_cases capacity (value (_consumer a)) i) as Hcs.
    destruct (Z.lt_ge_cases (value (_consumer a) + i) capacity).
    - rewrite Z.mod_small by lia. lia.
    - replace (value (_consumer a) + i)
        with (value (_consumer a) + i - capacity + 1 * capacity) by lia.
      rewrite Z.mod_add, Z.mod_small by lia. lia. }
  split_ands.
  - lia.
  - intros i x Hx.
    assert (i < length pending)%nat by (apply lookup_lt_is_Some; eauto).
    rewrite <- Hslot, Hin by lia. now rewrite Nat2Z.id.
  - intros i Hi. rewrite <- Hslot, Hin by lia.
    apply lookup_ge_None. lia.
  - exact Hout.
Qed.

Lemma storage_holds_pending_in_ring_order_witness :
  Z.of_nat (length [8%nat]) <= 2 /\
  (forall i x, [8%nat] !! i = Some x ->
     _data example_arc !! ((value (_consumer example_arc) + Z.of_nat i) mod 2)
     = Some x) /\
  (forall i, Z.of_nat (length [8%nat]) <= i < 2 ->
     _data example_arc !! ((value (_consumer example_arc) + i) mod 2) = None) /\
  (forall k, ~ 0 <= k < 2 -> _data example_arc !! k = None).
Proof.
  apply (storage_holds_pending_in_ring_order nat 2 example_system example_arc
           [8%nat]).
  - lia.
  - exact example_reachable.
  - reflexivity.
  - reflexivity.
Defined.

(** * The calls against a concurrent peer *)

(** Every step is a step of one of the two sides: it leaves alone what the
    other side writes. *)
Lemma step_of_one_side (T : Type) (s s' : system T) :
  step s s' -> peer_step Consumer s s' \/ peer_step Producer s s'.
Proof.
  intros Hstep. pose proof Hstep as Hstep'.
  destruct Hstep as [s a slots acq Ha|s a acq vs Ha|s a slots acq Ha
                    |s a acq vs Ha|s a Ha|s a Ha|s a Ha|s a Ha];
    [left|left|right|right|left|left|right|right];
    (split; [exact Hstep'|]); cbn [holds passed gone load shared
      producer_holds consumer_holds sent received producer_gone
      consumer_gone]; repeat split; try reflexivity;
    intros b b' Hb Hb'; rewrite Ha in Hb; injection Hb as <-;
    try (injection Hb' as <-; reflexivity);
    try congruence.
  all: unfold drop_exchange in Hb'; destruct (_eitherSideDropped a);
    [destruct (arc_destructor _); discriminate|].
  all: injection Hb' as <-; reflexivity.
Qed.

Section concurrent.
Context {T : Type}.
Variable capacity : Z.
Hypothesis Hcapacity : 0 < capacity <= 2 ^ 30.



























End concurrent.



(** A run of [pop_n] for two elements from the example state, during
    which the producer emplaces a third element: the call returns the
    pending element and the new one.  [receiver.pop_n], which reads the
    storage as it was when the call began, has no result for these
    loads. *)
Lemma example_pop_n_run :
  exists s',
    pop_n_run example_system [] 2
      [revolution_flag; Z.lor 1 revolution_flag] s'
      (Returned ([8; 9]%nat, true)) /\
    sent s' = [7; 8; 9]%nat /\ received s' = [7; 8; 9]%nat /\
    snd (receiver.pop_n example_arc
           [revolution_flag; Z.lor 1 revolution_flag] [] 2) = Undefined.
Proof.
  pose (acq1 := {| begin := 1; end_ := 2; next := revolution_flag |}).
  pose (acq2 := {| begin := 0; end_ := 1; next := Z.lor 1 revolution_flag |}).
  pose (s1 := acquired Consumer acq1 example_system).
  pose (a3 := consumer_release
                (with_data example_arc (destroy (_data example_arc) 1 2))
                acq1).
  pose (s3 := consumer_released s1 example_arc acq1
                (destroy (_data example_arc) 1 2) [8%nat]).
  (* the producer emplaces 9 *)
  pose (s4 := acquired Producer acq2 s3).
  pose (a5 := producer_release (with_data a3 (<[0 := 9%nat]> (_data a3)))
                acq2).
  pose (s5 := producer_released s4 a3 acq2 (<[0 := 9%nat]> (_data a3))
                [9%nat]).
  pose (s6 := acquired Consumer acq2 s5).
  pose (s7 := consumer_released s6 a5 acq2 (destroy (_data a5) 0 1) [9%nat]).
  assert (Hpeer : interference Consumer s3 s5).
  { apply rtc_l with s4; [|apply rtc_once].
    - split; [apply (@step_producer_acquire nat s3 a3 1 acq2); concrete|].
      repeat split; try reflexivity.
      intros ? ? [= <-] [= <-]. reflexivity.
    - split; [apply (@step_producer_release nat s4 a3 acq2 [9%nat]);
              concrete|].
      repeat split; try reflexivity.
      intros ? ? [= <-] [= <-]. reflexivity. }
  exists s7. split; [|concrete].
  unfold pop_n_run. change (validate_size 2) with (@None exception).
  apply (@pop_n_run_round nat example_system [] 2 [revolution_flag]
           s1 acq1 s1 example_arc [8%nat] [Z.lor 1 revolution_flag] s7
           (Returned ([8; 9]%nat, true))); try concrete.
  { apply (@acquire_run_exit nat Consumer 2 example_system example_system
             example_arc acq1); concrete. }
  change (pop_n_loop_run s3 [8%nat] 1 ([Z.lor 1 revolution_flag] ++ []) s7
            (Returned ([8; 9]%nat, true))).
  apply (@pop_n_run_round nat s3 [8%nat] 1 [Z.lor 1 revolution_flag]
           s6 acq2 s6 a5 [9%nat] [] s7
           (Returned ([8; 9]%nat, true))); try concrete.
  { apply (@acquire_run_exit nat Consumer 1 s3 s5 a5 acq2); try concrete.
    exact Hpeer. }
  apply (@pop_n_run_done nat s7 [8; 9]%nat).
Qed.

(** A run of [move_n] for two elements from the example state, which has
    one free slot: the call fills it, waits on the full buffer, and after
    the consumer has taken an element moves the second one into the slot
    at the end of the buffer.  [sender.move_n] computes the same result
    from the three loads. *)
Lemma example_move_n_run :
  exists s',
    move_n_run example_system [9; 10]%nat 2 [1; 1; revolution_flag] s'
      (Returned ([], true)) /\
    sent s' = [7; 8; 9; 10]%nat /\ received s' = [7; 8]%nat /\
    snd (sender.move_n example_arc [1; 1; revolution_flag] [9; 10]%nat 2)
    = Returned ([], true).
Proof.
  pose (acq1 := {| begin := 0; end_ := 1; next := Z.lor 1 revolution_flag |}).
  pose (acq2 := {| begin := 1; end_ := 2; next := revolution_flag |}).
  pose (acq3 := {| begin := 1; end_ := 2; next := 0 |}).
  pose (s1 := acquired Producer acq1 example_system).
  pose (d2 := <[0 := 9%nat]> (_data example_arc)).
  pose (a2 := producer_release (with_data example_arc d2) acq1).
  pose (s2 := producer_released s1 example_arc acq1 d2 [9%nat]).
  (* the consumer pops 8 *)
  pose (s3 := acquired Consumer acq2 s2).
  pose (a4 := consumer_release (with_data a2 (destroy (_data a2) 1 2)) acq2).
  pose (s4 := consumer_released s3 a2 acq2 (destroy (_data a2) 1 2)
                [8%nat]).
  pose (s5 := acquired Producer acq3 s4).
  pose (d6 := <[1 := 10%nat]> (_data a4)).
  pose (s6 := producer_released s5 a4 acq3 d6 [10%nat]).
  assert (Hpeer : interference Producer s2 s4).
  { apply rtc_l with s3; [|apply rtc_once].
    - split; [apply (@step_consumer_acquire nat s2 a2 1 acq2); concrete|].
      repeat split; try reflexivity.
      intros ? ? [= <-] [= <-]. reflexivity.
    - split; [apply (@step_consumer_release nat s3 a2 acq2 [8%nat]);
              concrete|].
      repeat split; try reflexivity.
      intros ? ? [= <-] [= <-]. reflexivity. }
  exists s6. split; [|concrete].
  unfold move_n_run. change (validate_size 2) with (@None exception).
  apply (@move_n_run_round nat example_system [9; 10]%nat 2 [1]
           s1 acq1 s1 example_arc [1; revolution_flag] s6
           (Returned ([], true))); try concrete.
  { apply (@acquire_run_exit nat Producer 2 example_system example_system
             example_arc acq1); concrete. }
  change (move_n_loop_run s2 [10%nat] 1 ([1; revolution_flag] ++ []) s6
            (Returned ([], true))).
  apply (@move_n_run_round nat s2 [10%nat] 1 [1; revolution_flag]
           s5 acq3 s5 a4 [] s6 (Returned ([], true))); try concrete.
  { apply (@acquire_run_wait nat Producer 1 s2 s2 a2 [revolution_flag] s5
             (Returned acq3)); try concrete.
    apply (@acquire_run_exit nat Producer 1 s2 s4 a4 acq3); try concrete.
    exact Hpeer. }
  apply (@move_n_run_done nat s6 []).
Qed.
